(** * GeoHash: a shallow embedding of [geohash2.py] and its properties

    The Python class [GeoHash] is a collection of static methods over
    immutable tables.  Strings are modelled as [string], Python's unbounded
    integers as [Z], dictionaries as [gmap], exceptions as an error monad, and
    floats as Rocq's primitive binary64 floats, the arithmetic Python runs,
    reached through the three operations the code applies to them. *)

From Stdlib Require Import ZArith QArith Qabs Qpower Floats Lia Lqa Ascii String.
From stdpp Require Import base option list gmap strings.

Set Default Proof Using "Type".
Local Open Scope Z_scope.

(** * Part I: the program *)

(** ** Exceptions *)

Inductive exn : Type :=
| KeyError
| IndexError
| ValueError.

(** The outcome of a call: a value, a Python exception, or [NoFuel] when a
    loop or recursion of the model was cut off before the code finished. *)
Inductive res (A : Type) : Type :=
| Ok (a : A)
| Raise (e : exn)
| NoFuel.
Arguments Ok {A} a.
Arguments Raise {A} e.
Arguments NoFuel {A}.

Global Instance res_ret : MRet res := λ A a, Ok a.

Global Instance res_bind : MBind res := λ A B k m,
  match m with
  | Ok a => k a
  | Raise e => Raise e
  | NoFuel => NoFuel
  end.

(** ** Python primitives on strings and dictionaries *)

(** [s[i]] for an integer index: negative indices count from the end, anything
    outside [-len, len) raises [IndexError]. *)
Definition str_index (s : string) (i : Z) : res ascii :=
  let n := Z.of_nat (String.length s) in
  let j := if i <? 0 then i + n else i in
  if (0 <=? j) && (j <? n) then
    match String.get (Z.to_nat j) s with
    | Some c => Ok c
    | None => Raise IndexError
    end
  else Raise IndexError.

(** [l[i]] for a list. *)
Definition list_index {A : Type} (l : list A) (i : Z) : res A :=
  let n := Z.of_nat (length l) in
  let j := if i <? 0 then i + n else i in
  if (0 <=? j) && (j <? n) then
    match l !! Z.to_nat j with
    | Some x => Ok x
    | None => Raise IndexError
    end
  else Raise IndexError.

(** [d[k]] raises [KeyError] on a missing key. *)
Definition dict_get {V : Type} (d : gmap ascii V) (k : ascii) : res V :=
  match d !! k with
  | Some v => Ok v
  | None => Raise KeyError
  end.

(** [d[k]] for a dictionary keyed by strings. *)
Definition table_get {V : Type} (d : gmap string V) (k : string) : res V :=
  match d !! k with
  | Some v => Ok v
  | None => Raise KeyError
  end.

(** [enumerate(s)] *)
Fixpoint enumerate_from (i : Z) (s : string) : list (Z * ascii) :=
  match s with
  | EmptyString => []
  | String c s' => (i, c) :: enumerate_from (i + 1) s'
  end.
Definition enumerate (s : string) : list (Z * ascii) := enumerate_from 0 s.

(** [c in s] for a one-character string [c]. *)
Fixpoint char_in (c : ascii) (s : string) : bool :=
  match s with
  | EmptyString => false
  | String c' s' => if Ascii.eqb c c' then true else char_in c s'
  end.

(** [s[-1]] and [s[:-1]] of a non-empty string, [None] on the empty one. *)
Fixpoint unsnoc (s : string) : option (string * ascii) :=
  match s with
  | EmptyString => None
  | String c s' =>
      match unsnoc s' with
      | None => Some (EmptyString, c)
      | Some (p, l) => Some (String c p, l)
      end
  end.

(** [s[:n]] for [0 <= n]. *)
Definition str_take (n : Z) (s : string) : string :=
  String.substring 0 (Z.to_nat n) s.

(** ** The alphabet *)

Definition base32 : string := "0123456789bcdefghjkmnpqrstuvwxyz".

(** [{c: i for i, c in enumerate(base32)}], the class attribute
    [__base32_map]; [geohash_to_int] builds the same dictionary again. *)
Definition base32_map : gmap ascii Z :=
  foldl (λ m '(i, c), <[c := i]> m) ∅ (enumerate base32).

(** ** Integer packing *)

Fixpoint geohash_to_int_loop (geohash : string) (result : Z) : res Z :=
  match geohash with
  | EmptyString => Ok result
  | String char rest =>
      i ← dict_get base32_map char;
      geohash_to_int_loop rest (result * 32 + i)
  end.

Definition geohash_to_int (geohash : string) : res Z :=
  geohash_to_int_loop geohash 0.

Fixpoint int_to_geohash_loop (n : nat) (geohash_int : Z) (result : string)
  : res string :=
  match n with
  | O => Ok result
  | S n' =>
      c ← str_index base32 (Z.land geohash_int 31);
      int_to_geohash_loop n' (Z.shiftr geohash_int 5) (String c result)
  end.

(** [range(precision)] is empty for a non-positive [precision]. *)
Definition int_to_geohash (geohash_int : Z) (precision : Z) : res string :=
  int_to_geohash_loop (Z.to_nat precision) geohash_int EmptyString.

(** ** Coordinates

    [encode_geohash] and [decode_geohash] use three float operations only:
    addition, division by the literal [2], and [>]; the interval bounds are
    the literals [-90.0], [90.0], [-180.0], [180.0].  The codec is written
    over this interface, and run on binary64. *)

Class FloatOps (F : Type) : Type := {
  fconst : Z → F;
  fadd : F → F → F;
  fdiv : F → F → F;
  fgt : F → F → bool;
}.

(** Python's [float]: IEEE 754 binary64, round to nearest even. *)
Definition float_of_Z (z : Z) : float :=
  if z <? 0 then PrimFloat.opp (PrimFloat.of_uint63 (Uint63.of_Z (- z)))
  else PrimFloat.of_uint63 (Uint63.of_Z z).

Global Instance binary64 : FloatOps float := {|
  fconst := float_of_Z;
  fadd := PrimFloat.add;
  fdiv := PrimFloat.div;
  fgt := λ a b, PrimFloat.ltb b a;
|}.

Module Codec.
Section Codec.
Context {F : Type} `{FloatOps F}.

(** [(a + b) / 2] *)
Definition midpoint (iv : F * F) : F :=
  fdiv (fadd (fst iv) (snd iv)) (fconst 2).

(** The local variables of [encode_geohash]. *)
Record enc_state : Type := EncState {
  lat_interval : F * F;
  lon_interval : F * F;
  geohash : string;
  bit : Z;
  ch : Z;
  even : bool;
}.

Definition enc_init : enc_state :=
  {| lat_interval := (fconst (-90), fconst 90);
     lon_interval := (fconst (-180), fconst 180);
     geohash := EmptyString; bit := 0; ch := 0; even := true |}.

(** One iteration of the [while] loop's body. *)
Definition encode_step (lat lon : F) (st : enc_state) : res enc_state :=
  let st1 :=
    if even st then
      let mid := midpoint (lon_interval st) in
      if fgt lon mid then
        {| lat_interval := lat_interval st;
           lon_interval := (mid, snd (lon_interval st));
           geohash := geohash st; bit := bit st;
           ch := Z.lor (ch st) (Z.shiftl 1 (4 - bit st));
           even := even st |}
      else
        {| lat_interval := lat_interval st;
           lon_interval := (fst (lon_interval st), mid);
           geohash := geohash st; bit := bit st; ch := ch st;
           even := even st |}
    else
      let mid := midpoint (lat_interval st) in
      if fgt lat mid then
        {| lat_interval := (mid, snd (lat_interval st));
           lon_interval := lon_interval st;
           geohash := geohash st; bit := bit st;
           ch := Z.lor (ch st) (Z.shiftl 1 (4 - bit st));
           even := even st |}
      else
        {| lat_interval := (fst (lat_interval st), mid);
           lon_interval := lon_interval st;
           geohash := geohash st; bit := bit st; ch := ch st;
           even := even st |} in
  let even' := negb (even st1) in
  if bit st1 <? 4 then
    Ok {| lat_interval := lat_interval st1; lon_interval := lon_interval st1;
          geohash := geohash st1; bit := bit st1 + 1; ch := ch st1;
          even := even' |}
  else
    c ← str_index base32 (ch st1);
    Ok {| lat_interval := lat_interval st1; lon_interval := lon_interval st1;
          geohash := geohash st1 +:+ String c EmptyString;
          bit := 0; ch := 0; even := even' |}.

(** [while len(geohash) < precision: ...] *)
Fixpoint encode_loop (fuel : nat) (lat lon : F) (precision : Z)
    (st : enc_state) : res enc_state :=
  if Z.of_nat (String.length (geohash st)) <? precision then
    match fuel with
    | O => NoFuel
    | S fuel' =>
        st' ← encode_step lat lon st;
        encode_loop fuel' lat lon precision st'
    end
  else Ok st.

(** Each character takes five iterations, so [5 * precision] iterations
    of fuel are enough (see [encode_run_steps] and [encode_fuel_enough]). *)
Definition encode_run (lat lon : F) (precision : Z) : res enc_state :=
  encode_loop (5 * Z.to_nat precision) lat lon precision enc_init.

Definition encode_geohash (lat lon : F) (precision : Z) : res string :=
  st ← encode_run lat lon precision;
  Ok (geohash st).

(** The local variables of [decode_geohash]. *)
Record dec_state : Type := DecState {
  d_lat_interval : F * F;
  d_lon_interval : F * F;
  d_even : bool;
}.

Definition dec_init : dec_state :=
  {| d_lat_interval := (fconst (-90), fconst 90);
     d_lon_interval := (fconst (-180), fconst 180);
     d_even := true |}.

(** The body of [for mask in [16, 8, 4, 2, 1]]. *)
Definition decode_mask (cd mask : Z) (st : dec_state) : dec_state :=
  let st1 :=
    if d_even st then
      if negb (Z.land cd mask =? 0) then
        {| d_lat_interval := d_lat_interval st;
           d_lon_interval :=
             (midpoint (d_lon_interval st), snd (d_lon_interval st));
           d_even := d_even st |}
      else
        {| d_lat_interval := d_lat_interval st;
           d_lon_interval :=
             (fst (d_lon_interval st), midpoint (d_lon_interval st));
           d_even := d_even st |}
    else
      if negb (Z.land cd mask =? 0) then
        {| d_lat_interval :=
             (midpoint (d_lat_interval st), snd (d_lat_interval st));
           d_lon_interval := d_lon_interval st;
           d_even := d_even st |}
      else
        {| d_lat_interval :=
             (fst (d_lat_interval st), midpoint (d_lat_interval st));
           d_lon_interval := d_lon_interval st;
           d_even := d_even st |} in
  {| d_lat_interval := d_lat_interval st1;
     d_lon_interval := d_lon_interval st1;
     d_even := negb (d_even st1) |}.

(** The body of [for c in gh]. *)
Definition decode_char (c : ascii) (st : dec_state) : res dec_state :=
  cd ← dict_get base32_map c;
  Ok (foldl (λ s mask, decode_mask cd mask s) st [16; 8; 4; 2; 1]).

Fixpoint decode_loop (gh : string) (st : dec_state) : res dec_state :=
  match gh with
  | EmptyString => Ok st
  | String c rest => st' ← decode_char c st; decode_loop rest st'
  end.

(** The bounding rectangle of the cell [gh]: the two intervals when the
    loop of [decode_geohash] ends. *)
Definition decode_intervals (gh : string) : res dec_state :=
  decode_loop gh dec_init.

(** Returns [(lat, lon)]. *)
Definition decode_geohash (gh : string) : res (F * F) :=
  st ← decode_intervals gh;
  Ok (midpoint (d_lat_interval st), midpoint (d_lon_interval st)).

End Codec.
End Codec.

Arguments Codec.enc_state F : clear implicits.
Arguments Codec.dec_state F : clear implicits.

(** ** Neighbours *)

(** The class attribute [__neighbors].  [neighbor] binds it to the local
    [base] and never reads it. *)
Definition neighbors : gmap string (list string) :=
  list_to_map
    [("n", ["p0r21436x8zb9dcf5h7kjnmqesgutwvy";
            "bc01fg45238967deuvhjyznpkmstqrwx"]);
     ("s", ["14365h7k9dcfesgujnmqp0r2twvyx8zb";
            "238967debc01fg45kmstqrwxuvhjyznp"]);
     ("e", ["bc01fg45238967deuvhjyznpkmstqrwx";
            "p0r21436x8zb9dcf5h7kjnmqesgutwvy"]);
     ("w", ["238967debc01fg45kmstqrwxuvhjyznp";
            "14365h7k9dcfesgujnmqp0r2twvyx8zb"])].

(** The class attribute [__borders]. *)
Definition borders : gmap string (list string) :=
  list_to_map
    [("n", ["prxz"; "bcfguvyz"]);
     ("s", ["028b"; "0145hjnp"]);
     ("e", ["bcfguvyz"; "prxz"]);
     ("w", ["0145hjnp"; "028b"])].

Definition directions : list string :=
  ["n"; "s"; "e"; "w"; "ne"; "nw"; "se"; "sw"].

(** The [if]/[elif]/[else] on [direction]: the main direction and the optional
    second one, [None] for a string that is no direction. *)
Definition split_direction (direction : string)
  : option (string * option string) :=
  if bool_decide (direction ∈ ["n"; "s"; "e"; "w"]) then
    Some (direction, None)
  else if bool_decide (direction ∈ ["ne"; "nw"; "se"; "sw"]) then
    Some (String.substring 0 1 direction, Some (String.substring 1 1 direction))
  else None.

(** [GeoHash.neighbor]; every call, recursive or not, takes one unit of
    fuel. *)
Fixpoint neighbor_fuel (fuel : nat) (gh direction : string) : res string :=
  match fuel with
  | O => NoFuel
  | S fuel' =>
      match unsnoc gh with
      | None => Ok EmptyString
      | Some (parent, last_char) =>
          let type := Z.of_nat (String.length gh) mod 2 in
          match split_direction direction with
          | None => Ok EmptyString
          | Some (main_dir, second_dir) =>
              by_type ← table_get borders main_dir;
              border ← list_index by_type type;
              neighbor_base ←
                (if char_in last_char border
                 then neighbor_fuel fuel' parent main_dir
                 else Ok parent);
              neighbor_index ← dict_get base32_map last_char;
              neighbor_char ← str_index base32 ((neighbor_index + 1) mod 32);
              let neighbor := neighbor_base +:+ String neighbor_char EmptyString in
              match second_dir with
              | Some d => neighbor_fuel fuel' neighbor d
              | None => Ok neighbor
              end
          end
      end
  end.

(** A call on [gh] nests at most [len(gh) + 2] calls (see
    [neighbor_fuel_enough]). *)
Definition neighbor (gh direction : string) : res string :=
  neighbor_fuel (String.length gh + 2) gh direction.

(** ** Quadtree children *)

(** Python's truth value of an optional string argument: [None] and the empty
    string are both false. *)
Definition truthy (s : option string) : bool :=
  match s with
  | Some (String _ _) => true
  | _ => false
  end.

(** [min_hash <= child <= max_hash], evaluated only when both are strings. *)
Definition in_range (min_hash max_hash : option string) (child : string)
  : bool :=
  match min_hash, max_hash with
  | Some lo, Some hi => String.leb lo child && String.leb child hi
  | _, _ => false
  end.

Definition z_order_even : list (list string) :=
  [["b"; "c"; "f"; "g"; "u"; "v"; "y"; "z"];
   ["8"; "9"; "d"; "e"; "s"; "t"; "w"; "x"];
   ["2"; "3"; "6"; "7"; "k"; "m"; "q"; "r"];
   ["0"; "1"; "4"; "5"; "h"; "j"; "n"; "p"]].

Definition z_order_odd : list (list string) :=
  [["p"; "r"; "x"; "z"];
   ["n"; "q"; "w"; "y"];
   ["j"; "m"; "t"; "v"];
   ["h"; "k"; "s"; "u"];
   ["5"; "7"; "e"; "g"];
   ["4"; "6"; "d"; "f"];
   ["1"; "3"; "9"; "c"];
   ["0"; "2"; "8"; "b"]].

(** The body shared by [quadtree_split_even] and [quadtree_split_odd], which
    differ in their [z_order_matrix] only. *)
Definition quadtree_fill (geohash : string) (min_hash max_hash : option string)
    (children : gmap string string) (cell : string) : gmap string string :=
  let child := geohash +:+ cell in
  if truthy min_hash && truthy max_hash then
    if in_range min_hash max_hash child then <[cell := child]> children
    else children
  else <[cell := child]> children.

Definition quadtree_split_with (z_order_matrix : list (list string))
    (geohash : string) (min_hash max_hash : option string)
  : list (list string) :=
  let children :=
    foldl (λ children row,
             foldl (quadtree_fill geohash min_hash max_hash) children row)
          (∅ : gmap string string) z_order_matrix in
  map (map (λ cell, default EmptyString (children !! cell))) z_order_matrix.

Definition quadtree_split_even := quadtree_split_with z_order_even.
Definition quadtree_split_odd := quadtree_split_with z_order_odd.

Definition quadtree_split_geo (geohash : string)
    (min_hash max_hash : option string) : list (list string) :=
  if Z.of_nat (String.length geohash) mod 2 =? 0
  then quadtree_split_even geohash min_hash max_hash
  else quadtree_split_odd geohash min_hash max_hash.

(** ** Bounds checks *)

(** [a << n] raises [ValueError] on a negative shift count. *)
Definition shift_left (a n : Z) : res Z :=
  if n <? 0 then Raise ValueError else Ok (Z.shiftl a n).

Definition create_bitmask (precision : Z) : res Z :=
  x ← shift_left 1 (5 * precision);
  Ok (x - 1).

Definition min_len (geohash min_hash max_hash : string) : Z :=
  Z.min (Z.min (Z.of_nat (String.length geohash))
               (Z.of_nat (String.length min_hash)))
        (Z.of_nat (String.length max_hash)).

Definition check_within_bounds (geohash min_hash max_hash : string)
  : res bool :=
  let precision := min_len geohash min_hash max_hash in
  mask ← create_bitmask precision;
  geohash_int ← geohash_to_int geohash;
  min_int ← geohash_to_int min_hash;
  max_int ← geohash_to_int max_hash;
  let geohash_shift := 5 * (Z.of_nat (String.length geohash) - precision) in
  let min_shift := 5 * (Z.of_nat (String.length min_hash) - precision) in
  let max_shift := 5 * (Z.of_nat (String.length max_hash) - precision) in
  let geohash_int := Z.shiftr geohash_int geohash_shift in
  let min_int := Z.shiftr min_int min_shift in
  let max_int := Z.shiftr max_int max_shift in
  let geohash_int := Z.land geohash_int mask in
  let min_int := Z.land min_int mask in
  let max_int := Z.land max_int mask in
  Ok ((min_int <=? geohash_int) && (geohash_int <=? max_int)).

Definition check_within_bounds_lexicographic
    (geohash min_hash max_hash : string) : bool :=
  let precision := min_len geohash min_hash max_hash in
  String.leb (str_take precision min_hash) (str_take precision geohash)
  && String.leb (str_take precision geohash) (str_take precision max_hash).

(** ** The rest of the class *)

(** [calculate_neighbors]: the class defines it three times, the last
    definition is the one in force.  An exception of [neighbor] leaves the
    loop. *)
Fixpoint calculate_neighbors_loop (gh : string) (ds : list string)
    (result : gmap string string) : res (gmap string string) :=
  match ds with
  | [] => Ok result
  | direction :: ds' =>
      r ← neighbor gh direction;
      calculate_neighbors_loop gh ds' (<[direction := r]> result)
  end.

Definition calculate_neighbors (gh : string) : res (gmap string string) :=
  calculate_neighbors_loop gh directions ∅.

(** [s[:n]] for any integer [n]: a negative [n] counts from the end, and the
    slice stops at the ends of the string. *)
Definition str_slice_to (n : Z) (s : string) : string :=
  let len := Z.of_nat (String.length s) in
  let stop := if n <? 0 then Z.max 0 (n + len) else Z.min n len in
  String.substring 0 (Z.to_nat stop) s.

(** [geohash1.startswith(geohash2[:prefix_length])] *)
Definition check_proximity (geohash1 geohash2 : string) (prefix_length : Z)
  : bool :=
  String.prefix (str_slice_to prefix_length geohash2) geohash1.

(** [lower_bound <= geohash <= upper_bound] *)
Definition z_order_range_query (geohash lower_bound upper_bound : string)
  : bool :=
  String.leb lower_bound geohash && String.leb geohash upper_bound.

(** [int(x)] truncates a finite float towards zero.  On an infinity or NaN
    Python raises; [0] stands for that here, and [quadtree_split] applies it
    to the square root of a length only. *)
Definition int_of_float (x : float) : Z :=
  match Prim2SF x with
  | S754_finite s m e =>
      let v := Z.shiftl (Z.pos m) e in if s then - v else v
  | _ => 0
  end.

(** [l[a:b]] for [0 <= a <= b]. *)
Definition list_slice {A : Type} (a b : nat) (l : list A) : list A :=
  take (b - a) (drop a l).

(** [quadtree_split]: the children in alphabet order, filtered, then cut
    into [int(sqrt(len(children)))] rows of that many entries. *)
Definition quadtree_split (geohash : string)
    (min_hash max_hash : option string) : list (list string) :=
  let children :=
    map (λ char, geohash +:+ String char EmptyString)
        (list_ascii_of_string base32) in
  let children :=
    if truthy min_hash && truthy max_hash
    then List.filter (in_range min_hash max_hash) children
    else children in
  let size :=
    Z.to_nat (int_of_float
                (PrimFloat.sqrt (float_of_Z (Z.of_nat (length children))))) in
  map (λ i, list_slice (i * size) ((i + 1) * size) children) (seq 0 size).

(** [s.find(c)] for a character [c]: the first index of [c], or [-1]. *)
Definition str_find (c : ascii) (s : string) : Z :=
  match String.index 0 (String c EmptyString) s with
  | Some i => Z.of_nat i
  | None => -1
  end.

(** [d[i]] for an integer [i] in a dictionary whose keys are all strings:
    no integer equals a string, so the lookup raises [KeyError]. *)
Definition dict_get_int {V : Type} (d : gmap ascii V) (i : Z) : res V :=
  Raise KeyError.

(** [if s:] for a string. *)
Definition nonempty (s : string) : bool :=
  match s with
  | EmptyString => false
  | String _ _ => true
  end.

(** [GeoHash.__calculate_neighbor], the helper of the first
    [calculate_neighbors]. *)
Fixpoint calculate_neighbor_fuel (fuel : nat) (gh direction : string)
  : res string :=
  match fuel with
  | O => NoFuel
  | S fuel' =>
      match unsnoc gh with
      | None => Ok EmptyString
      | Some (parent, last_char) =>
          let type := Z.of_nat (String.length gh) mod 2 in
          c ← str_index direction 0;
          let dir_main := String c EmptyString in
          dir_second ←
            (if 1 <? Z.of_nat (String.length direction)
             then c2 ← str_index direction 1; Ok (Some (String c2 EmptyString))
             else Ok None);
          by_type ← table_get borders dir_main;
          border ← list_index by_type type;
          neighbor_base ←
            (if char_in last_char border
             then calculate_neighbor_fuel fuel' parent dir_main
             else Ok parent);
          index ← dict_get base32_map last_char;
          i ← dict_get base32_map last_char;
          neighbor_char ← str_index base32 i;
          neighbor_char ←
            (if nonempty neighbor_base then
               i1 ← dict_get base32_map last_char;
               table ← table_get neighbors dir_main;
               row ← list_index table type;
               i2 ← dict_get_int base32_map (str_find last_char row);
               str_index base32 ((i1 + i2) mod 32)
             else Ok neighbor_char);
          let neighbor := neighbor_base +:+ String neighbor_char EmptyString in
          match dir_second with
          | Some d => calculate_neighbor_fuel fuel' neighbor d
          | None => Ok neighbor
          end
      end
  end.

(** A call on [gh] nests at most [len(gh) + 2] calls. *)
Definition calculate_neighbor (gh direction : string) : res string :=
  calculate_neighbor_fuel (String.length gh + 2) gh direction.

(** * Part II: the vocabulary of the properties *)

(** ** Strings and the alphabet *)

(** A geohash is valid when all its characters are in the alphabet. *)
Fixpoint valid_geohash (s : string) : bool :=
  match s with
  | EmptyString => true
  | String c s' => char_in c base32 && valid_geohash s'
  end.

(** [s + c] for a character [c]. *)
Abbreviation snoc s c := (s +:+ String c EmptyString).

(** The mask of [n] characters, [5 * n] bits set. *)
Definition bitmask (n : nat) : Z := Z.shiftl 1 (5 * Z.of_nat n) - 1.

(** The integer a valid string packs to. *)
Definition packed (s : string) : Z :=
  match geohash_to_int s with
  | Ok v => v
  | _ => 0
  end.

(** The alphabet is listed in increasing character order: comparing two of
    its characters is comparing their indices. *)
Definition order_agrees (i j : Z) : bool :=
  match str_index base32 i, str_index base32 j with
  | Ok c, Ok d => bool_decide (Ascii.compare c d = (i ?= j))
  | _, _ => false
  end.

(** ** Neighbours *)

(** The four directions along one axis. *)
Definition axes : list string := ["n"; "s"; "e"; "w"].

(** The two characters are consecutive in the cyclic alphabet. *)
Definition successor (l l' : ascii) : Prop :=
  ∃ i, base32_map !! l = Some i ∧ base32_map !! l' = Some ((i + 1) mod 32).

(** What a call returns on a valid geohash: a valid geohash of the same
    length whose last character is the alphabet's next one. *)
Definition neighbor_post (gh r : string) : Prop :=
  String.length r = String.length gh
  ∧ valid_geohash r = true
  ∧ ∀ p l, gh = snoc p l → ∃ p' l', r = snoc p' l' ∧ successor l l'.

(** ** Quadtree children *)

(** Whether [quadtree_fill] stores the child of [cell]. *)
Definition kept (geohash : string) (min_hash max_hash : option string)
    (cell : string) : bool :=
  if truthy min_hash && truthy max_hash
  then in_range min_hash max_hash (geohash +:+ cell)
  else true.

(** The table [quadtree_split_geo] dispatches to. *)
Definition z_order_matrix (geohash : string) : list (list string) :=
  if Z.of_nat (String.length geohash) mod 2 =? 0
  then z_order_even else z_order_odd.

(** ** Coordinates *)

(** The real number a coordinate denotes.  For binary64 it is the value of a
    finite float, and [0] stands for the infinities and NaN. *)
Class FloatVal (F : Type) : Type := fval : F → Q.

Definition float_val (x : float) : Q :=
  match Prim2SF x with
  | S754_finite s m e =>
      ((if s then - inject_Z (Z.pos m) else inject_Z (Z.pos m)) * 2 ^ e)%Q
  | _ => 0%Q
  end.

Global Instance binary64_val : FloatVal float := float_val.

(** The coordinates of the scenario, as Python reads the literals. *)
#[local] Set Warnings "-inexact-float".
Definition lat64 : float := 57.64911%float.
Definition lon64 : float := 10.40744%float.
#[local] Set Warnings "+inexact-float".

(** A longitude on the finest grid that 19 characters resolve, just above
    128 degrees: [4503599627370525 * 2^-45], an odd multiple of
    [45 * 2^-45]. *)
Definition lon19 : float := 0x1.000000000001dp+7%float.

(** ** Binary64 numbers as rationals *)

(** The vocabulary of rounding: what [Prim2SF] of a float stands for, and
    which rationals the format holds. *)
Module B64.

(** [m * 2^e] *)
Definition F2Q (m e : Z) : Q := (inject_Z m * 2 ^ e)%Q.

Abbreviation fexp := (SpecFloat.fexp prec emax).

Definition SF2Q (x : spec_float) : Q :=
  match x with
  | S754_finite s m e => F2Q (cond_Zopp s (Z.pos m)) e
  | _ => 0%Q
  end.

(** Zero or a finite number in canonical form. *)
Definition finite_SF (x : spec_float) : bool :=
  match x with
  | S754_zero _ => true
  | S754_finite _ m e => bounded prec emax m e
  | _ => false
  end.

(** The float is a number: neither an infinity nor NaN. *)
Definition finite64 (x : float) : bool := finite_SF (Prim2SF x).

(** [q] is a number of the format: some mantissa at an exponent the format
    allows for its magnitude. *)
Definition in_format (q : Q) : Prop :=
  ∃ m e, fexp (Zdigits2 m + e) <= e ∧ (q == F2Q m e)%Q.

(** The mantissa [m] at exponent [e] with location [l] stands for [y]. *)
Definition bracket (y : Q) (m e : Z) (l : location) : Prop :=
  (F2Q m e <= y)%Q ∧ (y < F2Q (m + 1) e)%Q
  ∧ (l = loc_Exact ↔ (y == F2Q m e)%Q).

(** The float [2.0]. *)
Definition two_SF : spec_float := S754_finite false 4503599627370496 (-51).

End B64.

(** The run of the encoder, one iteration at a time. *)
Module Trace.
Import Codec.
Section Trace.
Context {F : Type} `{FloatOps F}.

(** [n] iterations of the loop body, without the loop condition. *)
Fixpoint encode_steps (n : nat) (lat lon : F) (st : enc_state F)
  : res (enc_state F) :=
  match n with
  | O => Ok st
  | S n' => st' ← encode_step lat lon st; encode_steps n' lat lon st'
  end.

(** The variables the two loops share. *)
Definition dec_of (st : enc_state F) : dec_state F :=
  {| d_lat_interval := lat_interval st;
     d_lon_interval := lon_interval st;
     d_even := even st |}.

(** The outcome of one comparison, and what it does to an interval. *)
Definition choice (lat lon : F) (st : enc_state F) : bool :=
  if even st then fgt lon (midpoint (lon_interval st))
  else fgt lat (midpoint (lat_interval st)).

Definition narrow (b : bool) (iv : F * F) : F * F :=
  if b then (midpoint iv, snd iv) else (fst iv, midpoint iv).

Definition decode_bit (b : bool) (d : dec_state F) : dec_state F :=
  {| d_lat_interval :=
       if d_even d then d_lat_interval d else narrow b (d_lat_interval d);
     d_lon_interval :=
       if d_even d then narrow b (d_lon_interval d) else d_lon_interval d;
     d_even := negb (d_even d) |}.

Definition set_bit (b : bool) (ch bit : Z) : Z :=
  if b then Z.lor ch (Z.shiftl 1 (4 - bit)) else ch.

(** The state after an iteration that does not complete a character. *)
Definition advance (lat lon : F) (st : enc_state F) : enc_state F :=
  let b := choice lat lon st in
  let d := decode_bit b (dec_of st) in
  {| lat_interval := d_lat_interval d;
     lon_interval := d_lon_interval d;
     geohash := geohash st;
     bit := bit st + 1;
     ch := set_bit b (ch st) (bit st);
     even := d_even d |}.

(** The state after an iteration that completes the character [c]. *)
Definition complete (lat lon : F) (st : enc_state F) (c : ascii)
  : enc_state F :=
  let st' := advance lat lon st in
  {| lat_interval := lat_interval st';
     lon_interval := lon_interval st';
     geohash := snoc (geohash st) c;
     bit := 0; ch := 0;
     even := even st' |}.

End Trace.
End Trace.

(** The round trip, and when a run is faithful to the real numbers. *)
Module RoundTrip.
Import Codec Trace.
Section RoundTrip.
Context {F : Type} `{FloatOps F} `{FloatVal F}.

(** The point [x] lies in the closed interval [iv]. *)
Definition inside (iv : F * F) (x : F) : Prop :=
  (fval (fst iv) <= fval x <= fval (snd iv))%Q.

Definition half_width (iv : F * F) : Q :=
  ((fval (snd iv) - fval (fst iv)) / 2)%Q.

(** The round-trip property: [decode(encode(lat, lon, p))] is a point of
    the bounding rectangle of the cell [encode(lat, lon, p)], no further
    from [(lat, lon)] than half the rectangle's width on either axis. *)
Definition round_trip_within (lat lon : F) (p : Z) : Prop :=
  ∃ g rect pt,
    encode_geohash lat lon p = Ok g
    ∧ decode_intervals g = Ok rect
    ∧ decode_geohash g = Ok pt
    ∧ inside (d_lat_interval rect) (fst pt)
    ∧ inside (d_lon_interval rect) (snd pt)
    ∧ (Qabs (fval (fst pt) - fval lat) <= half_width (d_lat_interval rect))%Q
    ∧ (Qabs (fval (snd pt) - fval lon) <= half_width (d_lon_interval rect))%Q.

(** The midpoint of [iv] is computed without rounding. *)
Definition exact_mid (iv : F * F) : bool :=
  Qeq_bool (fval (midpoint iv)) ((fval (fst iv) + fval (snd iv)) / 2).

(** [x > m] decides the comparison of the values. *)
Definition exact_gt (x m : F) : bool :=
  Bool.eqb (fgt x m) (negb (Qle_bool (fval x) (fval m))).

Definition step_faithful (lat lon : F) (st : enc_state F) : bool :=
  if even st then exact_gt lon (midpoint (lon_interval st))
  else exact_gt lat (midpoint (lat_interval st)).

(** The coordinates stay in the intervals of the encoder. *)
Definition enclosed (lat lon : F) (st : enc_state F) : Prop :=
  inside (lat_interval st) lat ∧ inside (lon_interval st) lon.

Definition width (iv : F * F) : Q := (fval (snd iv) - fval (fst iv))%Q.

(** What holds of the round trip at every precision: the geohash has [p]
    characters, [decode_geohash] returns the midpoints of its bounding
    rectangle, both that point and [(lat, lon)] are points of the rectangle,
    and so they are no further apart than the rectangle's width on either
    axis. *)
Definition round_trip_inside (lat lon : F) (p : Z) : Prop :=
  ∃ g rect pt,
    encode_geohash lat lon p = Ok g
    ∧ String.length g = Z.to_nat p
    ∧ decode_intervals g = Ok rect
    ∧ decode_geohash g = Ok pt
    ∧ pt = (midpoint (d_lat_interval rect), midpoint (d_lon_interval rect))
    ∧ inside (d_lat_interval rect) (fst pt)
    ∧ inside (d_lon_interval rect) (snd pt)
    ∧ inside (d_lat_interval rect) lat
    ∧ inside (d_lon_interval rect) lon
    ∧ (Qabs (fval (fst pt) - fval lat) <= width (d_lat_interval rect))%Q
    ∧ (Qabs (fval (snd pt) - fval lon) <= width (d_lon_interval rect))%Q.

End RoundTrip.
End RoundTrip.

(** The cells of the grid: what a geohash denotes. *)
Module Cell.
Import Codec Trace B64.

Section Choose.
Context {F : Type} `{FloatOps F}.

(** The comparison an iteration of [encode_geohash] makes, read off the
    variables the two loops share. *)
Definition choose (lat lon : F) (d : dec_state F) : bool :=
  if d_even d then fgt lon (midpoint (d_lon_interval d))
  else fgt lat (midpoint (d_lat_interval d)).

(** The point of [[lo, hi]] nearest to [x]. *)
Definition clamp (lo hi x : F) : F :=
  if fgt lo x then lo else if fgt x hi then hi else x.

End Choose.

(** [cd & mask] as a truth value. *)
Definition bit_of (cd mask : Z) : bool := negb (Z.land cd mask =? 0).

Section Intervals.
Context {F : Type} `{FloatVal F}.

(** [x] is an interior point of [iv]. *)
Definition interior (iv : F * F) (x : F) : Prop :=
  (fval (fst iv) < fval x < fval (snd iv))%Q.

(** [inner] is a part of [outer]. *)
Definition within (inner outer : F * F) : Prop :=
  (fval (fst outer) <= fval (fst inner))%Q
  ∧ (fval (snd inner) <= fval (snd outer))%Q.

End Intervals.

(** The bits of longitude and of latitude in [n] characters: the bits
    alternate, longitude first. *)
Definition lon_bits (n : nat) : Z := (5 * Z.of_nat n + 1) / 2.
Definition lat_bits (n : nat) : Z := 5 * Z.of_nat n / 2.

(** An interval of binary64 numbers on the map: its bounds are numbers, in
    order, neither beyond 180 degrees. *)
Definition ordered (iv : float * float) : Prop :=
  finite64 (fst iv) = true ∧ finite64 (snd iv) = true
  ∧ (-180 <= fval (fst iv))%Q
  ∧ (fval (fst iv) <= fval (snd iv))%Q
  ∧ (fval (snd iv) <= 180)%Q.

(** Both intervals of the loop are on the map. *)
Definition on_map (d : dec_state float) : Prop :=
  ordered (d_lat_interval d) ∧ ordered (d_lon_interval d).

(** The interval is a cell of the grid after [k] bisections of
    [[-45 * 2^span, 45 * 2^span]]: no bound was rounded on the way. *)
Definition on_grid (span k : Z) (iv : float * float) : Prop :=
  finite64 (fst iv) = true ∧ finite64 (snd iv) = true
  ∧ ∃ a, - 2 ^ k <= a ∧ a + 2 <= 2 ^ k
       ∧ (fval (fst iv) == F2Q (45 * a) (span - k))%Q
       ∧ (fval (snd iv) == F2Q (45 * (a + 2)) (span - k))%Q.

(** After [j] bits both intervals are cells of the grid: the longitude has
    been bisected [⌈j/2⌉] times, the latitude [⌊j/2⌋] times. *)
Definition dec_on_grid (j : Z) (d : dec_state float) : Prop :=
  d_even d = Z.even j
  ∧ on_grid 2 ((j + 1) / 2) (d_lon_interval d)
  ∧ on_grid 1 (j / 2) (d_lat_interval d).

(** [n] times the character [c]. *)
Fixpoint repeated (c : ascii) (n : nat) : string :=
  match n with
  | O => EmptyString
  | S n' => String c (repeated c n')
  end.

End Cell.

(** ** The rest of the class *)

(** The children [quadtree_split] keeps, before it cuts them into rows. *)
Definition split_children (geohash : string)
    (min_hash max_hash : option string) : list string :=
  let children :=
    map (λ char, snoc geohash char) (list_ascii_of_string base32) in
  if truthy min_hash && truthy max_hash
  then List.filter (in_range min_hash max_hash) children
  else children.

(** * Part III: properties *)

(** The tables are closed terms: keep [simpl] from unfolding lookups in them
    at a symbolic key. *)
Arguments str_index : simpl never.
Arguments list_index : simpl never.
Arguments dict_get : simpl never.
Arguments table_get : simpl never.
Arguments base32_map : simpl never.
Arguments borders : simpl never.
Arguments neighbors : simpl never.

(** ** The monad *)

Lemma bind_Ok {A B : Type} (a : A) (k : A → res B) : (Ok a ≫= k) = k a.
Proof. reflexivity. Qed.

Lemma bind_Ok_inv {A B : Type} (m : res A) (k : A → res B) (b : B) :
  (m ≫= k) = Ok b → ∃ a, m = Ok a ∧ k a = Ok b.
Proof. destruct m; intros Hm; try discriminate Hm. eauto. Qed.

(** ** Strings *)

Lemma append_cons (c : ascii) (s t : string) :
  String c s +:+ t = String c (s +:+ t).
Proof. reflexivity. Qed.

Lemma append_empty_r (s : string) : s +:+ EmptyString = s.
Proof.
  induction s as [|c s IH]; [reflexivity|].
  rewrite append_cons, IH. reflexivity.
Qed.

Lemma length_app (s t : string) :
  String.length (s +:+ t) = (String.length s + String.length t)%nat.
Proof.
  induction s as [|d s IHs]; [reflexivity|].
  rewrite append_cons. cbn [String.length]. rewrite IHs. reflexivity.
Qed.

Lemma length_snoc (s : string) (c : ascii) :
  String.length (snoc s c) = S (String.length s).
Proof. rewrite length_app. cbn [String.length]. lia. Qed.

Lemma valid_geohash_app (s t : string) :
  valid_geohash (s +:+ t) = valid_geohash s && valid_geohash t.
Proof.
  induction s as [|c s IH]; [reflexivity|].
  rewrite append_cons. cbn [valid_geohash]. rewrite IH, andb_assoc.
  reflexivity.
Qed.

Lemma valid_geohash_snoc (s : string) (c : ascii) :
  valid_geohash (snoc s c) = valid_geohash s && char_in c base32.
Proof.
  rewrite valid_geohash_app. cbn [valid_geohash].
  rewrite andb_true_r. reflexivity.
Qed.

Lemma unsnoc_snoc (s : string) (c : ascii) : unsnoc (snoc s c) = Some (s, c).
Proof.
  induction s as [|d s IH]; [reflexivity|].
  rewrite append_cons. cbn [unsnoc]. rewrite IH. reflexivity.
Qed.

Lemma unsnoc_Some (s p : string) (l : ascii) :
  unsnoc s = Some (p, l) → s = snoc p l.
Proof.
  revert p. induction s as [|d s IH]; intros p Hs; [discriminate Hs|].
  cbn [unsnoc] in Hs. destruct (unsnoc s) as [[p' l']|] eqn:Hu.
  - injection Hs as <- <-. rewrite append_cons, <- (IH p' eq_refl).
    reflexivity.
  - injection Hs as <- <-. destruct s; [reflexivity|].
    cbn [unsnoc] in Hu. destruct (unsnoc s) as [[? ?]|]; discriminate Hu.
Qed.

Lemma unsnoc_None (s : string) : unsnoc s = None → s = EmptyString.
Proof.
  destruct s as [|d s]; [reflexivity|]. cbn [unsnoc].
  destruct (unsnoc s) as [[? ?]|]; discriminate.
Qed.

Lemma snoc_inj (s t : string) (c d : ascii) :
  snoc s c = snoc t d → s = t ∧ c = d.
Proof.
  intros Heq. pose proof (unsnoc_snoc s c) as Hs.
  rewrite Heq, unsnoc_snoc in Hs. by injection Hs as -> ->.
Qed.

(** Slicing a prefix off a string. *)
Lemma str_take_split (n : nat) (s : string) :
  (n <= String.length s)%nat →
  ∃ t, s = String.substring 0 n s +:+ t
     ∧ String.length (String.substring 0 n s) = n
     ∧ String.length t = (String.length s - n)%nat.
Proof.
  revert s. induction n as [|n IH]; intros s Hn.
  - exists s. destruct s; simpl; auto with lia.
  - destruct s as [|c s]; [simpl in Hn; lia|].
    destruct (IH s) as (t & Hs & Hl & Ht); [simpl in Hn; lia|].
    exists t. cbn [String.substring String.length].
    rewrite append_cons, <- Hs, Hl. auto.
Qed.

(** ** The alphabet *)

(** A character of the alphabet has an index in [0, 32), and [base32] holds
    the character at that index. *)
Lemma base32_map_valid (c : ascii) :
  char_in c base32 = true →
  ∃ i, base32_map !! c = Some i ∧ 0 <= i < 32 ∧ str_index base32 i = Ok c.
Proof.
  destruct c as [[] [] [] [] [] [] [] []]; intros Hc;
    vm_compute in Hc; try discriminate Hc;
    (eexists; split; [vm_compute; reflexivity|];
     split; [lia | vm_compute; reflexivity]).
Qed.

(** Any other character is not a key of [base32_map]. *)
Lemma base32_map_invalid (c : ascii) :
  char_in c base32 = false → base32_map !! c = None.
Proof.
  destruct c as [[] [] [] [] [] [] [] []]; intros Hc;
    vm_compute in Hc; try discriminate Hc; vm_compute; reflexivity.
Qed.

(** Every index in [0, 32) holds a character of the alphabet. *)
Lemma base32_index (i : Z) :
  0 <= i < 32 →
  ∃ c, str_index base32 i = Ok c ∧ char_in c base32 = true
       ∧ base32_map !! c = Some i.
Proof.
  intros Hi.
  assert (Hcases : i ∈ seqZ 0 32) by (apply elem_of_seqZ; lia).
  vm_compute in Hcases.
  repeat (apply elem_of_cons in Hcases as [-> | Hcases];
          [eexists; split; [vm_compute; reflexivity|];
           split; vm_compute; reflexivity|]).
  by apply elem_of_nil in Hcases.
Qed.

Lemma dict_get_valid (c : ascii) :
  char_in c base32 = true →
  ∃ i, dict_get base32_map c = Ok i ∧ 0 <= i < 32
       ∧ str_index base32 i = Ok c.
Proof.
  intros (i & Hi & Hr & Hc)%base32_map_valid.
  exists i. unfold dict_get. by rewrite Hi.
Qed.

Lemma dict_get_invalid (c : ascii) :
  char_in c base32 = false → dict_get base32_map c = Raise KeyError.
Proof. intros Hc%base32_map_invalid. unfold dict_get. by rewrite Hc. Qed.

Lemma base32_sorted :
  forallb (λ i, forallb (order_agrees i) (seqZ 0 32)) (seqZ 0 32) = true.
Proof. vm_compute. reflexivity. Qed.

Lemma base32_compare (c d : ascii) (i j : Z) :
  0 <= i < 32 → 0 <= j < 32 →
  str_index base32 i = Ok c → str_index base32 j = Ok d →
  Ascii.compare c d = (i ?= j).
Proof.
  intros Hi Hj Hc Hd.
  pose proof base32_sorted as Hall.
  rewrite forallb_forall in Hall.
  specialize (Hall i). rewrite forallb_forall in Hall.
  assert (Hij : order_agrees i j = true).
  { apply Hall; apply list_elem_of_In, elem_of_seqZ; lia. }
  unfold order_agrees in Hij. rewrite Hc, Hd in Hij.
  by apply bool_decide_eq_true in Hij.
Qed.

(** ** Integer packing *)

Example geohash_to_int_u1 : geohash_to_int "u1" = Ok 833.
Proof. vm_compute. reflexivity. Qed.

Example int_to_geohash_833 : int_to_geohash 833 2 = Ok "u1".
Proof. vm_compute. reflexivity. Qed.

Example geohash_to_int_bad : geohash_to_int "ua" = Raise KeyError.
Proof. vm_compute. reflexivity. Qed.

Lemma land_31_range (x : Z) : 0 <= Z.land x 31 < 32.
Proof.
  change 31 with (Z.ones 5). rewrite Z.land_ones by lia.
  apply Z.mod_pos_bound. lia.
Qed.

(** [int_to_geohash] indexes the alphabet within its range, so it returns
    for every integer and precision. *)
Lemma int_to_geohash_total (n precision : Z) :
  ∃ s, int_to_geohash n precision = Ok s
     ∧ String.length s = Z.to_nat precision.
Proof.
  unfold int_to_geohash.
  assert (Hloop : ∀ k x r, ∃ s, int_to_geohash_loop k x r = Ok s
            ∧ String.length s = (k + String.length r)%nat).
  { induction k as [|k IH]; intros x r; [by exists r|].
    cbn [int_to_geohash_loop].
    destruct (base32_index _ (land_31_range x)) as (c & -> & _).
    rewrite bind_Ok. destruct (IH (Z.shiftr x 5) (String c r)) as (s & -> & Hs).
    exists s. split; [reflexivity|]. rewrite Hs. cbn [String.length]. lia. }
  destruct (Hloop (Z.to_nat precision) n EmptyString) as (s & -> & Hs).
  exists s. split; [reflexivity|]. rewrite Hs. cbn [String.length]. lia.
Qed.

(** The loop of [int_to_geohash] emits the low characters first: one more
    round puts the character of the next five bits in front. *)
Lemma int_to_geohash_loop_S (n : nat) (x : Z) (r : string) :
  int_to_geohash_loop (S n) x r =
  (r' ← int_to_geohash_loop n x r;
   c ← str_index base32 (Z.land (Z.shiftr x (5 * Z.of_nat n)) 31);
   Ok (String c r')).
Proof.
  revert x r. induction n as [|n IH]; intros x r.
  - simpl. rewrite Z.shiftr_0_r.
    destruct (str_index base32 (Z.land x 31)); reflexivity.
  - change (int_to_geohash_loop (S (S n)) x r) with
      (c ← str_index base32 (Z.land x 31);
       int_to_geohash_loop (S n) (Z.shiftr x 5) (String c r)).
    change (int_to_geohash_loop (S n) x r) with
      (c ← str_index base32 (Z.land x 31);
       int_to_geohash_loop n (Z.shiftr x 5) (String c r)).
    destruct (str_index base32 (Z.land x 31)) as [c0| |]; try reflexivity.
    rewrite !bind_Ok, IH, Z.shiftr_shiftr by lia.
    replace (5 + 5 * Z.of_nat n) with (5 * Z.of_nat (S n)) by lia.
    reflexivity.
Qed.

(** The packed value of a valid string, and how both loops act on it. *)
Lemma pack_unpack (s : string) :
  valid_geohash s = true →
  ∃ v, 0 <= v < 32 ^ Z.of_nat (String.length s)
    ∧ (∀ acc, geohash_to_int_loop s acc
              = Ok (acc * 32 ^ Z.of_nat (String.length s) + v))
    ∧ (∀ q r, int_to_geohash_loop (String.length s)
                (q * 32 ^ Z.of_nat (String.length s) + v) r
              = Ok (s +:+ r)).
Proof.
  induction s as [|c s IH]; intros Hs.
  - exists 0. simpl. split; [lia|]. split; intros; f_equal; lia.
  - simpl in Hs. apply andb_prop in Hs as [Hc Hs].
    destruct (IH Hs) as (v & Hv & Hpack & Hunpack).
    destruct (dict_get_valid c Hc) as (i & Hi & Hr & Hci).
    set (n := String.length s) in *.
    assert (Hpow : 32 ^ Z.of_nat (S n) = 32 * 32 ^ Z.of_nat n).
    { rewrite Nat2Z.inj_succ, Z.pow_succ_r by lia. reflexivity. }
    assert (Hpos : 0 < 32 ^ Z.of_nat n) by (apply Z.pow_pos_nonneg; lia).
    exists (i * 32 ^ Z.of_nat n + v).
    change (String.length (String c s)) with (S n). rewrite Hpow.
    split; [nia|]. split.
    + intros acc. cbn [geohash_to_int_loop]. rewrite Hi, bind_Ok, Hpack.
      f_equal. lia.
    + intros q r. rewrite int_to_geohash_loop_S.
      replace (q * (32 * 32 ^ Z.of_nat n) + (i * 32 ^ Z.of_nat n + v))
        with ((q * 32 + i) * 32 ^ Z.of_nat n + v) by lia.
      rewrite Hunpack, bind_Ok.
      rewrite Z.shiftr_div_pow2 by lia.
      replace (2 ^ (5 * Z.of_nat n)) with (32 ^ Z.of_nat n)
        by (rewrite Z.pow_mul_r by lia; reflexivity).
      rewrite Z.div_add_l, (Z.div_small v) by lia.
      change 31 with (Z.ones 5). rewrite Z.land_ones by lia.
      replace (q * 32 + i + 0) with (i + q * 2 ^ 5) by lia.
      rewrite Z.mod_add, Z.mod_small by lia.
      rewrite Hci. reflexivity.
Qed.

(** C3. Integer round-trip: for every string [s] over the alphabet,
    [geohash_to_int s] returns an integer, and [int_to_geohash] of that
    integer at precision [len(s)] returns [s] again, leading ['0'] characters
    included. *)
Theorem int_round_trip (s : string) :
  valid_geohash s = true →
  ∃ n, geohash_to_int s = Ok n
     ∧ int_to_geohash n (Z.of_nat (String.length s)) = Ok s.
Proof.
  intros (v & Hv & Hpack & Hunpack)%pack_unpack.
  exists v. unfold geohash_to_int, int_to_geohash. split.
  - rewrite Hpack. f_equal.
  - rewrite Nat2Z.id. specialize (Hunpack 0 EmptyString).
    rewrite append_empty_r in Hunpack. exact Hunpack.
Qed.

Lemma int_round_trip_witness :
  valid_geohash "00u1" = true
  ∧ ∃ n, geohash_to_int "00u1" = Ok n ∧ int_to_geohash n 4 = Ok "00u1".
Proof. split; [reflexivity | exact (int_round_trip "00u1" eq_refl)]. Defined.

(** ** Bounds checks *)

Lemma geohash_to_int_loop_valid (s : string) (acc : Z) :
  valid_geohash s = true →
  geohash_to_int_loop s acc
  = Ok (acc * 32 ^ Z.of_nat (String.length s) + packed s)
  ∧ 0 <= packed s < 32 ^ Z.of_nat (String.length s).
Proof.
  intros (v & Hv & Hpack & _)%pack_unpack.
  unfold packed, geohash_to_int. rewrite !Hpack.
  replace (0 * 32 ^ Z.of_nat (String.length s) + v) with v by lia.
  done.
Qed.

Lemma geohash_to_int_valid (s : string) :
  valid_geohash s = true → geohash_to_int s = Ok (packed s).
Proof.
  intros Hs. unfold geohash_to_int.
  destruct (geohash_to_int_loop_valid s 0 Hs) as [-> _]. reflexivity.
Qed.

Lemma packed_cons (c : ascii) (s : string) (i : Z) :
  dict_get base32_map c = Ok i → valid_geohash s = true →
  packed (String c s) = i * 32 ^ Z.of_nat (String.length s) + packed s.
Proof.
  intros Hi Hs. unfold packed at 1, geohash_to_int.
  cbn [geohash_to_int_loop]. rewrite Hi, bind_Ok.
  destruct (geohash_to_int_loop_valid s (0 * 32 + i) Hs) as [-> _].
  f_equal.
Qed.

Lemma packed_app (s t : string) :
  valid_geohash s = true → valid_geohash t = true →
  packed (s +:+ t) = packed s * 32 ^ Z.of_nat (String.length t) + packed t.
Proof.
  revert t. induction s as [|c s IH]; intros t Hs Ht.
  - change (EmptyString +:+ t) with t. change (packed EmptyString) with 0. lia.
  - cbn [valid_geohash] in Hs. apply andb_prop in Hs as [Hc Hs].
    destruct (dict_get_valid c Hc) as (i & Hi & _ & _).
    assert (Hst : valid_geohash (s +:+ t) = true).
    { clear IH. induction s as [|d s IHs]; [exact Ht|].
      cbn [valid_geohash] in Hs. apply andb_prop in Hs as [Hd Hs].
      rewrite append_cons. cbn [valid_geohash]. rewrite Hd. exact (IHs Hs). }
    rewrite append_cons, (packed_cons c _ i Hi Hst), (packed_cons c s i Hi Hs).
    rewrite IH by assumption.
    rewrite length_app, Nat2Z.inj_add, Z.pow_add_r by lia. lia.
Qed.

(** Shifting and masking the packed integer of a string down to [n]
    characters gives the packed integer of its first [n] characters. *)
Lemma aligned_packed (n : nat) (s : string) :
  valid_geohash s = true → (n <= String.length s)%nat →
  valid_geohash (String.substring 0 n s) = true
  ∧ Z.land (Z.shiftr (packed s)
                     (5 * (Z.of_nat (String.length s) - Z.of_nat n)))
           (bitmask n)
    = packed (String.substring 0 n s).
Proof.
  intros Hs Hn.
  destruct (str_take_split n s Hn) as (t & Hsplit & Hl & Ht).
  set (p := String.substring 0 n s) in *.
  rewrite Hsplit, valid_geohash_app in Hs.
  apply andb_prop in Hs as [Hp Hvt]. split; [exact Hp|].
  destruct (geohash_to_int_loop_valid p 0 Hp) as [_ Hpr].
  destruct (geohash_to_int_loop_valid t 0 Hvt) as [_ Htr].
  rewrite Hl in Hpr. rewrite Ht in Htr.
  rewrite Hsplit at 1. rewrite packed_app, Ht by assumption.
  replace (Z.of_nat (String.length s) - Z.of_nat n)
    with (Z.of_nat (String.length s - n)) by lia.
  set (k := Z.of_nat (String.length s - n)) in *.
  assert (Hk : 0 <= k) by lia.
  rewrite Z.shiftr_div_pow2 by lia.
  replace (2 ^ (5 * k)) with (32 ^ k)
    by (rewrite Z.pow_mul_r by lia; reflexivity).
  assert (0 < 32 ^ k) by (apply Z.pow_pos_nonneg; lia).
  rewrite Z.div_add_l, (Z.div_small (packed t)), Z.add_0_r by lia.
  unfold bitmask. rewrite Z.shiftl_1_l, Z.sub_1_r.
  rewrite <- Z.ones_equiv, Z.land_ones by lia.
  replace (2 ^ (5 * Z.of_nat n)) with (32 ^ Z.of_nat n)
    by (rewrite Z.pow_mul_r by lia; reflexivity).
  apply Z.mod_small. exact Hpr.
Qed.

(** On valid strings of one length the lexicographic order is the order of
    the packed integers. *)
Lemma compare_packed (a b : string) :
  valid_geohash a = true → valid_geohash b = true →
  String.length a = String.length b →
  String.compare a b = (packed a ?= packed b).
Proof.
  revert b. induction a as [|c a IH]; intros [|d b] Ha Hb Hlen;
    try discriminate Hlen; [reflexivity|].
  cbn [valid_geohash] in Ha, Hb.
  apply andb_prop in Ha as [Hc Ha]. apply andb_prop in Hb as [Hd Hb].
  injection Hlen as Hlen.
  destruct (dict_get_valid c Hc) as (i & Hi & Hir & Hic).
  destruct (dict_get_valid d Hd) as (j & Hj & Hjr & Hjd).
  rewrite (packed_cons c a i Hi Ha), (packed_cons d b j Hj Hb), <- Hlen.
  destruct (geohash_to_int_loop_valid a 0 Ha) as [_ Hpa].
  destruct (geohash_to_int_loop_valid b 0 Hb) as [_ Hpb].
  rewrite <- Hlen in Hpb.
  set (w := 32 ^ Z.of_nat (String.length a)) in *.
  cbn [String.compare].
  rewrite (base32_compare c d i j Hir Hjr Hic Hjd), (IH b Ha Hb Hlen).
  destruct (Z.compare_spec i j) as [-> | Hlt | Hgt].
  - destruct (Z.compare_spec (packed a) (packed b)) as [Heq | Hl | Hg];
      symmetry; [apply Z.compare_eq_iff | apply Z.compare_lt_iff
                | apply Z.compare_gt_iff]; lia.
  - symmetry. apply Z.compare_lt_iff. nia.
  - symmetry. apply Z.compare_gt_iff. nia.
Qed.

Lemma leb_packed (a b : string) :
  valid_geohash a = true → valid_geohash b = true →
  String.length a = String.length b →
  String.leb a b = (packed a <=? packed b).
Proof.
  intros Ha Hb Hlen. unfold String.leb, Z.leb.
  rewrite (compare_packed a b Ha Hb Hlen). reflexivity.
Qed.

(** Both tests compare the first [n] characters: as packed integers after
    the shift and the mask, as strings after the slice. *)
Lemma aligned_leb (n : nat) (a b : string) :
  valid_geohash a = true → valid_geohash b = true →
  (n <= String.length a)%nat → (n <= String.length b)%nat →
  (Z.land (Z.shiftr (packed a)
                    (5 * (Z.of_nat (String.length a) - Z.of_nat n)))
          (bitmask n)
   <=? Z.land (Z.shiftr (packed b)
                        (5 * (Z.of_nat (String.length b) - Z.of_nat n)))
              (bitmask n))
  = String.leb (String.substring 0 n a) (String.substring 0 n b).
Proof.
  intros Ha Hb Hna Hnb.
  destruct (aligned_packed n a Ha Hna) as [Hva ->].
  destruct (aligned_packed n b Hb Hnb) as [Hvb ->].
  destruct (str_take_split n a Hna) as (_ & _ & Hla & _).
  destruct (str_take_split n b Hnb) as (_ & _ & Hlb & _).
  symmetry. apply leb_packed; congruence.
Qed.

Lemma min_len_nat (geohash min_hash max_hash : string) :
  min_len geohash min_hash max_hash
  = Z.of_nat (Nat.min (Nat.min (String.length geohash)
                               (String.length min_hash))
                      (String.length max_hash)).
Proof. unfold min_len. lia. Qed.

(** A length is no negative shift count. *)
Lemma create_bitmask_nat (n : nat) :
  create_bitmask (Z.of_nat n) = Ok (bitmask n).
Proof.
  unfold create_bitmask, shift_left, bitmask.
  assert (H : (5 * Z.of_nat n <? 0) = false) by (apply Z.ltb_ge; lia).
  rewrite H. reflexivity.
Qed.

(** C7 (as the code behaves). The lexicographic and the integer bounds tests
    agree on all valid geohash strings: [check_within_bounds] returns the
    boolean that [check_within_bounds_lexicographic] returns. *)
Theorem bounds_checks_agree (geohash min_hash max_hash : string) :
  valid_geohash geohash = true →
  valid_geohash min_hash = true →
  valid_geohash max_hash = true →
  check_within_bounds geohash min_hash max_hash
  = Ok (check_within_bounds_lexicographic geohash min_hash max_hash).
Proof.
  intros Hg Hmin Hmax.
  unfold check_within_bounds, check_within_bounds_lexicographic, str_take.
  rewrite min_len_nat, Nat2Z.id, create_bitmask_nat, bind_Ok.
  rewrite !geohash_to_int_valid, !bind_Ok by assumption.
  rewrite !aligned_leb by (assumption || lia).
  reflexivity.
Qed.

Lemma bounds_checks_agree_witness :
  check_within_bounds "u1kwus" "u1kws" "u1kwv"
  = Ok (check_within_bounds_lexicographic "u1kwus" "u1kws" "u1kwv").
Proof.
  exact (bounds_checks_agree "u1kwus" "u1kws" "u1kwv" eq_refl eq_refl eq_refl).
Defined.

(** C7 (as stated) fails: no valid inputs make the two tests return different
    booleans. *)
Lemma no_bounds_disagreement :
  ¬ ∃ geohash min_hash max_hash : string,
      valid_geohash geohash = true
      ∧ valid_geohash min_hash = true
      ∧ valid_geohash max_hash = true
      ∧ check_within_bounds geohash min_hash max_hash
        ≠ Ok (check_within_bounds_lexicographic geohash min_hash max_hash).
Proof.
  intros (g & lo & hi & Hg & Hlo & Hhi & Hne). apply Hne. clear Hne.
  unfold check_within_bounds_lexicographic, str_take.
  rewrite min_len_nat, Nat2Z.id.
  rewrite <- !aligned_leb by (assumption || lia).
  unfold check_within_bounds.
  rewrite !geohash_to_int_valid, min_len_nat, create_bitmask_nat
    by assumption.
  reflexivity.
Qed.

(** ** Neighbours *)

Lemma successor_exists (l : ascii) :
  char_in l base32 = true →
  ∃ i l', dict_get base32_map l = Ok i
        ∧ str_index base32 ((i + 1) mod 32) = Ok l'
        ∧ char_in l' base32 = true
        ∧ successor l l'.
Proof.
  intros Hl. destruct (base32_map_valid l Hl) as (i & Hi & Hr & _).
  destruct (base32_index ((i + 1) mod 32)) as (l' & Hl' & Hv & Hi').
  { apply Z.mod_pos_bound. lia. }
  exists i, l'. unfold dict_get, successor. rewrite Hi. eauto 10.
Qed.

Lemma split_direction_axis (d : string) :
  d ∈ axes → split_direction d = Some (d, None).
Proof.
  intros Hd. unfold axes in Hd.
  repeat (apply elem_of_cons in Hd as [-> | Hd]; [reflexivity|]).
  by apply elem_of_nil in Hd.
Qed.

Lemma split_direction_diagonal (d : string) :
  d ∈ ["ne"; "nw"; "se"; "sw"] →
  ∃ d1 d2, split_direction d = Some (d1, Some d2) ∧ d1 ∈ axes ∧ d2 ∈ axes.
Proof.
  intros Hd.
  repeat (apply elem_of_cons in Hd as [-> | Hd];
          [eexists _, _; split; [vm_compute; reflexivity|];
           unfold axes; split; set_solver|]).
  by apply elem_of_nil in Hd.
Qed.

(** The border table has an entry for each axis and each parity, and lists
    characters of the alphabet only. *)
Lemma borders_lookup (d : string) (k : Z) :
  d ∈ axes →
  ∃ by_type border,
    table_get borders d = Ok by_type
    ∧ list_index by_type (k mod 2) = Ok border
    ∧ ∀ c, char_in c border = true → char_in c base32 = true.
Proof.
  intros Hd. unfold axes in Hd.
  assert (Hk : k mod 2 = 0 ∨ k mod 2 = 1)
    by (pose proof (Z.mod_pos_bound k 2); lia).
  repeat (apply elem_of_cons in Hd as [-> | Hd];
    [destruct Hk as [-> | ->];
     (eexists _, _; split; [vm_compute; reflexivity|];
      split; [vm_compute; reflexivity|];
      intros [[] [] [] [] [] [] [] []] Hc; vm_compute in Hc;
      try discriminate Hc; vm_compute; reflexivity)|]).
  by apply elem_of_nil in Hd.
Qed.

Lemma neighbor_fuel_unfold (fuel : nat) (gh direction : string) :
  neighbor_fuel (S fuel) gh direction =
  match unsnoc gh with
  | None => Ok EmptyString
  | Some (parent, last_char) =>
      let type := Z.of_nat (String.length gh) mod 2 in
      match split_direction direction with
      | None => Ok EmptyString
      | Some (main_dir, second_dir) =>
          by_type ← table_get borders main_dir;
          border ← list_index by_type type;
          neighbor_base ←
            (if char_in last_char border
             then neighbor_fuel fuel parent main_dir
             else Ok parent);
          neighbor_index ← dict_get base32_map last_char;
          neighbor_char ← str_index base32 ((neighbor_index + 1) mod 32);
          let neighbor := snoc neighbor_base neighbor_char in
          match second_dir with
          | Some d => neighbor_fuel fuel neighbor d
          | None => Ok neighbor
          end
      end
  end.
Proof. reflexivity. Qed.

(** A call along one axis returns, whatever fuel is left above [len(gh)]. *)
Lemma neighbor_fuel_axis (d : string) :
  d ∈ axes →
  ∀ (n : nat) (gh : string),
    String.length gh = n → valid_geohash gh = true →
    ∃ r, (∀ fuel, (n < fuel)%nat → neighbor_fuel fuel gh d = Ok r)
       ∧ neighbor_post gh r.
Proof.
  intros Hd n. induction n as [|n IH]; intros gh Hlen Hgh.
  - destruct gh; [|discriminate Hlen]. exists EmptyString. split.
    + intros [|fuel] Hfuel; [lia | reflexivity].
    + split; [reflexivity|]. split; [reflexivity|].
      intros p l Hp. apply (f_equal String.length) in Hp.
      rewrite length_snoc in Hp. discriminate Hp.
  - destruct (unsnoc gh) as [[parent last_char]|] eqn:Hu;
      [|apply unsnoc_None in Hu; subst gh; discriminate Hlen].
    pose proof (unsnoc_Some _ _ _ Hu) as ->.
    rewrite length_snoc in Hlen. injection Hlen as Hlen.
    rewrite valid_geohash_snoc in Hgh. apply andb_prop in Hgh as [Hp Hl].
    destruct (borders_lookup d (Z.of_nat (String.length (snoc parent last_char)))
                Hd) as (by_type & border & Hby & Hborder & _).
    destruct (IH parent Hlen Hp) as (rp & Hrp & Hlp & Hvp & _).
    destruct (successor_exists last_char Hl) as (i & l' & Hi & Hl' & Hv' & Hs).
    set (base := if char_in last_char border then rp else parent).
    assert (Hbase : String.length base = n ∧ valid_geohash base = true).
    { unfold base. destruct (char_in last_char border); split;
        congruence. }
    exists (snoc base l'). split.
    + intros [|fuel] Hfuel; [lia|]. rewrite neighbor_fuel_unfold, Hu.
      cbv zeta. rewrite (split_direction_axis d Hd), Hby, bind_Ok.
      rewrite Hborder, bind_Ok.
      replace (if char_in last_char border
               then neighbor_fuel fuel parent d else Ok parent)
        with (Ok (A:=string) base)
        by (unfold base; destruct (char_in last_char border);
            [rewrite Hrp by lia|]; reflexivity).
      rewrite bind_Ok, Hi, bind_Ok, Hl', bind_Ok. reflexivity.
    + split; [rewrite !length_snoc; lia|].
      split; [rewrite valid_geohash_snoc, (proj2 Hbase), Hv'; reflexivity|].
      intros p l Hpl. apply snoc_inj in Hpl as [-> ->]. eauto.
Qed.

(** A diagonal call is the call along the main axis followed by the call
    along the second. *)
Lemma neighbor_fuel_diagonal (fuel : nat) (gh d d1 d2 : string) :
  split_direction d = Some (d1, Some d2) → d1 ∈ axes → gh ≠ EmptyString →
  neighbor_fuel (S fuel) gh d
  = (r1 ← neighbor_fuel (S fuel) gh d1; neighbor_fuel fuel r1 d2).
Proof.
  intros Hsplit Hd1 Hne. rewrite !neighbor_fuel_unfold.
  destruct (unsnoc gh) as [[parent last_char]|] eqn:Hu;
    [|apply unsnoc_None in Hu; contradiction].
  cbv zeta. rewrite Hsplit, (split_direction_axis d1 Hd1).
  destruct (table_get borders d1) as [by_type| |]; try reflexivity.
  rewrite !bind_Ok.
  destruct (list_index by_type _) as [border| |]; try reflexivity.
  rewrite !bind_Ok.
  destruct (if char_in last_char border then _ else _) as [base| |];
    try reflexivity.
  rewrite !bind_Ok.
  destruct (dict_get base32_map last_char) as [i| |]; try reflexivity.
  rewrite !bind_Ok.
  destruct (str_index base32 _) as [c| |]; reflexivity.
Qed.

(** *** Fuel

    The lookups never run out of fuel, and a call of [neighbor_fuel] returns
    the same outcome for every amount of fuel above the depth of its
    recursion: [neighbor] gives it enough. *)

Lemma str_index_fuel (s : string) (i : Z) : str_index s i ≠ NoFuel.
Proof.
  unfold str_index. destruct (_ && _); [|discriminate].
  destruct (String.get _ _); discriminate.
Qed.

Lemma dict_get_fuel {V : Type} (d : gmap ascii V) (k : ascii) :
  dict_get d k ≠ NoFuel.
Proof. unfold dict_get. destruct (d !! k); discriminate. Qed.

Lemma split_direction_cases (d d1 : string) (d2 : option string) :
  split_direction d = Some (d1, d2) →
  (d ∈ axes ∧ d1 = d ∧ d2 = None) ∨ d ∈ ["ne"; "nw"; "se"; "sw"].
Proof.
  unfold split_direction, axes. intros Hsplit.
  destruct (decide (d ∈ ["n"; "s"; "e"; "w"])) as [Hax | Hnax].
  - rewrite bool_decide_eq_true_2 in Hsplit by exact Hax.
    injection Hsplit as <- <-. auto.
  - rewrite bool_decide_eq_false_2 in Hsplit by exact Hnax.
    destruct (decide (d ∈ ["ne"; "nw"; "se"; "sw"])) as [Hdiag | Hndiag];
      [auto|].
    rewrite bool_decide_eq_false_2 in Hsplit by exact Hndiag.
    discriminate Hsplit.
Qed.

Lemma neighbor_fuel_axis_any (d : string) :
  d ∈ axes →
  ∀ (n : nat) (gh : string), String.length gh = n →
    ∃ r, (∀ fuel, (n < fuel)%nat → neighbor_fuel fuel gh d = r)
       ∧ r ≠ NoFuel
       ∧ ∀ s, r = Ok s → String.length s = n.
Proof.
  intros Hd n. induction n as [|n IH]; intros gh Hlen.
  - destruct gh; [|discriminate Hlen]. exists (Ok EmptyString).
    split; [intros [|fuel] Hfuel; [lia | reflexivity]|].
    split; [discriminate|]. by intros s [= <-].
  - destruct (unsnoc gh) as [[parent last_char]|] eqn:Hu;
      [|apply unsnoc_None in Hu; subst gh; discriminate Hlen].
    pose proof (unsnoc_Some _ _ _ Hu) as ->.
    rewrite length_snoc in Hlen. injection Hlen as Hlen.
    destruct (borders_lookup d (Z.of_nat (String.length (snoc parent last_char)))
                Hd) as (by_type & border & Hby & Hborder & _).
    destruct (IH parent Hlen) as (rp & Hrp & Hrp_fuel & Hrp_len).
    set (rb := if char_in last_char border then rp else Ok parent).
    assert (Hrb : rb ≠ NoFuel ∧ ∀ base, rb = Ok base → String.length base = n).
    { unfold rb. destruct (char_in last_char border); [auto|].
      split; [discriminate|]. by intros base [= <-]. }
    destruct Hrb as [Hrb_fuel Hrb_len].
    exists (neighbor_base ← rb;
            neighbor_index ← dict_get base32_map last_char;
            neighbor_char ← str_index base32 ((neighbor_index + 1) mod 32);
            Ok (snoc neighbor_base neighbor_char)).
    split; [|split].
    + intros [|fuel] Hfuel; [lia|]. rewrite neighbor_fuel_unfold, Hu.
      cbv zeta. rewrite (split_direction_axis d Hd), Hby, bind_Ok.
      rewrite Hborder, bind_Ok.
      replace (if char_in last_char border
               then neighbor_fuel fuel parent d else Ok parent) with rb
        by (unfold rb; destruct (char_in last_char border);
            [rewrite Hrp by lia|]; reflexivity).
      reflexivity.
    + destruct rb as [base| |]; [|discriminate|contradiction].
      rewrite bind_Ok.
      pose proof (dict_get_fuel base32_map last_char) as Hi.
      destruct (dict_get base32_map last_char) as [i| |];
        [|discriminate|contradiction].
      rewrite bind_Ok.
      pose proof (str_index_fuel base32 ((i + 1) mod 32)) as Hc.
      destruct (str_index base32 ((i + 1) mod 32));
        [discriminate|discriminate|contradiction].
    + intros s Hs.
      apply bind_Ok_inv in Hs as (base & Hbase & Hs).
      apply bind_Ok_inv in Hs as (i & _ & Hs).
      apply bind_Ok_inv in Hs as (c & _ & [= <-]).
      rewrite length_snoc, (Hrb_len base Hbase). reflexivity.
Qed.

Lemma neighbor_fuel_enough (gh d : string) :
  ∃ r, (∀ fuel, (String.length gh + 2 <= fuel)%nat →
          neighbor_fuel fuel gh d = r)
     ∧ r ≠ NoFuel.
Proof.
  destruct (decide (gh = EmptyString)) as [-> | Hne].
  { exists (Ok EmptyString).
    split; [intros [|fuel] Hfuel; [cbn in Hfuel; lia | reflexivity]
           | discriminate]. }
  destruct (split_direction d) as [[d1 d2]|] eqn:Hsplit.
  - destruct (split_direction_cases d d1 d2 Hsplit)
      as [(Hax & -> & ->) | Hdiag].
    + destruct (neighbor_fuel_axis_any d Hax _ gh eq_refl)
        as (r & Hr & Hfuel & _).
      exists r. split; [intros fuel Hle; apply Hr; lia | exact Hfuel].
    + clear Hsplit d1 d2.
      destruct (split_direction_diagonal d Hdiag)
        as (d1 & d2 & Hsplit & Hd1 & Hd2).
      destruct (neighbor_fuel_axis_any d1 Hd1 _ gh eq_refl)
        as (r1 & Hr1 & Hfuel1 & Hlen1).
      destruct r1 as [s1|e|]; [| |contradiction].
      * destruct (neighbor_fuel_axis_any d2 Hd2 _ s1 eq_refl)
          as (r2 & Hr2 & Hfuel2 & _).
        exists r2. split; [|exact Hfuel2].
        intros [|fuel] Hle; [lia|].
        rewrite (neighbor_fuel_diagonal _ gh d d1 d2 Hsplit Hd1 Hne).
        rewrite Hr1, bind_Ok by lia. apply Hr2.
        rewrite (Hlen1 s1 eq_refl). lia.
      * exists (Raise e). split; [|discriminate].
        intros [|fuel] Hle; [lia|].
        rewrite (neighbor_fuel_diagonal _ gh d d1 d2 Hsplit Hd1 Hne).
        rewrite Hr1 by lia. reflexivity.
  - exists (Ok EmptyString). split; [|discriminate].
    intros [|fuel] Hle; [lia|]. rewrite neighbor_fuel_unfold.
    destruct (unsnoc gh) as [[parent last_char]|]; [|reflexivity].
    cbv zeta. rewrite Hsplit. reflexivity.
Qed.

(** Every call on a valid geohash returns within the fuel [neighbor] gives
    it. *)
Lemma neighbor_valid (gh d : string) :
  d ∈ directions → valid_geohash gh = true →
  ∃ r, neighbor gh d = Ok r
     ∧ String.length r = String.length gh ∧ valid_geohash r = true.
Proof.
  intros Hd Hgh. unfold neighbor.
  assert (Hcases : d ∈ axes ∨ d ∈ ["ne"; "nw"; "se"; "sw"]).
  { unfold directions in Hd. unfold axes.
    rewrite !elem_of_cons, elem_of_nil in Hd |- *. tauto. }
  destruct Hcases as [Hax | Hdiag].
  - destruct (neighbor_fuel_axis d Hax _ gh eq_refl Hgh)
      as (r & Hr & Hlen & Hv & _).
    exists r. rewrite Hr by lia. auto.
  - destruct (split_direction_diagonal d Hdiag)
      as (d1 & d2 & Hsplit & Hd1 & Hd2).
    destruct (decide (gh = EmptyString)) as [-> | Hne].
    { exists EmptyString. auto. }
    replace (String.length gh + 2)%nat with (S (String.length gh + 1)) by lia.
    rewrite (neighbor_fuel_diagonal _ gh d d1 d2 Hsplit Hd1 Hne).
    destruct (neighbor_fuel_axis d1 Hd1 _ gh eq_refl Hgh)
      as (r1 & Hr1 & Hlen1 & Hv1 & _).
    rewrite Hr1, bind_Ok by lia.
    destruct (neighbor_fuel_axis d2 Hd2 _ r1 eq_refl Hv1)
      as (r2 & Hr2 & Hlen2 & Hv2 & _).
    exists r2. rewrite Hr2 by lia. split; [reflexivity|].
    split; [congruence | exact Hv2].
Qed.

(** C9. For each of the eight directions, [neighbor] of the empty string is
    the empty string, and [neighbor] of a non-empty valid geohash returns a
    string of the same length (so never the empty string). *)
Theorem neighbor_length (direction : string) :
  direction ∈ directions →
  neighbor EmptyString direction = Ok EmptyString
  ∧ ∀ g, valid_geohash g = true → g ≠ EmptyString →
      ∃ r, neighbor g direction = Ok r
         ∧ String.length r = String.length g ∧ r ≠ EmptyString.
Proof.
  intros Hd. split; [reflexivity|]. intros g Hg Hne.
  destruct (neighbor_valid g direction Hd Hg) as (r & Hr & Hlen & _).
  exists r. split; [exact Hr|]. split; [exact Hlen|].
  intros ->. destruct g; [contradiction | discriminate Hlen].
Qed.

Lemma neighbor_length_witness :
  neighbor EmptyString "sw" = Ok EmptyString
  ∧ ∃ r, neighbor "u4pruy" "sw" = Ok r
       ∧ String.length r = 6%nat ∧ r ≠ EmptyString.
Proof.
  assert (Hd : "sw" ∈ directions) by (unfold directions; set_solver).
  split.
  - exact (proj1 (neighbor_length "sw" Hd)).
  - exact (proj2 (neighbor_length "sw" Hd) "u4pruy" eq_refl ltac:(discriminate)).
Defined.

(** Two calls along axes advance the last character by two places of the
    cyclic alphabet, so the second never undoes the first. *)
Lemma successor_twice (l l1 l2 : ascii) :
  successor l l1 → successor l1 l2 → l2 ≠ l.
Proof.
  intros (i & Hi & Hi1) (j & Hj & Hj2) ->.
  rewrite Hi1 in Hj. injection Hj as <-.
  rewrite Hi in Hj2. injection Hj2 as Hj2.
  assert (Hc : i ∈ seqZ 0 32).
  { apply elem_of_seqZ. rewrite Hj2. pose proof (Z.mod_pos_bound
      ((i + 1) mod 32 + 1) 32). lia. }
  clear -Hj2 Hc. vm_compute in Hc.
  repeat (apply elem_of_cons in Hc as [-> | Hc]; [discriminate Hj2|]).
  by apply elem_of_nil in Hc.
Qed.

Lemma axes_n_s_e_w : "n" ∈ axes ∧ "s" ∈ axes ∧ "e" ∈ axes ∧ "w" ∈ axes.
Proof. unfold axes. rewrite !elem_of_cons. tauto. Qed.

(** C1 (as the code behaves). [neighbor] ignores the direction when it picks
    the last character: it always moves to the alphabet's next character.
    So north then south, and east then west, advance the last character of a
    non-empty valid geohash by two and never return the geohash itself. *)
Theorem neighbor_round_trip_fails (g : string) :
  valid_geohash g = true → g ≠ EmptyString →
  (∃ r1 r2, neighbor g "n" = Ok r1 ∧ neighbor r1 "s" = Ok r2 ∧ r2 ≠ g)
  ∧ (∃ r1 r2, neighbor g "e" = Ok r1 ∧ neighbor r1 "w" = Ok r2 ∧ r2 ≠ g).
Proof.
  intros Hg Hne.
  destruct (unsnoc g) as [[p l]|] eqn:Hu;
    [|apply unsnoc_None in Hu; contradiction].
  apply unsnoc_Some in Hu.
  destruct axes_n_s_e_w as (Hn & Hs & He & Hw).
  assert (Htwice : ∀ d1 d2, d1 ∈ axes → d2 ∈ axes →
    ∃ r1 r2, neighbor g d1 = Ok r1 ∧ neighbor r1 d2 = Ok r2 ∧ r2 ≠ g).
  { intros d1 d2 Hd1 Hd2.
    destruct (neighbor_fuel_axis d1 Hd1 _ g eq_refl Hg)
      as (r1 & Hr1 & Hlen1 & Hv1 & Hlast1).
    destruct (neighbor_fuel_axis d2 Hd2 _ r1 eq_refl Hv1)
      as (r2 & Hr2 & _ & _ & Hlast2).
    exists r1, r2. unfold neighbor. rewrite Hr1, Hr2 by lia.
    do 2 (split; [reflexivity|]). intros ->.
    destruct (Hlast1 p l Hu) as (p1 & l1 & -> & Hs1).
    destruct (Hlast2 p1 l1 eq_refl) as (p2 & l2 & Hg2 & Hs2).
    rewrite Hu in Hg2. apply snoc_inj in Hg2 as [_ <-].
    exact (successor_twice l l1 l Hs1 Hs2 eq_refl). }
  split; apply Htwice; assumption.
Qed.

Lemma neighbor_round_trip_fails_witness :
  (∃ r1 r2, neighbor "ezs42" "n" = Ok r1 ∧ neighbor r1 "s" = Ok r2
            ∧ r2 ≠ "ezs42")
  ∧ (∃ r1 r2, neighbor "ezs42" "e" = Ok r1 ∧ neighbor r1 "w" = Ok r2
              ∧ r2 ≠ "ezs42").
Proof.
  exact (neighbor_round_trip_fails "ezs42" eq_refl ltac:(discriminate)).
Defined.

Example neighbor_ezs42 :
  neighbor "ezs42" "n" = Ok "ezs43" ∧ neighbor "ezs43" "s" = Ok "ezs44"
  ∧ neighbor "ezs42" "e" = Ok "ezs43" ∧ neighbor "ezs43" "w" = Ok "ezs44".
Proof. vm_compute. auto. Qed.

(** ** Quadtree children *)

Lemma quadtree_fill_lookup (geohash : string) (min_hash max_hash : option string)
    (cells : list string) (children : gmap string string) (k : string) :
  foldl (quadtree_fill geohash min_hash max_hash) children cells !! k
  = if bool_decide (k ∈ cells) && kept geohash min_hash max_hash k
    then Some (geohash +:+ k) else children !! k.
Proof.
  revert children. induction cells as [|c cells IH]; intros children.
  - reflexivity.
  - cbn [foldl]. rewrite IH. unfold quadtree_fill, kept.
    destruct (decide (k = c)) as [-> | Hkc].
    + rewrite (bool_decide_eq_true_2 (c ∈ c :: cells))
        by (apply elem_of_cons; auto).
      destruct (bool_decide (c ∈ cells)); cbn [andb];
        destruct (truthy min_hash && truthy max_hash);
        try destruct (in_range min_hash max_hash (geohash +:+ c));
        rewrite ?lookup_insert_eq; reflexivity.
    + rewrite (bool_decide_ext (k ∈ c :: cells) (k ∈ cells))
        by (rewrite elem_of_cons; split;
            [intros [?|?]; [contradiction | assumption] | auto]).
      destruct (bool_decide (k ∈ cells) && _); [reflexivity|].
      destruct (truthy min_hash && truthy max_hash);
        try destruct (in_range min_hash max_hash (geohash +:+ c));
        rewrite ?lookup_insert_ne by done; reflexivity.
Qed.

Lemma foldl_rows {A B : Type} (f : A → B → A) (a : A) (rows : list (list B)) :
  foldl (λ acc row, foldl f acc row) a rows = foldl f a (concat rows).
Proof.
  revert a. induction rows as [|row rows IH]; intros a; [reflexivity|].
  cbn [foldl concat]. rewrite foldl_app. apply IH.
Qed.

(** The matrix keeps the shape of [z_order_matrix]: each cell holds its child
    when [quadtree_fill] stored it and the empty string otherwise. *)
Lemma quadtree_split_with_spec (z_order_matrix : list (list string))
    (geohash : string) (min_hash max_hash : option string) :
  quadtree_split_with z_order_matrix geohash min_hash max_hash
  = map (map (λ cell, if kept geohash min_hash max_hash cell
                      then geohash +:+ cell else EmptyString))
        z_order_matrix.
Proof.
  unfold quadtree_split_with. rewrite foldl_rows.
  apply map_ext_in. intros row Hrow. apply map_ext_in. intros cell Hcell.
  rewrite quadtree_fill_lookup.
  rewrite bool_decide_eq_true_2.
  - cbn [andb]. destruct (kept _ _ _ _); reflexivity.
  - apply list_elem_of_In, in_concat. eauto.
Qed.

Lemma quadtree_split_geo_spec (geohash : string)
    (min_hash max_hash : option string) :
  quadtree_split_geo geohash min_hash max_hash
  = map (map (λ cell, if kept geohash min_hash max_hash cell
                      then geohash +:+ cell else EmptyString))
        (z_order_matrix geohash).
Proof.
  unfold quadtree_split_geo, z_order_matrix, quadtree_split_even,
    quadtree_split_odd.
  destruct (_ =? 0); apply quadtree_split_with_spec.
Qed.

(** Both tables list every character of the alphabet once. *)
Lemma z_order_cells (geohash : string) :
  concat (z_order_matrix geohash)
  ≡ₚ map (λ c, String c EmptyString) (list_ascii_of_string base32).
Proof.
  unfold z_order_matrix.
  destruct (_ =? 0); apply (bool_decide_unpack _); vm_compute; exact I.
Qed.

Lemma z_order_shape (geohash : string) :
  let even := Z.of_nat (String.length geohash) mod 2 =? 0 in
  length (z_order_matrix geohash) = (if even then 4 else 8)%nat
  ∧ Forall (λ row : list string, length row = (if even then 8 else 4)%nat)
           (z_order_matrix geohash).
Proof.
  unfold z_order_matrix. destruct (_ =? 0); cbv zeta;
    (split; [reflexivity | repeat constructor]).
Qed.

(** C6 (as the code behaves). [quadtree_split_geo] returns a matrix of 4 rows
    of 8 columns for an even-length geohash and of 8 rows of 4 columns for an
    odd-length one, whatever the bounds.  With no bounds its entries are the
    32 strings [g + c], one for each character [c] of the alphabet, laid out
    as in the Z-order table.  With two non-empty bounds an entry is its child
    string when [min_hash <= child <= max_hash] and the empty string
    otherwise; a bound that is the empty string switches the filter off. *)
Theorem quadtree_split_geo_contract (g : string) :
  let even := Z.of_nat (String.length g) mod 2 =? 0 in
  (∀ min_hash max_hash,
     length (quadtree_split_geo g min_hash max_hash)
     = (if even then 4 else 8)%nat
     ∧ Forall (λ row : list string, length row = (if even then 8 else 4)%nat)
              (quadtree_split_geo g min_hash max_hash))
  ∧ quadtree_split_geo g None None
    = map (map (λ cell, g +:+ cell)) (z_order_matrix g)
  ∧ concat (quadtree_split_geo g None None)
    ≡ₚ map (λ c, snoc g c) (list_ascii_of_string base32)
  ∧ Forall (λ entry, entry ≠ EmptyString)
           (concat (quadtree_split_geo g None None))
  ∧ ∀ lo hi, lo ≠ EmptyString → hi ≠ EmptyString →
      quadtree_split_geo g (Some lo) (Some hi)
      = map (map (λ cell,
                    if String.leb lo (g +:+ cell) && String.leb (g +:+ cell) hi
                    then g +:+ cell else EmptyString))
            (z_order_matrix g).
Proof.
  cbv zeta.
  assert (Hnone : quadtree_split_geo g None None
                  = map (map (λ cell, g +:+ cell)) (z_order_matrix g)).
  { rewrite quadtree_split_geo_spec. reflexivity. }
  assert (Hperm : concat (quadtree_split_geo g None None)
                  ≡ₚ map (λ c, snoc g c) (list_ascii_of_string base32)).
  { rewrite Hnone, <- concat_map.
    rewrite <- (map_map (λ c, String c EmptyString) (λ cell, g +:+ cell)).
    apply Permutation_map, z_order_cells. }
  destruct (z_order_shape g) as [Hrows Hcols]. cbv zeta in Hrows, Hcols.
  split; [|split; [exact Hnone|split; [exact Hperm|split]]].
  - intros min_hash max_hash. rewrite quadtree_split_geo_spec.
    rewrite length_map. split; [exact Hrows|].
    apply Forall_map. eapply Forall_impl; [exact Hcols|].
    intros row Hrow. cbn beta. rewrite length_map. exact Hrow.
  - rewrite Hperm. apply Forall_map, Forall_forall. intros c _. cbn beta.
    intros Hempty. apply (f_equal String.length) in Hempty.
    rewrite length_snoc in Hempty. discriminate Hempty.
  - intros lo hi Hlo Hhi. rewrite quadtree_split_geo_spec.
    unfold kept, in_range. destruct lo; [contradiction|].
    destruct hi; [contradiction|]. reflexivity.
Qed.

Lemma quadtree_split_geo_contract_witness :
  quadtree_split_geo "u1" (Some "u1k") (Some "u1s")
  = [[""; ""; ""; ""; ""; ""; ""; ""];
     [""; ""; ""; ""; "u1s"; ""; ""; ""];
     [""; ""; ""; ""; "u1k"; "u1m"; "u1q"; "u1r"];
     [""; ""; ""; ""; ""; ""; "u1n"; "u1p"]].
Proof.
  rewrite (proj2 (proj2 (proj2 (proj2 (quadtree_split_geo_contract "u1"))))
             "u1k" "u1s" ltac:(discriminate) ltac:(discriminate)).
  vm_compute. reflexivity.
Defined.

(** C6 (as stated) fails: both bounds are supplied, the first entry is the
    child ["b"], and ["b"] does not lie in the range [["", "0"]]. *)
Lemma quadtree_empty_bound_not_filtered :
  ∃ row, quadtree_split_geo "" (Some "") (Some "0") !! 0%nat = Some row
       ∧ row !! 0%nat = Some "b"
       ∧ String.leb "" "b" && String.leb "b" "0" = false.
Proof. eexists. vm_compute. auto. Qed.

(** C10. Range filtering applies only when both bounds are non-empty
    strings.  An empty-string bound counts as no bound: with [min_hash = ""]
    or with [max_hash = ""], whatever the other bound is, and likewise with one
    bound absent, [quadtree_split_geo] returns the fully populated matrix it
    returns without bounds. *)
Theorem quadtree_empty_bound (g : string) (m : option string) :
  quadtree_split_geo g (Some EmptyString) m = quadtree_split_geo g None None
  ∧ quadtree_split_geo g m (Some EmptyString) = quadtree_split_geo g None None
  ∧ quadtree_split_geo g None m = quadtree_split_geo g None None
  ∧ quadtree_split_geo g m None = quadtree_split_geo g None None
  ∧ quadtree_split_geo g None None
    = map (map (λ cell, g +:+ cell)) (z_order_matrix g).
Proof.
  rewrite !quadtree_split_geo_spec. unfold kept.
  destruct m as [[|c m]|]; auto 10.
Qed.

(** ** Coordinates *)

Section TraceFacts.
Import Codec Trace.
Context {F : Type} `{FloatOps F}.

Lemma encode_loop_unfold (fuel : nat) (lat lon : F) (p : Z)
    (st : enc_state F) :
  encode_loop (S fuel) lat lon p st
  = if Z.of_nat (String.length (geohash st)) <? p
    then st' ← encode_step lat lon st; encode_loop fuel lat lon p st'
    else Ok st.
Proof. reflexivity. Qed.

Lemma encode_step_low (lat lon : F) (st : enc_state F) :
  bit st < 4 → encode_step lat lon st = Ok (advance lat lon st).
Proof.
  intros Hbit%Z.ltb_lt. unfold encode_step, advance, choice, decode_bit,
    narrow, dec_of.
  destruct st as [lat_iv lon_iv gh b c [|]];
    cbn [bit ch geohash even lat_interval lon_interval
         d_lat_interval d_lon_interval d_even set_bit] in *;
    destruct (fgt _ _);
    cbn [bit ch geohash even lat_interval lon_interval set_bit];
    rewrite Hbit; reflexivity.
Qed.

Lemma encode_step_high (lat lon : F) (st : enc_state F) :
  ¬ bit st < 4 →
  encode_step lat lon st
  = (c ← str_index base32 (ch (advance lat lon st));
     Ok (complete lat lon st c)).
Proof.
  intros Hbit%Z.ltb_nlt. unfold encode_step, complete, advance, choice,
    decode_bit, narrow, dec_of.
  destruct st as [lat_iv lon_iv gh b c [|]];
    cbn [bit ch geohash even lat_interval lon_interval
         d_lat_interval d_lon_interval d_even set_bit] in *;
    destruct (fgt _ _);
    cbn [bit ch geohash even lat_interval lon_interval set_bit];
    rewrite Hbit; reflexivity.
Qed.

Lemma decode_mask_bit (cd mask : Z) (d : dec_state F) :
  decode_mask cd mask d = decode_bit (negb (Z.land cd mask =? 0)) d.
Proof.
  unfold decode_mask, decode_bit, narrow.
  destruct (d_even d), (negb _); reflexivity.
Qed.

(** Five accumulated bits name a character of the alphabet, whose index
    gives the five bits back under the masks [16, 8, 4, 2, 1]. *)
Lemma five_bits (b0 b1 b2 b3 b4 : bool) :
  let ch5 :=
    set_bit b4 (set_bit b3 (set_bit b2 (set_bit b1 (set_bit b0 0 0) 1) 2) 3) 4
  in
  ∃ c, str_index base32 ch5 = Ok c
     ∧ char_in c base32 = true
     ∧ dict_get base32_map c = Ok ch5
     ∧ negb (Z.land ch5 16 =? 0) = b0
     ∧ negb (Z.land ch5 8 =? 0) = b1
     ∧ negb (Z.land ch5 4 =? 0) = b2
     ∧ negb (Z.land ch5 2 =? 0) = b3
     ∧ negb (Z.land ch5 1 =? 0) = b4.
Proof.
  destruct b0, b1, b2, b3, b4; eexists;
    (split; [vm_compute; reflexivity|]); vm_compute; auto 10.
Qed.

Lemma encode_block (lat lon : F) (st : enc_state F) :
  bit st = 0 → ch st = 0 →
  ∃ c st',
    encode_steps 5 lat lon st = Ok st'
    ∧ bit st' = 0 ∧ ch st' = 0
    ∧ geohash st' = snoc (geohash st) c
    ∧ char_in c base32 = true
    ∧ decode_char c (dec_of st) = Ok (dec_of st')
    ∧ ∀ p fuel, Z.of_nat (String.length (geohash st)) < p →
        encode_loop (5 + fuel) lat lon p st = encode_loop fuel lat lon p st'.
Proof.
  intros Hbit Hch.
  set (s1 := advance lat lon st).
  set (s2 := advance lat lon s1).
  set (s3 := advance lat lon s2).
  set (s4 := advance lat lon s3).
  assert (H1 : encode_step lat lon st = Ok s1)
    by (apply encode_step_low; lia).
  assert (H2 : encode_step lat lon s1 = Ok s2)
    by (apply encode_step_low; cbn [s1 advance bit]; lia).
  assert (H3 : encode_step lat lon s2 = Ok s3)
    by (apply encode_step_low; cbn [s2 s1 advance bit]; lia).
  assert (H4 : encode_step lat lon s3 = Ok s4)
    by (apply encode_step_low; cbn [s3 s2 s1 advance bit]; lia).
  assert (H5 : encode_step lat lon s4
               = (c ← str_index base32 (ch (advance lat lon s4));
                  Ok (complete lat lon s4 c)))
    by (apply encode_step_high; cbn [s4 s3 s2 s1 advance bit]; lia).
  destruct (five_bits (choice lat lon st) (choice lat lon s1)
              (choice lat lon s2) (choice lat lon s3) (choice lat lon s4))
    as (c & Hc & Hvalid & Hcd & Hb0 & Hb1 & Hb2 & Hb3 & Hb4).
  assert (Hch5 : ch (advance lat lon s4)
    = set_bit (choice lat lon s4) (set_bit (choice lat lon s3)
        (set_bit (choice lat lon s2) (set_bit (choice lat lon s1)
           (set_bit (choice lat lon st) 0 0) 1) 2) 3) 4).
  { cbn [s4 s3 s2 s1 advance bit ch]. rewrite Hbit, Hch. reflexivity. }
  rewrite Hch5, Hc, bind_Ok in H5.
  exists c, (complete lat lon s4 c).
  split; [cbn [encode_steps]; rewrite H1, bind_Ok, H2, bind_Ok, H3, bind_Ok,
                                H4, bind_Ok, H5; reflexivity|].
  do 4 (split; [reflexivity || assumption|]). split.
  - unfold decode_char. rewrite Hcd, bind_Ok. cbn [foldl].
    rewrite !decode_mask_bit, Hb0, Hb1, Hb2, Hb3, Hb4. reflexivity.
  - intros p fuel Hlt%Z.ltb_lt. cbn [Nat.add].
    assert (Hg1 : geohash s1 = geohash st) by reflexivity.
    assert (Hg2 : geohash s2 = geohash st) by reflexivity.
    assert (Hg3 : geohash s3 = geohash st) by reflexivity.
    assert (Hg4 : geohash s4 = geohash st) by reflexivity.
    rewrite encode_loop_unfold, Hlt, H1, bind_Ok.
    rewrite encode_loop_unfold, Hg1, Hlt, H2, bind_Ok.
    rewrite encode_loop_unfold, Hg2, Hlt, H3, bind_Ok.
    rewrite encode_loop_unfold, Hg3, Hlt, H4, bind_Ok.
    rewrite encode_loop_unfold, Hg4, Hlt, H5, bind_Ok.
    reflexivity.
Qed.

Lemma encode_steps_add (n m : nat) (lat lon : F) (st : enc_state F) :
  encode_steps (n + m) lat lon st
  = (st' ← encode_steps n lat lon st; encode_steps m lat lon st').
Proof.
  revert st. induction n as [|n IH]; intros st; [reflexivity|].
  cbn [Nat.add encode_steps].
  destruct (encode_step lat lon st) as [st'| |]; [|reflexivity..].
  rewrite !bind_Ok. apply IH.
Qed.

Lemma decode_loop_snoc (s : string) (c : ascii) (d : dec_state F) :
  decode_loop (snoc s c) d = (d' ← decode_loop s d; decode_char c d').
Proof.
  revert d. induction s as [|a s IH]; intros d.
  - change (snoc EmptyString c) with (String c EmptyString).
    cbn [decode_loop]. rewrite bind_Ok.
    destruct (decode_char c d); reflexivity.
  - rewrite append_cons. cbn [decode_loop].
    destruct (decode_char a d) as [d'| |]; [|reflexivity..].
    rewrite !bind_Ok. apply IH.
Qed.

(** The state after [k] characters: it exists, whatever the coordinates,
    and [decode_geohash]'s loop reaches the same intervals on its
    geohash. *)
Lemma encode_chars (lat lon : F) (k : nat) :
  ∃ st, encode_steps (5 * k) lat lon enc_init = Ok st
      ∧ bit st = 0 ∧ ch st = 0
      ∧ String.length (geohash st) = k
      ∧ valid_geohash (geohash st) = true
      ∧ decode_loop (geohash st) dec_init = Ok (dec_of st).
Proof.
  induction k as [|k (st & Hst & Hbit & Hch & Hlen & Hvalid & Hdec)].
  - exists enc_init. repeat split; reflexivity.
  - destruct (encode_block lat lon st Hbit Hch)
      as (c & st' & Hst' & Hbit' & Hch' & Hg & Hc & Hdc & _).
    exists st'. replace (5 * S k)%nat with (5 * k + 5)%nat by lia.
    rewrite encode_steps_add, Hst, bind_Ok, Hg.
    split; [exact Hst'|]. do 2 (split; [assumption|]).
    split; [rewrite length_snoc, Hlen; reflexivity|].
    split; [rewrite valid_geohash_snoc, Hvalid, Hc; reflexivity|].
    rewrite decode_loop_snoc, Hdec, bind_Ok. exact Hdc.
Qed.

(** The [while] loop runs the body five times for each character and
    stops. *)
Lemma encode_loop_chars (lat lon : F) (p : Z) (j extra : nat) :
  ∀ st st', bit st = 0 → ch st = 0 →
    Z.of_nat (String.length (geohash st)) + Z.of_nat j = Z.max p
      (Z.of_nat (String.length (geohash st))) →
    encode_steps (5 * j) lat lon st = Ok st' →
    encode_loop (5 * j + extra) lat lon p st = Ok st'.
Proof.
  induction j as [|j IH]; intros st st' Hbit Hch Hlen Hsteps.
  - change (5 * 0)%nat with 0%nat in *.
    cbn [encode_steps Nat.add] in *.
    assert (Hge : (Z.of_nat (String.length (geohash st)) <? p) = false)
      by (apply Z.ltb_ge; lia).
    destruct extra; cbn [encode_loop]; rewrite Hge; exact Hsteps.
  - replace (5 * S j)%nat with (5 + 5 * j)%nat in * by lia.
    destruct (encode_block lat lon st Hbit Hch)
      as (c & st1 & Hst1 & Hbit1 & Hch1 & Hg & _ & _ & Hloop).
    rewrite encode_steps_add, Hst1, bind_Ok in Hsteps.
    rewrite <- Nat.add_assoc, Hloop by lia. apply IH; try assumption.
    rewrite Hg, length_snoc. lia.
Qed.

(** [encode_geohash] returns: the loop ends within [5 * precision]
    iterations, and more fuel changes nothing. *)
Lemma encode_run_steps (lat lon : F) (p : Z) :
  ∃ st, encode_run lat lon p = Ok st
      ∧ encode_steps (5 * Z.to_nat p) lat lon enc_init = Ok st
      ∧ String.length (geohash st) = Z.to_nat p
      ∧ valid_geohash (geohash st) = true
      ∧ decode_loop (geohash st) dec_init = Ok (dec_of st).
Proof.
  destruct (encode_chars lat lon (Z.to_nat p))
    as (st & Hst & Hbit & Hch & Hlen & Hvalid & Hdec).
  exists st. split; [|auto].
  unfold encode_run. rewrite <- (Nat.add_0_r (5 * Z.to_nat p)).
  apply encode_loop_chars; try reflexivity; [|exact Hst].
  cbn [enc_init geohash String.length]. lia.
Qed.

Lemma encode_fuel_enough (lat lon : F) (p : Z) (fuel : nat) :
  (5 * Z.to_nat p <= fuel)%nat →
  encode_loop fuel lat lon p enc_init = encode_run lat lon p.
Proof.
  intros Hfuel.
  destruct (encode_run_steps lat lon p) as (st & -> & Hst & _).
  replace fuel with (5 * Z.to_nat p + (fuel - 5 * Z.to_nat p))%nat by lia.
  apply encode_loop_chars; try reflexivity; [|exact Hst].
  cbn [enc_init geohash String.length]. lia.
Qed.

(** More characters extend the geohash at its end. *)
Lemma encode_chars_extend (lat lon : F) (k j : nat) :
  ∃ st st' t,
    encode_steps (5 * k) lat lon enc_init = Ok st
    ∧ encode_steps (5 * (k + j)) lat lon enc_init = Ok st'
    ∧ bit st' = 0 ∧ ch st' = 0
    ∧ geohash st' = geohash st +:+ t.
Proof.
  induction j as [|j (st & st' & t & Hst & Hst' & Hbit & Hch & Hg)].
  - destruct (encode_chars lat lon k) as (st & Hst & Hbit & Hch & _).
    exists st, st, EmptyString. rewrite Nat.add_0_r, append_empty_r. auto.
  - destruct (encode_block lat lon st' Hbit Hch)
      as (c & st'' & Hst'' & Hbit' & Hch' & Hg' & _).
    exists st, st'', (snoc t c).
    replace (5 * (k + S j))%nat with (5 * (k + j) + 5)%nat by lia.
    rewrite encode_steps_add, Hst', bind_Ok, Hg', Hg.
    do 4 (split; [assumption|]).
    clear. induction (geohash st) as [|a s IH]; [reflexivity|].
    rewrite !append_cons, IH. reflexivity.
Qed.

Lemma prefix_app (s t : string) : String.prefix s (s +:+ t) = true.
Proof.
  induction s as [|a s IH]; [destruct t; reflexivity|].
  rewrite append_cons. cbn [String.prefix].
  destruct (ascii_dec a a); [exact IH | contradiction].
Qed.

Lemma encode_geohash_steps (lat lon : F) (p : Z) (st : enc_state F) :
  encode_steps (5 * Z.to_nat p) lat lon enc_init = Ok st →
  encode_geohash lat lon p = Ok (geohash st).
Proof.
  intros Hst. unfold encode_geohash.
  destruct (encode_run_steps lat lon p) as (st' & -> & Hst' & _).
  rewrite Hst in Hst'. by injection Hst' as <-.
Qed.

End TraceFacts.

(** C5. Prefix monotonicity: for all coordinates and all precisions
    [p1 < p2], [encode_geohash] returns at both precisions, and the geohash at
    [p1] is a prefix of the geohash at [p2].  This holds for every arithmetic
    the comparisons run on, binary64 included. *)
Theorem encode_prefix {F : Type} `{FloatOps F} (lat lon : F) (p1 p2 : Z) :
  p1 < p2 →
  ∃ g1 g2, Codec.encode_geohash lat lon p1 = Ok g1
         ∧ Codec.encode_geohash lat lon p2 = Ok g2
         ∧ String.prefix g1 g2 = true.
Proof.
  intros Hlt.
  destruct (encode_chars_extend lat lon (Z.to_nat p1)
              (Z.to_nat p2 - Z.to_nat p1))
    as (st & st' & t & Hst & Hst' & _ & _ & Hg).
  replace (Z.to_nat p1 + (Z.to_nat p2 - Z.to_nat p1))%nat
    with (Z.to_nat p2) in Hst' by lia.
  exists (Codec.geohash st), (Codec.geohash st').
  rewrite (encode_geohash_steps lat lon p1 st Hst).
  rewrite (encode_geohash_steps lat lon p2 st' Hst').
  rewrite Hg, prefix_app. auto.
Qed.

Lemma encode_prefix_witness :
  ∃ g1 g2, Codec.encode_geohash lat64 lon64 3 = Ok g1
         ∧ Codec.encode_geohash lat64 lon64 6 = Ok g2
         ∧ String.prefix g1 g2 = true.
Proof. exact (encode_prefix lat64 lon64 3 6 ltac:(lia)). Defined.

Example float_val_lat64 :
  float_val lat64 = (8113390947320023 * 2 ^ (-47))%Q.
Proof. vm_compute. reflexivity. Qed.

(** *** The round trip and the arithmetic *)

Section RoundTripFacts.
Import Codec Trace RoundTrip.
Context {F : Type} `{FloatOps F} `{FloatVal F}.

Lemma encode_step_intervals (lat lon : F) (st st' : enc_state F) :
  encode_step lat lon st = Ok st' →
  lat_interval st' = lat_interval (advance lat lon st)
  ∧ lon_interval st' = lon_interval (advance lat lon st).
Proof.
  destruct (decide (bit st < 4)) as [Hlow | Hhigh].
  - rewrite encode_step_low by exact Hlow. by intros [= <-].
  - rewrite encode_step_high by exact Hhigh.
    intros (c & _ & [= <-])%bind_Ok_inv. done.
Qed.

Lemma enclosed_step (lat lon : F) (st st' : enc_state F) :
  enclosed lat lon st → step_faithful lat lon st = true →
  encode_step lat lon st = Ok st' → enclosed lat lon st'.
Proof.
  intros [Hlat Hlon] Hstep [Hlat' Hlon']%encode_step_intervals.
  unfold enclosed, inside in *. rewrite Hlat', Hlon'. clear Hlat' Hlon'.
  unfold step_faithful, exact_gt in Hstep.
  unfold advance, decode_bit, choice, narrow, dec_of.
  cbn [lat_interval lon_interval d_lat_interval d_lon_interval d_even].
  destruct (even st); [split; [exact Hlat|] | split; [|exact Hlon]];
    apply eqb_prop in Hstep; rewrite Hstep;
    destruct (Qle_bool _ _) eqn:Hle; cbn [negb fst snd];
    (apply Qle_bool_iff in Hle || (apply not_true_iff_false in Hle;
       rewrite Qle_bool_iff in Hle; apply Qnot_le_lt, Qlt_le_weak in Hle));
    tauto.
Qed.

Lemma exact_mid_within (iv : F * F) (x : F) :
  exact_mid iv = true → inside iv x →
  inside iv (midpoint iv)
  ∧ (Qabs (fval (midpoint iv) - fval x) <= half_width iv)%Q.
Proof.
  unfold exact_mid, inside, half_width.
  intros Hmid%Qeq_bool_iff [Hlo Hhi].
  unfold Qdiv in *. change (/ 2)%Q with (1 # 2)%Q in *.
  split; [rewrite Hmid; split; lra|].
  apply Qabs_Qle_condition. rewrite Hmid. split; lra.
Qed.

End RoundTripFacts.

(** *** Rounding in binary64 *)

(** Python's floats are binary64: a sum and a quotient are the exact
    result rounded to nearest, ties to even.  This part derives from
    [SpecFloat]'s definition of that rounding the one fact the codec needs:
    a rounded result lies between any two numbers of the format that the
    exact result lies between. *)

(** Powers of two. *)
Section Pow2.
Import B64.

Lemma pow2_pos (e : Z) : (0 < 2 ^ e)%Q.
Proof. apply Qpower_0_lt. reflexivity. Qed.

Lemma pow2_add (a b : Z) : (2 ^ (a + b) == 2 ^ a * 2 ^ b)%Q.
Proof. apply Qpower_plus. discriminate. Qed.

Lemma pow2_Z (n : Z) : 0 <= n → (2 ^ n == inject_Z (2 ^ n))%Q.
Proof.
  intros Hn. change 2%Q with (inject_Z 2). symmetry.
  apply Zpower_Qpower. exact Hn.
Qed.

Lemma pow2_ge_1 (n : Z) : 0 <= n → (1 <= 2 ^ n)%Q.
Proof.
  intros Hn. rewrite (pow2_Z n Hn). change 1%Q with (inject_Z 1).
  rewrite <- Zle_Qle. pose proof (Z.pow_pos_nonneg 2 n). lia.
Qed.

Lemma pow2_le (a b : Z) : a <= b → (2 ^ a <= 2 ^ b)%Q.
Proof. intros Hab. apply Qpower_le_compat_l; [exact Hab | discriminate]. Qed.

Lemma pow2_lt (a b : Z) : a < b → (2 ^ a < 2 ^ b)%Q.
Proof. intros Hab. apply Qpower_lt_compat_l; [exact Hab | reflexivity]. Qed.

Lemma F2Q_shift (m e n : Z) : 0 <= n → (F2Q (m * 2 ^ n) e == F2Q m (e + n))%Q.
Proof.
  intros Hn. unfold F2Q. rewrite inject_Z_mult, <- (pow2_Z n Hn).
  rewrite (Z.add_comm e n), pow2_add. ring.
Qed.

Lemma F2Q_le (m m' e : Z) : m <= m' ↔ (F2Q m e <= F2Q m' e)%Q.
Proof.
  unfold F2Q. pose proof (pow2_pos e). rewrite Zle_Qle. split; intros; nra.
Qed.

Lemma F2Q_lt (m m' e : Z) : m < m' ↔ (F2Q m e < F2Q m' e)%Q.
Proof.
  unfold F2Q. pose proof (pow2_pos e). rewrite Zlt_Qlt. split; intros; nra.
Qed.

Lemma F2Q_eq (m m' e : Z) : m = m' ↔ (F2Q m e == F2Q m' e)%Q.
Proof.
  split; [intros ->; reflexivity|]. intros Heq.
  apply Z.le_antisymm; apply (F2Q_le _ _ e); rewrite Heq; apply Qle_refl.
Qed.

Lemma F2Q_0 (e : Z) : (F2Q 0 e == 0)%Q.
Proof. unfold F2Q. ring. Qed.

Lemma F2Q_opp (m e : Z) : (F2Q (- m) e == - F2Q m e)%Q.
Proof. unfold F2Q. rewrite inject_Z_opp. ring. Qed.

Lemma F2Q_plus (m m' e : Z) : (F2Q (m + m') e == F2Q m e + F2Q m' e)%Q.
Proof. unfold F2Q. rewrite inject_Z_plus. ring. Qed.

Lemma F2Q_pow2 (k e : Z) : 0 <= k → (F2Q (2 ^ k) e == 2 ^ (k + e))%Q.
Proof.
  intros Hk. unfold F2Q. rewrite <- (pow2_Z k Hk), pow2_add. reflexivity.
Qed.

End Pow2.

(** The number of binary digits of a mantissa. *)
Section Digits.
Import B64.

Lemma digits2_size (p : positive) : digits2_pos p = Pos.size p.
Proof. induction p as [p IH|p IH|]; cbn; rewrite ?IH; reflexivity. Qed.

Lemma Zdigits2_bounds (m : Z) :
  0 < m → 2 ^ (Zdigits2 m - 1) <= m < 2 ^ Zdigits2 m.
Proof.
  destruct m as [|p|p]; try lia. intros _. cbn [Zdigits2].
  rewrite digits2_size.
  pose proof (Pos.size_gt p) as Hgt. pose proof (Pos.size_le p) as Hle.
  apply Pos2Z.pos_lt_pos in Hgt. apply Pos2Z.pos_le_pos in Hle.
  rewrite Pos2Z.inj_pow in Hgt, Hle.
  change (Z.pos p~0) with (2 * Z.pos p) in Hle.
  split; [|exact Hgt].
  assert (E : 2 ^ Z.pos (Pos.size p) = 2 * 2 ^ (Z.pos (Pos.size p) - 1)).
  { rewrite <- Z.pow_succ_r by lia. f_equal. lia. }
  lia.
Qed.

Lemma Zdigits2_nonneg (m : Z) : 0 <= Zdigits2 m.
Proof. destruct m; cbn; lia. Qed.

Lemma Zdigits2_pos (m : Z) : 0 < m → 0 < Zdigits2 m.
Proof. destruct m; cbn; lia. Qed.

Lemma pow2_mono (a b : Z) : 0 <= a <= b → 2 ^ a <= 2 ^ b.
Proof. intros H. apply Z.pow_le_mono_r; lia. Qed.

Lemma pow2_mono_lt (a b : Z) : 0 <= a < b → 2 ^ a < 2 ^ b.
Proof. intros H. apply Z.pow_lt_mono_r; lia. Qed.

Lemma Zdigits2_unique (m k : Z) :
  0 < m → 2 ^ (k - 1) <= m < 2 ^ k → Zdigits2 m = k.
Proof.
  intros Hm [Hlo Hhi]. pose proof (Zdigits2_bounds m Hm) as [Dlo Dhi].
  pose proof (Zdigits2_pos m Hm) as Hd.
  assert (Hk : 0 < k).
  { destruct (Z.le_gt_cases k 0) as [Hk|]; [|assumption].
    assert (2 ^ k <= 1).
    { destruct (Z.eq_dec k 0) as [-> |]; [cbn; lia|].
      rewrite Z.pow_neg_r by lia. lia. }
    lia. }
  destruct (Z.lt_trichotomy (Zdigits2 m) k) as [Hlt | [Heq | Hgt]];
    [|exact Heq|].
  - pose proof (pow2_mono (Zdigits2 m) (k - 1) ltac:(lia)). lia.
  - pose proof (pow2_mono k (Zdigits2 m - 1) ltac:(lia)). lia.
Qed.

Lemma Zdigits2_mul_pow2 (m k : Z) :
  0 < m → 0 <= k → Zdigits2 (m * 2 ^ k) = Zdigits2 m + k.
Proof.
  intros Hm Hk. pose proof (Zdigits2_bounds m Hm) as [Dlo Dhi].
  pose proof (Zdigits2_pos m Hm) as Hd.
  pose proof (Z.pow_pos_nonneg 2 k ltac:(lia) Hk) as Hp.
  apply Zdigits2_unique; [nia|].
  replace (Zdigits2 m + k - 1) with (Zdigits2 m - 1 + k) by lia.
  rewrite !Z.pow_add_r by lia. nia.
Qed.

Lemma Zdigits2_div_pow2 (m n : Z) :
  0 < m → 0 <= n < Zdigits2 m → Zdigits2 (m / 2 ^ n) = Zdigits2 m - n.
Proof.
  intros Hm Hn. pose proof (Zdigits2_bounds m Hm) as [Dlo Dhi].
  pose proof (Z.pow_pos_nonneg 2 n ltac:(lia) ltac:(lia)) as Hp.
  assert (Hsplit1 : 2 ^ (Zdigits2 m - 1) = 2 ^ (Zdigits2 m - n - 1) * 2 ^ n).
  { rewrite <- Z.pow_add_r by lia. f_equal. lia. }
  assert (Hsplit2 : 2 ^ Zdigits2 m = 2 ^ (Zdigits2 m - n) * 2 ^ n).
  { rewrite <- Z.pow_add_r by lia. f_equal. lia. }
  assert (Hlo : 2 ^ (Zdigits2 m - n - 1) <= m / 2 ^ n).
  { apply Z.div_le_lower_bound; lia. }
  assert (Hhi : m / 2 ^ n < 2 ^ (Zdigits2 m - n)).
  { apply Z.div_lt_upper_bound; lia. }
  pose proof (Z.pow_pos_nonneg 2 (Zdigits2 m - n - 1) ltac:(lia) ltac:(lia)).
  apply Zdigits2_unique; [lia|]. split; [exact Hlo | exact Hhi].
Qed.

Lemma Zdigits2_small (m n : Z) :
  0 <= m → Zdigits2 m <= n → m / 2 ^ n = 0.
Proof.
  intros Hm Hn. destruct (Z.eq_dec m 0) as [-> | Hne].
  { apply Z.div_0_l. pose proof (Z.pow_pos_nonneg 2 n). 
    pose proof (Zdigits2_nonneg 0). lia. }
  pose proof (Zdigits2_bounds m ltac:(lia)) as [_ Dhi].
  pose proof (Zdigits2_pos m ltac:(lia)).
  pose proof (pow2_mono (Zdigits2 m) n ltac:(lia)).
  apply Z.div_small. lia.
Qed.

Lemma Zdigits2_succ (m : Z) :
  0 < m →
  Zdigits2 (m + 1) = Zdigits2 m
  ∨ (m + 1 = 2 ^ Zdigits2 m ∧ Zdigits2 (m + 1) = Zdigits2 m + 1).
Proof.
  intros Hm. pose proof (Zdigits2_bounds m Hm) as [Dlo Dhi].
  pose proof (Zdigits2_pos m Hm) as Hd.
  destruct (Z.eq_dec (m + 1) (2 ^ Zdigits2 m)) as [Heq | Hne].
  - right. split; [exact Heq|]. apply Zdigits2_unique; [lia|].
    replace (Zdigits2 m + 1 - 1) with (Zdigits2 m) by lia.
    rewrite Z.pow_add_r by lia. change (2 ^ 1) with 2. lia.
  - left. apply Zdigits2_unique; lia.
Qed.

Lemma F2Q_digits (m e : Z) :
  0 < m →
  (2 ^ (Zdigits2 m - 1 + e) <= F2Q m e)%Q ∧ (F2Q m e < 2 ^ (Zdigits2 m + e))%Q.
Proof.
  intros Hm. pose proof (Zdigits2_bounds m Hm) as [Dlo Dhi].
  pose proof (Zdigits2_pos m Hm) as Hd.
  rewrite <- !F2Q_pow2 by lia. split; [apply F2Q_le | apply F2Q_lt]; lia.
Qed.

Lemma fexp_mono (a b : Z) : a <= b → fexp a <= fexp b.
Proof. unfold SpecFloat.fexp. lia. Qed.

Lemma fexp_ge_emin (a : Z) : emin <= fexp a.
Proof. unfold SpecFloat.fexp. lia. Qed.

Lemma fexp_eq (a : Z) : fexp a = Z.max (a - 53) (-1074).
Proof. reflexivity. Qed.

End Digits.

(** Shifting a mantissa to the right. *)
Section Shr.
Import B64.

Lemma shr_1_spec (mrs : shr_record) :
  0 <= shr_m mrs →
  shr_m (shr_1 mrs) = shr_m mrs / 2
  ∧ (loc_of_shr_record (shr_1 mrs) = loc_Exact
     ↔ loc_of_shr_record mrs = loc_Exact ∧ shr_m mrs mod 2 = 0).
Proof.
  destruct mrs as [m r s]. cbn [shr_m]. intros Hm.
  destruct m as [|[p|p|]|]; try lia; destruct r, s;
    cbn [shr_1 orb shr_m loc_of_shr_record];
    (split; [Z.div_mod_to_equations; lia|]);
    (split;
     [intros H;
      first [discriminate H
            | split; [reflexivity | Z.div_mod_to_equations; lia]]
     |intros [Hl Hmod];
      first [discriminate Hl | reflexivity
            | exfalso; revert Hmod; Z.div_mod_to_equations; lia]]).
Qed.

Lemma iter_pos_nat {A : Type} (f : A → A) (p : positive) (x : A) :
  SpecFloat.iter_pos f p x = @Nat.iter (Pos.to_nat p) A f x.
Proof.
  revert x. induction p as [p IH|p IH|]; intros x; cbn [SpecFloat.iter_pos].
  - rewrite !IH, Pos2Nat.inj_xI.
    replace (S (2 * Pos.to_nat p)) with (Pos.to_nat p + S (Pos.to_nat p))%nat
      by lia.
    rewrite Nat.iter_add, Nat.iter_succ_r. reflexivity.
  - rewrite !IH, Pos2Nat.inj_xO.
    replace (2 * Pos.to_nat p)%nat with (Pos.to_nat p + Pos.to_nat p)%nat
      by lia.
    rewrite Nat.iter_add. reflexivity.
  - reflexivity.
Qed.

Lemma mod_pow2_succ (m k : Z) :
  0 <= m → 0 <= k →
  m mod 2 ^ (k + 1) = 0 ↔ m mod 2 ^ k = 0 ∧ (m / 2 ^ k) mod 2 = 0.
Proof.
  intros Hm Hk. pose proof (Z.pow_pos_nonneg 2 k ltac:(lia) Hk) as Hp.
  rewrite Z.pow_add_r by lia. change (2 ^ 1) with 2.
  rewrite Z.rem_mul_r by lia.
  pose proof (Z.mod_pos_bound m (2 ^ k) Hp).
  pose proof (Z.mod_pos_bound (m / 2 ^ k) 2 ltac:(lia)).
  split; [nia | intros [-> ->]; lia].
Qed.

Lemma iter_shr_spec (n : nat) (mrs : shr_record) :
  0 <= shr_m mrs →
  shr_m (@Nat.iter n _ shr_1 mrs) = shr_m mrs / 2 ^ Z.of_nat n
  ∧ (loc_of_shr_record (@Nat.iter n _ shr_1 mrs) = loc_Exact
     ↔ loc_of_shr_record mrs = loc_Exact ∧ shr_m mrs mod 2 ^ Z.of_nat n = 0).
Proof.
  intros Hm. induction n as [|n [IHm IHl]].
  - change (@Nat.iter 0 _ shr_1 mrs) with mrs. change (2 ^ Z.of_nat 0) with 1.
    rewrite Z.div_1_r, Z.mod_1_r. tauto.
  - change (@Nat.iter (S n) _ shr_1 mrs)
      with (shr_1 (@Nat.iter n _ shr_1 mrs)).
    pose proof (Z.pow_pos_nonneg 2 (Z.of_nat n) ltac:(lia) ltac:(lia)) as Hp.
    assert (Hpos : 0 <= shr_m (@Nat.iter n _ shr_1 mrs)).
    { rewrite IHm. apply Z.div_pos; lia. }
    destruct (shr_1_spec _ Hpos) as [Sm Sl].
    rewrite Nat2Z.inj_succ, <- Z.add_1_r. split.
    + rewrite Sm, IHm, Z.pow_add_r by lia. change (2 ^ 1) with 2.
      rewrite Z.div_div by lia. reflexivity.
    + rewrite Sl, IHl, IHm, (mod_pow2_succ _ _ Hm) by lia. tauto.
Qed.

(** [shr] drops [n] bits: the mantissa is divided, and the location is exact
    when it was and the bits dropped are zero. *)
Lemma shr_spec (mrs : shr_record) (e n : Z) :
  0 <= shr_m mrs →
  ∃ mrs', shr mrs e n = (mrs', e + Z.max n 0)
        ∧ shr_m mrs' = shr_m mrs / 2 ^ Z.max n 0
        ∧ (loc_of_shr_record mrs' = loc_Exact
           ↔ loc_of_shr_record mrs = loc_Exact
             ∧ shr_m mrs mod 2 ^ Z.max n 0 = 0).
Proof.
  intros Hm. destruct n as [|p|p]; cbn [shr].
  - exists mrs. rewrite Z.add_0_r. change (2 ^ Z.max 0 0) with 1.
    rewrite Z.div_1_r, Z.mod_1_r. tauto.
  - exists (SpecFloat.iter_pos shr_1 p mrs). rewrite Z.max_l by lia.
    split; [reflexivity|]. rewrite iter_pos_nat.
    rewrite <- (positive_nat_Z p). apply iter_shr_spec, Hm.
  - exists mrs. rewrite Z.max_r by lia. rewrite Z.add_0_r.
    change (2 ^ 0) with 1. rewrite Z.div_1_r, Z.mod_1_r. tauto.
Qed.

Lemma shr_record_of_loc_spec (m : Z) (l : location) :
  shr_m (shr_record_of_loc m l) = m
  ∧ loc_of_shr_record (shr_record_of_loc m l) = l.
Proof. destruct l as [|[| |]]; split; reflexivity. Qed.

Lemma bracket_shift (y : Q) (m e n : Z) (l l' : location) :
  0 <= m → 0 <= n →
  bracket y m e l →
  (l' = loc_Exact ↔ l = loc_Exact ∧ m mod 2 ^ n = 0) →
  bracket y (m / 2 ^ n) (e + n) l'.
Proof.
  intros Hm Hn (Hlo & Hhi & Hex) Hl'.
  pose proof (Z.pow_pos_nonneg 2 n ltac:(lia) Hn) as Hp.
  pose proof (Z.div_mod m (2 ^ n) ltac:(lia)) as Hdiv.
  pose proof (Z.mod_pos_bound m (2 ^ n) Hp) as Hmod.
  set (q := m / 2 ^ n) in *. set (r := m mod 2 ^ n) in *.
  assert (Hq : (F2Q q (e + n) == F2Q (q * 2 ^ n) e)%Q)
    by (symmetry; apply F2Q_shift, Hn).
  assert (Hq1 : (F2Q (q + 1) (e + n) == F2Q ((q + 1) * 2 ^ n) e)%Q)
    by (symmetry; apply F2Q_shift, Hn).
  assert (Hle : (F2Q (q * 2 ^ n) e <= F2Q m e)%Q) by (apply F2Q_le; lia).
  assert (Hle1 : (F2Q (m + 1) e <= F2Q ((q + 1) * 2 ^ n) e)%Q)
    by (apply F2Q_le; lia).
  split; [rewrite Hq; lra|]. split; [rewrite Hq1; lra|].
  rewrite Hl', Hex, Hq. split.
  - intros [Hy Hr]. rewrite Hy. apply F2Q_eq. lia.
  - intros Hy. assert (Hmy : (F2Q m e == y)%Q) by lra.
    split; [symmetry; exact Hmy|].
    rewrite Hy in Hmy. apply F2Q_eq in Hmy. lia.
Qed.

End Shr.

(** The exponent of the format, and rounding after the shift. *)
Section Round.
Import B64.

Lemma fexp_succ (a : Z) : fexp (a + 1) = fexp a ∨ fexp (a + 1) = fexp a + 1.
Proof. rewrite !fexp_eq. lia. Qed.

Lemma fexp_le (a : Z) : a - 53 <= fexp a.
Proof. rewrite fexp_eq. lia. Qed.

Lemma emin_eq : emin = -1074.
Proof. reflexivity. Qed.

Lemma round_nearest_even_cases (m : Z) (l : location) :
  round_nearest_even m l = m
  ∨ (round_nearest_even m l = m + 1 ∧ l ≠ loc_Exact).
Proof.
  destruct l as [|[| |]]; cbn [round_nearest_even];
    try destruct (Z.even m);
    first [left; reflexivity | right; split; [reflexivity | discriminate]].
Qed.

(** The first shift of [binary_round_aux]: down to the exponent of the
    format. *)
Lemma shr_fexp_first (mx ex : Z) (lx : location) (y : Q) :
  0 <= mx → ex <= fexp (Zdigits2 mx + ex) → bracket y mx ex lx →
  let E := fexp (Zdigits2 mx + ex) in
  ∃ mrs, shr_fexp prec emax mx ex lx = (mrs, E)
       ∧ shr_m mrs = mx / 2 ^ (E - ex)
       ∧ bracket y (shr_m mrs) E (loc_of_shr_record mrs).
Proof.
  intros Hmx Hex Hy E. unfold shr_fexp. fold E.
  destruct (shr_record_of_loc_spec mx lx) as [Rm Rl].
  destruct (shr_spec (shr_record_of_loc mx lx) ex (E - ex)) as
    (mrs & Hshr & Hm & Hl); [rewrite Rm; exact Hmx|].
  rewrite Z.max_l in Hshr, Hm, Hl by lia. rewrite Rm in Hm. rewrite Rm, Rl in Hl.
  replace (ex + (E - ex)) with E in Hshr by lia.
  exists mrs. split; [exact Hshr|]. split; [exact Hm|].
  rewrite Hm. replace E with (ex + (E - ex)) at 2 by lia.
  apply (bracket_shift y mx ex (E - ex) lx); [lia | lia | exact Hy | exact Hl].
Qed.

(** The second shift: the rounded mantissa is brought back to canonical
    form, its value unchanged. *)
Lemma shr_fexp_second (m2 E : Z) :
  0 <= m2 → emin <= E →
  (m2 = 0 ∨ fexp (Zdigits2 m2 + E) = E
   ∨ (fexp (Zdigits2 m2 + E) = E + 1 ∧ m2 = 2 ^ (Zdigits2 m2 - 1))) →
  ∃ mrs e3, shr_fexp prec emax m2 E loc_Exact = (mrs, e3)
          ∧ 0 <= shr_m mrs
          ∧ (F2Q (shr_m mrs) e3 == F2Q m2 E)%Q
          ∧ (shr_m mrs = 0 ∨ fexp (Zdigits2 (shr_m mrs) + e3) = e3).
Proof.
  intros Hm2 HE Hcases. unfold shr_fexp.
  destruct (shr_spec (shr_record_of_loc m2 loc_Exact) E
              (fexp (Zdigits2 m2 + E) - E)) as (mrs & Hshr & Hm & _);
    [exact Hm2|].
  cbn [shr_record_of_loc shr_m] in Hm.
  exists mrs, (E + Z.max (fexp (Zdigits2 m2 + E) - E) 0).
  split; [exact Hshr|].
  destruct Hcases as [-> | [Hcan | [Hcan Hpow]]].
  - rewrite Z.div_0_l in Hm
      by (pose proof (Z.pow_pos_nonneg 2
            (Z.max (fexp (Zdigits2 0 + E) - E) 0)); lia).
    rewrite Hm. split; [lia|]. split; [rewrite !F2Q_0; reflexivity | auto].
  - rewrite Hcan, Z.sub_diag in Hm |- *. change (Z.max 0 0) with 0 in *.
    change (2 ^ 0) with 1 in Hm. rewrite Z.div_1_r in Hm.
    rewrite Hm, Z.add_0_r. split; [exact Hm2|]. split; [reflexivity|].
    right. exact Hcan.
  - rewrite Hcan in Hm |- *.
    replace (E + 1 - E) with 1 in * by lia. change (Z.max 1 0) with 1 in *.
    change (2 ^ 1) with 2 in Hm.
    assert (Hpos : 0 < m2).
    { rewrite Hpow. apply Z.pow_pos_nonneg; [lia|].
      pose proof (Zdigits2_nonneg m2).
      destruct (Z.eq_dec (Zdigits2 m2) 0) as [H0|]; [|lia].
      rewrite H0, fexp_eq in Hcan. rewrite emin_eq in HE. lia. }
    pose proof (Zdigits2_pos m2 Hpos) as Hd.
    destruct (Z.eq_dec (Zdigits2 m2) 1) as [H1|Hd1].
    { (* m2 = 1: fexp (1 + E) = E + 1 is impossible *)
      rewrite H1, fexp_eq in Hcan. rewrite emin_eq in HE. lia. }
    remember (Zdigits2 m2) as d eqn:Hdef. clear Hdef. subst m2.
    assert (Hm3 : shr_m mrs = 2 ^ (d - 2)).
    { rewrite Hm.
      replace (d - 1) with (1 + (d - 2)) by lia.
      rewrite Z.pow_add_r by lia. change (2 ^ 1) with 2.
      rewrite Z.mul_comm, Z.div_mul by lia. reflexivity. }
    pose proof (Z.pow_pos_nonneg 2 (d - 2) ltac:(lia) ltac:(lia)).
    rewrite Hm3. split; [lia|]. split.
    + rewrite !F2Q_pow2 by lia. apply Qpower_comp; [reflexivity | lia].
    + right.
      assert (Hdig : Zdigits2 (2 ^ (d - 2)) = d - 1).
      { apply Zdigits2_unique; [lia|].
        replace (d - 1 - 1) with (d - 2) by lia.
        split; [lia|]. apply pow2_mono_lt. lia. }
      rewrite Hdig. replace (d - 1 + (E + 1)) with (d + E) by lia.
      exact Hcan.
Qed.

End Round.

(** The rounded number and the numbers of the format around it. *)
Section Sandwich.
Import B64.

Lemma F2Q_align (m e E : Z) : E <= e → (F2Q (m * 2 ^ (e - E)) E == F2Q m e)%Q.
Proof.
  intros HE. rewrite F2Q_shift by lia.
  replace (E + (e - E)) with e by lia. reflexivity.
Qed.

Lemma grid_lt_le (mv ev m E : Z) :
  E <= ev → (F2Q mv ev < F2Q (m + 1) E)%Q → (F2Q mv ev <= F2Q m E)%Q.
Proof.
  intros HE. rewrite <- (F2Q_align mv ev E HE).
  intros Hlt%F2Q_lt. apply F2Q_le. lia.
Qed.

Lemma grid_gt_ge (mv ev m E : Z) :
  E <= ev → (F2Q m E < F2Q mv ev)%Q → (F2Q (m + 1) E <= F2Q mv ev)%Q.
Proof.
  intros HE. rewrite <- (F2Q_align mv ev E HE).
  intros Hlt%F2Q_lt. apply F2Q_le. lia.
Qed.

(** A number of the format below the exponent the rounding works at is
    smaller than the number rounded. *)
Lemma format_small (mx ex mv ev : Z) :
  0 <= mx → ex <= fexp (Zdigits2 mx + ex) →
  0 < mv → fexp (Zdigits2 mv + ev) <= ev →
  ev < fexp (Zdigits2 mx + ex) →
  0 < mx
  ∧ fexp (Zdigits2 mx + ex) = Zdigits2 mx + ex - 53
  ∧ (F2Q mv ev < 2 ^ (Zdigits2 mx + ex - 1))%Q.
Proof.
  intros Hmx Hex Hmv Hfv Hev.
  pose proof (Zdigits2_pos mv Hmv) as Hdv.
  destruct (F2Q_digits mv ev Hmv) as [_ Hlt].
  rewrite !fexp_eq in *.
  assert (Hpos : 0 < mx).
  { destruct (Z.eq_dec mx 0) as [-> |]; [|lia]. cbn [Zdigits2] in *. lia. }
  split; [exact Hpos|]. split; [lia|].
  eapply Qlt_le_trans; [exact Hlt|]. apply pow2_le. lia.
Qed.

Lemma F2Q_nonneg (m e : Z) : 0 <= m → (0 <= F2Q m e)%Q.
Proof. intros Hm. rewrite <- (F2Q_0 e). apply F2Q_le. exact Hm. Qed.

Lemma F2Q_nonpos (m e : Z) : m <= 0 → (F2Q m e <= 0)%Q.
Proof. intros Hm. rewrite <- (F2Q_0 e). apply F2Q_le. exact Hm. Qed.

Lemma F2Q_pos (m e : Z) : 0 < m ↔ (0 < F2Q m e)%Q.
Proof. rewrite <- (F2Q_0 e). apply F2Q_lt. Qed.

Lemma cond_opp_F2Q (s : bool) (m e : Z) :
  (F2Q (cond_Zopp s m) e == if s then - F2Q m e else F2Q m e)%Q.
Proof. destruct s; cbn [cond_Zopp]; [apply F2Q_opp | reflexivity]. Qed.

(** Rounding is monotone and leaves the numbers of the format where they
    are: the rounded value of [y] lies between any two numbers of the format
    that [y] lies between. *)
Lemma round_aux_sandwich (s : bool) (mx ex : Z) (lx : location)
    (y lo hi : Q) :
  0 <= mx → ex <= fexp (Zdigits2 mx + ex) → bracket y mx ex lx →
  in_format lo → in_format hi →
  (lo <= y)%Q → (y <= hi)%Q → (hi < 2 ^ emax)%Q →
  ∃ a, finite_SF (binary_round_aux prec emax s mx ex lx) = true
     ∧ (SF2Q (binary_round_aux prec emax s mx ex lx)
        == if s then - a else a)%Q
     ∧ (0 <= a)%Q ∧ (lo <= a)%Q ∧ (a <= hi)%Q.
Proof.
  intros Hmx Hex Hy (mlo & elo & Flo & Hlo) (mhi & ehi & Fhi & Hhi)
    Hloy Hyhi Hmax.
  destruct (shr_fexp_first mx ex lx y Hmx Hex Hy) as (mrs & H1 & Hm1 & Hb1).
  set (d := Zdigits2 mx) in *. set (E := fexp (d + ex)) in *.
  set (m1 := shr_m mrs) in *. set (l1 := loc_of_shr_record mrs) in *.
  set (n := E - ex) in *.
  assert (Hn : 0 <= n) by (unfold n; lia).
  pose proof (Z.pow_pos_nonneg 2 n ltac:(lia) Hn) as Hpn.
  assert (Hm1pos : 0 <= m1) by (rewrite Hm1; apply Z.div_pos; lia).
  assert (HE : emin <= E) by apply fexp_ge_emin.
  pose proof (Zdigits2_nonneg mx) as Hd0. fold d in Hd0.
  assert (Hzero : m1 = 0 → E = emin).
  { intros H0. rewrite Hm1 in H0. apply Z.div_small_iff in H0; [|lia].
    destruct H0 as [H0 | H0]; [|lia].
    assert (Hdn : d <= n).
    { destruct (Z.eq_dec mx 0) as [Hz | Hnz]; [unfold d; rewrite Hz; cbn; lia|].
      pose proof (Zdigits2_bounds mx ltac:(lia)) as [Dlo _]. fold d in Dlo.
      destruct (Z.le_gt_cases d n) as [|Hgt]; [assumption|].
      pose proof (pow2_mono n (d - 1) ltac:(lia)). lia. }
    unfold n, E in *. rewrite fexp_eq in *. rewrite emin_eq. lia. }
  assert (Hdigits : 0 < m1 → Zdigits2 m1 + E = d + ex).
  { intros Hp. assert (Hnd : n < d).
    { destruct (Z.le_gt_cases d n) as [Hle|]; [|assumption].
      rewrite Hm1, (Zdigits2_small mx n Hmx Hle) in Hp. lia. }
    assert (Hmxp : 0 < mx).
    { destruct (Z.eq_dec mx 0) as [Hz|]; [|lia].
      rewrite Hm1, Hz, Z.div_0_l in Hp by lia. lia. }
    rewrite Hm1, Zdigits2_div_pow2 by (fold d; lia). fold d. unfold n. lia. }
  destruct Hb1 as (Hdown & Hup & Hexact).
  set (m2 := round_nearest_even m1 l1).
  assert (Hm2 : m2 = m1 ∨ (m2 = m1 + 1 ∧ l1 ≠ loc_Exact))
    by apply round_nearest_even_cases.
  assert (Hm2pos : 0 <= m2) by lia.
  (* the rounded mantissa in canonical form *)
  assert (Hcases : m2 = 0 ∨ fexp (Zdigits2 m2 + E) = E
    ∨ (fexp (Zdigits2 m2 + E) = E + 1 ∧ m2 = 2 ^ (Zdigits2 m2 - 1))).
  { destruct (Z.eq_dec m1 0) as [Hz | Hnz].
    - destruct Hm2 as [-> | [-> _]]; [left; exact Hz|].
      right. left. rewrite Hz. cbn [Z.add Zdigits2].
      rewrite (Hzero Hz). reflexivity.
    - destruct Hm2 as [-> | [-> _]].
      + right. left. rewrite (Hdigits ltac:(lia)). reflexivity.
      + right. destruct (Zdigits2_succ m1 ltac:(lia)) as [Hs | [Hp Hs]].
        * left. rewrite Hs, (Hdigits ltac:(lia)). reflexivity.
        * rewrite Hs.
          replace (Zdigits2 m1 + 1 + E) with (d + ex + 1)
            by (rewrite <- (Hdigits ltac:(lia)); lia).
          destruct (fexp_succ (d + ex)) as [Hf | Hf]; fold E in Hf;
            [left; exact Hf | right; split; [exact Hf|]].
          rewrite Hp. f_equal. lia. }
  destruct (shr_fexp_second m2 E Hm2pos HE Hcases)
    as (mrs2 & e3 & H2 & Hm3pos & Hval & Hcan).
  unfold binary_round_aux. rewrite H1. cbv beta iota. fold m1 l1 m2.
  rewrite H2. cbv beta iota.
  (* the bounds *)
  assert (Hlow : (lo <= F2Q m1 E)%Q).
  { rewrite Hlo. destruct (Z.le_gt_cases mlo 0) as [Hneg | Hpos].
    { pose proof (F2Q_nonpos mlo elo Hneg).
      pose proof (F2Q_nonneg m1 E Hm1pos). lra. }
    destruct (Z.le_gt_cases E elo) as [Hge | Hlt].
    - apply grid_lt_le; [exact Hge|]. rewrite <- Hlo. lra.
    - destruct (format_small mx ex mlo elo Hmx Hex Hpos Flo Hlt)
        as (Hmxp & HEd & Hsmall). fold d in HEd, Hsmall. fold E in HEd.
      apply Qlt_le_weak. eapply Qlt_le_trans; [exact Hsmall|].
      pose proof (Zdigits2_bounds mx Hmxp) as [Dlo _]. fold d in Dlo.
      assert (Hnd : n = d - 53) by (unfold n; lia).
      assert (Hge : 2 ^ 52 <= m1).
      { rewrite Hm1. apply Z.div_le_lower_bound; [lia|].
        rewrite <- Z.pow_add_r by lia.
        replace (n + 52) with (d - 1) by lia. exact Dlo. }
      eapply Qle_trans; [|apply F2Q_le; exact Hge].
      rewrite F2Q_pow2 by lia. apply pow2_le. lia. }
  assert (Hm12 : (F2Q m1 E <= F2Q m2 E)%Q) by (apply F2Q_le; lia).
  assert (Hhigh : (F2Q m2 E <= hi)%Q).
  { destruct Hm2 as [-> | [-> Hinexact]]; [lra|].
    assert (Hstrict : (F2Q m1 E < y)%Q).
    { apply Qle_lteq in Hdown as [Hlt | Heq]; [exact Hlt|].
      exfalso. apply Hinexact, Hexact. symmetry. exact Heq. }
    rewrite Hhi in Hyhi |- *.
    assert (Hpos : 0 < mhi).
    { apply (F2Q_pos mhi ehi). pose proof (F2Q_nonneg m1 E Hm1pos). lra. }
    destruct (Z.le_gt_cases E ehi) as [Hge | Hlt].
    - apply grid_gt_ge; [exact Hge | lra].
    - exfalso.
      destruct (format_small mx ex mhi ehi Hmx Hex Hpos Fhi Hlt)
        as (Hmxp & HEd & Hsmall). fold d in HEd, Hsmall.
      destruct (F2Q_digits mx ex Hmxp) as [Dlo _]. fold d in Dlo.
      destruct Hy as (Hylo & _).
      replace (d - 1 + ex) with (d + ex - 1) in Dlo by lia. lra. }
  exists (F2Q m2 E).
  assert (Ha0 : (0 <= F2Q m2 E)%Q) by (apply F2Q_nonneg; exact Hm2pos).
  destruct (shr_m mrs2) as [|p|p] eqn:Hm3; [| |lia].
  - cbn [finite_SF SF2Q]. split; [reflexivity|].
    assert (Hz : (F2Q m2 E == 0)%Q) by (rewrite <- Hval; apply F2Q_0).
    split; [destruct s; rewrite Hz; reflexivity|].
    split; [exact Ha0|]. split; [exact (Qle_trans _ _ _ Hlow Hm12)|].
    exact Hhigh.
  - destruct Hcan as [Hcan | Hcan]; [discriminate Hcan|].
    assert (Hfit : e3 <= emax - prec).
    { destruct (Z.le_gt_cases e3 (emax - prec)) as [|Hgt]; [assumption|].
      exfalso. destruct (F2Q_digits (Z.pos p) e3 ltac:(lia)) as [Dlo _].
      assert (Hbig : (2 ^ emax <= 2 ^ (Zdigits2 (Z.pos p) - 1 + e3))%Q).
      { apply pow2_le. rewrite fexp_eq in Hcan.
        change (emax - prec) with 971 in Hgt. change emax with 1024. lia. }
      lra. }
    apply Z.leb_le in Hfit. rewrite Hfit.
    cbn [finite_SF SF2Q]. split.
    { unfold bounded, canonical_mantissa. cbn [Zdigits2] in Hcan.
      rewrite Hcan, Z.eqb_refl, Hfit. reflexivity. }
    split; [rewrite cond_opp_F2Q; destruct s; rewrite Hval; reflexivity|].
    split; [exact Ha0|]. split; [exact (Qle_trans _ _ _ Hlow Hm12)|].
    exact Hhigh.
Qed.

End Sandwich.

(** Normalisation, and the rounding of a sum. *)
Section Ops.
Import B64.

Lemma iter_xO (m d : positive) :
  Z.pos (Pos.iter xO m d) = Z.pos m * 2 ^ Z.pos d.
Proof.
  induction d as [|d IH] using Pos.peano_ind.
  - cbn [Pos.iter]. change (2 ^ 1) with 2. lia.
  - rewrite Pos.iter_succ, Pos2Z.inj_succ, Z.pow_succ_r by lia.
    change (Z.pos (Pos.iter xO m d)~0) with (2 * Z.pos (Pos.iter xO m d)).
    rewrite IH. lia.
Qed.

Lemma shl_align_spec (mx : positive) (ex ex' : Z) :
  ∃ mz, shl_align mx ex ex' = (mz, Z.min ex ex')
      ∧ Z.pos mz = Z.pos mx * 2 ^ (ex - Z.min ex ex').
Proof.
  unfold shl_align. destruct (ex' - ex) as [|d|d] eqn:Hd.
  - exists mx. rewrite Z.min_l by lia. rewrite Z.sub_diag. split; [reflexivity|].
    change (2 ^ 0) with 1. lia.
  - exists mx. rewrite Z.min_l by lia. rewrite Z.sub_diag. split; [reflexivity|].
    change (2 ^ 0) with 1. lia.
  - exists (Pos.iter xO mx d). rewrite Z.min_r by lia.
    split; [reflexivity|]. rewrite iter_xO. f_equal. f_equal. lia.
Qed.

Lemma bracket_exact (m e : Z) : bracket (F2Q m e) m e loc_Exact.
Proof.
  split; [apply Qle_refl|]. split; [apply F2Q_lt; lia|].
  split; reflexivity.
Qed.

Lemma bracket_proper (y y' : Q) (m e : Z) (l : location) :
  (y == y')%Q → bracket y m e l → bracket y' m e l.
Proof.
  intros Hy (H1 & H2 & H3). unfold bracket. rewrite <- Hy. auto.
Qed.

Lemma in_format_proper (q q' : Q) : (q == q')%Q → in_format q → in_format q'.
Proof.
  intros Hq (m & e & Hf & Hv). exists m, e. split; [exact Hf|].
  rewrite <- Hq. exact Hv.
Qed.

Lemma in_format_0 : in_format 0.
Proof.
  exists 0, 0. split; [vm_compute; discriminate | rewrite F2Q_0; reflexivity].
Qed.

Lemma Zdigits2_opp (m : Z) : Zdigits2 (- m) = Zdigits2 m.
Proof. destruct m; reflexivity. Qed.

Lemma in_format_opp (q : Q) : in_format q → in_format (- q).
Proof.
  intros (m & e & Hf & Hv). exists (- m), e.
  rewrite Zdigits2_opp, F2Q_opp, Hv. split; [exact Hf | reflexivity].
Qed.

Lemma F2Q_succ_exp (m e : Z) : (F2Q m (e + 1) == 2 * F2Q m e)%Q.
Proof. unfold F2Q. rewrite pow2_add. change (2 ^ 1)%Q with 2%Q. ring. Qed.

Lemma in_format_double (q : Q) : in_format q → in_format (2 * q).
Proof.
  intros (m & e & Hf & Hv). exists m, (e + 1).
  rewrite F2Q_succ_exp, Hv. split; [|reflexivity].
  destruct (fexp_succ (Zdigits2 m + e)) as [H | H];
    rewrite Z.add_assoc, H; lia.
Qed.

Lemma binary_round_sandwich (s : bool) (m : positive) (e : Z) (lo hi : Q) :
  in_format lo → in_format hi →
  (lo <= F2Q (Z.pos m) e)%Q → (F2Q (Z.pos m) e <= hi)%Q → (hi < 2 ^ emax)%Q →
  ∃ a, finite_SF (binary_round prec emax s m e) = true
     ∧ (SF2Q (binary_round prec emax s m e) == if s then - a else a)%Q
     ∧ (0 <= a)%Q ∧ (lo <= a)%Q ∧ (a <= hi)%Q.
Proof.
  intros Flo Fhi Hlo Hhi Hmax. unfold binary_round.
  destruct (shl_align_spec m e (fexp (Z.pos (digits2_pos m) + e)))
    as (mz & -> & Hmz).
  set (ez := Z.min e (fexp (Z.pos (digits2_pos m) + e))) in *.
  assert (Hval : (F2Q (Z.pos mz) ez == F2Q (Z.pos m) e)%Q).
  { rewrite Hmz. apply F2Q_align. unfold ez. lia. }
  apply (round_aux_sandwich s (Z.pos mz) ez loc_Exact (F2Q (Z.pos m) e));
    try assumption; [lia| |].
  - rewrite Hmz, Zdigits2_mul_pow2 by (unfold ez; lia).
    replace (Zdigits2 (Z.pos m) + (e - ez) + ez) with (Z.pos (digits2_pos m) + e)
      by (cbn [Zdigits2]; lia).
    unfold ez. lia.
  - apply (bracket_proper _ _ _ _ _ Hval), bracket_exact.
Qed.

Lemma binary_normalize_sandwich (M e : Z) (lo hi : Q) :
  in_format lo → in_format hi →
  (lo <= F2Q M e)%Q → (F2Q M e <= hi)%Q →
  (- 2 ^ emax < lo)%Q → (hi < 2 ^ emax)%Q →
  finite_SF (binary_normalize prec emax M e false) = true
  ∧ (lo <= SF2Q (binary_normalize prec emax M e false))%Q
  ∧ (SF2Q (binary_normalize prec emax M e false) <= hi)%Q.
Proof.
  intros Flo Fhi Hlo Hhi Hmin Hmax. destruct M as [|p|p];
    cbn [binary_normalize].
  - rewrite F2Q_0 in Hlo, Hhi. cbn [finite_SF SF2Q]. auto.
  - destruct (binary_round_sandwich false p e lo hi)
      as (a & Hfin & Hv & _ & Ha1 & Ha2); try assumption.
    split; [exact Hfin|]. rewrite Hv. auto.
  - change (Z.neg p) with (- Z.pos p) in Hlo, Hhi.
    rewrite F2Q_opp in Hlo, Hhi.
    destruct (binary_round_sandwich true p e (- hi) (- lo))
      as (a & Hfin & Hv & _ & Ha1 & Ha2);
      try (apply in_format_opp; assumption); try lra.
    split; [exact Hfin|]. rewrite Hv. split; lra.
Qed.

Lemma finite_SF_format (x : spec_float) :
  finite_SF x = true → in_format (SF2Q x).
Proof.
  destruct x as [s|s| |s m e]; try discriminate; intros Hx.
  - apply in_format_0.
  - exists (cond_Zopp s (Z.pos m)), e. split; [|reflexivity].
    cbn [finite_SF] in Hx. unfold bounded, canonical_mantissa in Hx.
    apply andb_prop in Hx as [Hc%Z.eqb_eq _].
    replace (Zdigits2 (cond_Zopp s (Z.pos m))) with (Z.pos (digits2_pos m))
      by (destruct s; reflexivity).
    lia.
Qed.

Lemma SF2Q_finite (s : bool) (m : positive) (e : Z) :
  (SF2Q (S754_finite s m e) == if s then - F2Q (Z.pos m) e else F2Q (Z.pos m) e)%Q.
Proof. cbn [SF2Q]. apply cond_opp_F2Q. Qed.

(** Addition rounds the sum of the values. *)
Lemma SF64add_sandwich (x y : spec_float) (lo hi : Q) :
  finite_SF x = true → finite_SF y = true →
  in_format lo → in_format hi →
  (lo <= SF2Q x + SF2Q y)%Q → (SF2Q x + SF2Q y <= hi)%Q →
  (- 2 ^ emax < lo)%Q → (hi < 2 ^ emax)%Q →
  finite_SF (SF64add x y) = true
  ∧ (lo <= SF2Q (SF64add x y))%Q ∧ (SF2Q (SF64add x y) <= hi)%Q.
Proof.
  intros Hx Hy Flo Fhi Hlo Hhi Hmin Hmax. unfold SF64add.
  destruct x as [sx|sx| |sx mx ex]; try discriminate Hx;
    destruct y as [sy|sy| |sy my ey]; try discriminate Hy.
  - assert (Hz : finite_SF (SFadd prec emax (S754_zero sx) (S754_zero sy)) = true
        ∧ (SF2Q (SFadd prec emax (S754_zero sx) (S754_zero sy)) == 0)%Q)
      by (destruct sx, sy; split; reflexivity).
    destruct Hz as [Hf Hv]. cbn [SF2Q] in Hlo, Hhi.
    split; [exact Hf|]. rewrite Hv. split; lra.
  - cbn [SFadd]. split; [exact Hy|]. cbn [SF2Q] in Hlo, Hhi |- *. split; lra.
  - cbn [SFadd]. split; [exact Hx|]. cbn [SF2Q] in Hlo, Hhi |- *. split; lra.
  - cbn [SFadd].
    destruct (shl_align_spec mx ex (Z.min ex ey)) as (ax & Hax & Vax).
    destruct (shl_align_spec my ey (Z.min ex ey)) as (ay & Hay & Vay).
    rewrite Hax, Hay. cbn [fst].
    replace (Z.min ex (Z.min ex ey)) with (Z.min ex ey) in * by lia.
    replace (Z.min ey (Z.min ex ey)) with (Z.min ex ey) in * by lia.
    set (ez := Z.min ex ey) in *.
    assert (Hsum : (F2Q (cond_Zopp sx (Z.pos ax) + cond_Zopp sy (Z.pos ay)) ez
                    == SF2Q (S754_finite sx mx ex)
                       + SF2Q (S754_finite sy my ey))%Q).
    { rewrite F2Q_plus. cbn [SF2Q]. rewrite Vax, Vay.
      destruct sx, sy; cbn [cond_Zopp]; rewrite ?F2Q_opp;
        rewrite !F2Q_align by (unfold ez; lia); reflexivity. }
    apply binary_normalize_sandwich; try assumption; rewrite Hsum;
      assumption.
Qed.

End Ops.

(** Division by two. *)
Section Div.
Import B64.

Lemma div_eucl_spec (a b q r : Z) :
  Z.div_eucl a b = (q, r) → q = a / b ∧ r = a mod b.
Proof. intros H. unfold Z.div, Z.modulo. rewrite H. auto. Qed.

Lemma F2Q_half (m e : Z) : (F2Q m e / 2 == F2Q m (e - 1))%Q.
Proof.
  pose proof (F2Q_succ_exp m (e - 1)) as H.
  replace (e - 1 + 1) with e in H by lia. rewrite H. field.
Qed.

(** The quotient that [SFdiv] hands to the rounding, for the divisor [2]. *)
Lemma div_core_two (mx : positive) (ex : Z) :
  ∃ q e' l,
    SFdiv_core_binary prec emax (Z.pos mx) ex 4503599627370496 (-51)
    = (q, e', l)
    ∧ 0 <= q
    ∧ e' <= fexp (Zdigits2 q + e')
    ∧ bracket (F2Q (Z.pos mx) (ex - 1)) q e' l.
Proof.
  unfold SFdiv_core_binary.
  change (Zdigits2 4503599627370496) with 53.
  set (d1 := Zdigits2 (Z.pos mx)).
  set (e' := Z.min (fexp (d1 + ex - (53 + -51))) (ex - -51)).
  set (s := ex - -51 - e').
  assert (Hs : 0 <= s) by (unfold s, e'; lia).
  set (m' := match s with
             | 0 => Z.pos mx
             | Z.pos _ => Z.shiftl (Z.pos mx) s
             | Z.neg _ => 0
             end).
  assert (Hm' : m' = Z.pos mx * 2 ^ s).
  { unfold m'. destruct s as [|p|p] eqn:Hsp; [|apply Z.shiftl_mul_pow2; lia|lia].
    change (2 ^ 0) with 1. lia. }
  clearbody m'.
  pose proof (Z.pow_pos_nonneg 2 s ltac:(lia) Hs) as Hps.
  assert (Hm'pos : 0 < m') by (rewrite Hm'; lia).
  assert (Hd' : Zdigits2 m' = d1 + s)
    by (rewrite Hm'; apply Zdigits2_mul_pow2; lia).
  destruct (Z.div_eucl m' 4503599627370496) as [q r] eqn:Hdiv.
  apply div_eucl_spec in Hdiv as [Hq Hr].
  change 4503599627370496 with (2 ^ 52) in Hq, Hr.
  exists q, e', (new_location 4503599627370496 r). split; [reflexivity|].
  assert (Hq0 : 0 <= q) by (rewrite Hq; apply Z.div_pos; lia).
  split; [exact Hq0|].
  pose proof (Zdigits2_bounds m' Hm'pos) as [Dlo Dhi]. rewrite Hd' in Dlo, Dhi.
  pose proof (Zdigits2_pos (Z.pos mx) ltac:(lia)) as Hd1. fold d1 in Hd1.
  split.
  - destruct (Z.eq_dec q 0) as [Hz | Hnz].
    + rewrite Hz. cbn [Zdigits2 Z.add].
      assert (Hsmall : m' < 2 ^ 52).
      { rewrite Hq in Hz. apply Z.div_small_iff in Hz; lia. }
      assert (Hds : d1 + s <= 52).
      { destruct (Z.le_gt_cases (d1 + s) 52) as [|Hgt]; [assumption|].
        pose proof (pow2_mono 52 (d1 + s - 1) ltac:(lia)). lia. }
      unfold s, e' in *. rewrite !fexp_eq in *. lia.
    + assert (Hbig : 2 ^ 52 <= m').
      { destruct (Z.le_gt_cases (2 ^ 52) m') as [|Hlt]; [assumption|].
        rewrite Hq, Z.div_small in Hnz by lia. lia. }
      assert (Hds : 52 < d1 + s).
      { destruct (Z.le_gt_cases (d1 + s) 52) as [Hle|]; [|assumption].
        pose proof (pow2_mono (d1 + s) 52 ltac:(lia)). lia. }
      rewrite Hq, Zdigits2_div_pow2, Hd' by lia.
      replace (d1 + s - 52 + e') with (d1 + ex - 1) by (unfold s; lia).
      assert (Hle : e' <= fexp (d1 + ex - (53 + -51))) by (unfold e'; lia).
      eapply Z.le_trans; [exact Hle|]. apply fexp_mono. lia.
  - assert (Hy : (F2Q m' (e' - 52) == F2Q (Z.pos mx) (ex - 1))%Q).
    { rewrite Hm', F2Q_shift by lia.
      replace (e' - 52 + s) with (ex - 1) by (unfold s; lia). reflexivity. }
    apply (bracket_proper _ _ _ _ _ Hy).
    rewrite Hq. replace e' with (e' - 52 + 52) at 2 by lia.
    apply (bracket_shift _ m' (e' - 52) 52 loc_Exact);
      [lia | lia | apply bracket_exact|].
    rewrite <- Hr. unfold new_location.
    change (Z.even 4503599627370496) with true. cbv iota.
    unfold new_location_even.
    destruct (Z.eqb_spec r 0) as [-> | Hne]; split; auto; try discriminate.
    intros [_ H]. contradiction.
Qed.

(** Division by [2.0] rounds half the value. *)
Lemma SF64div_two_sandwich (x : spec_float) (lo hi : Q) :
  finite_SF x = true → in_format lo → in_format hi →
  (lo <= SF2Q x / 2)%Q → (SF2Q x / 2 <= hi)%Q →
  (- 2 ^ emax < lo)%Q → (hi < 2 ^ emax)%Q →
  finite_SF (SF64div x two_SF) = true
  ∧ (lo <= SF2Q (SF64div x two_SF))%Q ∧ (SF2Q (SF64div x two_SF) <= hi)%Q.
Proof.
  intros Hx Flo Fhi Hlo Hhi Hmin Hmax. unfold SF64div, two_SF.
  destruct x as [sx|sx| |sx mx ex]; try discriminate Hx.
  - cbn [SFdiv finite_SF SF2Q] in *. split; [reflexivity|].
    assert (H0 : (0 / 2 == 0)%Q) by reflexivity. rewrite H0 in Hlo, Hhi. auto.
  - cbn [SFdiv].
    destruct (div_core_two mx ex) as (q & e' & l & -> & Hq & Hfe & Hb).
    cbv beta iota. rewrite xorb_false_r.
    assert (Hhalf : (SF2Q (S754_finite sx mx ex) / 2
                     == if sx then - F2Q (Z.pos mx) (ex - 1)
                        else F2Q (Z.pos mx) (ex - 1))%Q).
    { cbn [SF2Q]. destruct sx; cbn [cond_Zopp].
      - change (Z.neg mx) with (- Z.pos mx). rewrite F2Q_opp, <- F2Q_half.
        field.
      - apply F2Q_half. }
    rewrite Hhalf in Hlo, Hhi. destruct sx.
    + destruct (round_aux_sandwich true q e' l _ (- hi) (- lo) Hq Hfe Hb)
        as (a & Hfin & Hv & _ & Ha1 & Ha2);
        try (apply in_format_opp; assumption); try lra.
      split; [exact Hfin|]. rewrite Hv. split; lra.
    + destruct (round_aux_sandwich false q e' l _ lo hi Hq Hfe Hb)
        as (a & Hfin & Hv & _ & Ha1 & Ha2); try assumption.
      split; [exact Hfin|]. rewrite Hv. auto.
Qed.

End Div.

(** The primitive floats. *)
Section Floats64.
Import B64 Codec.

Lemma float_val_SF (x : float) : float_val x = SF2Q (Prim2SF x).
Proof.
  unfold float_val, SF2Q, F2Q. destruct (Prim2SF x) as [| | |[] m e];
    reflexivity.
Qed.

Lemma Prim2SF_two : Prim2SF (fconst 2) = two_SF.
Proof. vm_compute. reflexivity. Qed.

Lemma emax_big : (1024 < 2 ^ emax)%Q.
Proof.
  assert (H : (2 ^ 10 == 1024)%Q) by reflexivity. rewrite <- H.
  apply pow2_lt. reflexivity.
Qed.

(** The midpoint that the code computes, [(lo + hi) / 2] with two
    roundings, lies between [lo] and [hi]. *)
Lemma midpoint64 (lo hi : float) :
  finite64 lo = true → finite64 hi = true →
  (fval lo <= fval hi)%Q → (-512 <= fval lo)%Q → (fval hi <= 512)%Q →
  finite64 (midpoint (lo, hi)) = true
  ∧ (fval lo <= fval (midpoint (lo, hi)))%Q
  ∧ (fval (midpoint (lo, hi)) <= fval hi)%Q.
Proof.
  unfold finite64, fval, binary64_val. rewrite !float_val_SF.
  intros Hlo Hhi Hle Hmin Hmax.
  unfold midpoint. cbn [fst snd fdiv fadd binary64].
  rewrite div_spec, add_spec, Prim2SF_two.
  pose proof emax_big as Hbig.
  pose proof (finite_SF_format _ Hlo) as Flo.
  pose proof (finite_SF_format _ Hhi) as Fhi.
  destruct (SF64add_sandwich (Prim2SF lo) (Prim2SF hi)
              (2 * SF2Q (Prim2SF lo)) (2 * SF2Q (Prim2SF hi)) Hlo Hhi)
    as (Hfin & Hs1 & Hs2);
    try (apply in_format_double; assumption); try lra.
  apply SF64div_two_sandwich; try assumption;
    unfold Qdiv; change (/ 2)%Q with (1 # 2)%Q; lra.
Qed.

(** Two numbers in canonical form are ordered by their exponents first. *)
Lemma canonical_lt (m1 m2 : positive) (e1 e2 : Z) :
  bounded prec emax m1 e1 = true → bounded prec emax m2 e2 = true →
  e1 < e2 → (F2Q (Z.pos m1) e1 < F2Q (Z.pos m2) e2)%Q.
Proof.
  unfold bounded, canonical_mantissa.
  intros [H1%Z.eqb_eq _]%andb_prop [H2%Z.eqb_eq _]%andb_prop Hlt.
  change (Z.pos (digits2_pos m1)) with (Zdigits2 (Z.pos m1)) in H1.
  change (Z.pos (digits2_pos m2)) with (Zdigits2 (Z.pos m2)) in H2.
  destruct (F2Q_digits (Z.pos m1) e1 ltac:(lia)) as [_ Hup].
  destruct (F2Q_digits (Z.pos m2) e2 ltac:(lia)) as [Hdown _].
  rewrite fexp_eq in H1, H2.
  eapply Qlt_le_trans; [exact Hup|]. eapply Qle_trans; [|exact Hdown].
  apply pow2_le. lia.
Qed.

Lemma Qcompare_Lt (p q : Q) : (p < q)%Q → (p ?= q)%Q = Lt.
Proof. apply Qlt_alt. Qed.

Lemma Qcompare_Gt (p q : Q) : (q < p)%Q → (p ?= q)%Q = Gt.
Proof. apply Qgt_alt. Qed.

Lemma Qcompare_Eq (p q : Q) : (p == q)%Q → (p ?= q)%Q = Eq.
Proof. apply Qeq_alt. Qed.

(** On finite numbers [SFcompare] is the comparison of the values. *)
Lemma SFcompare_spec (x y : spec_float) :
  finite_SF x = true → finite_SF y = true →
  SFcompare x y = Some (SF2Q x ?= SF2Q y)%Q.
Proof.
  intros Hx Hy.
  destruct x as [sx|sx| |sx mx ex]; try discriminate Hx;
    destruct y as [sy|sy| |sy my ey]; try discriminate Hy;
    cbn [SFcompare finite_SF] in *; [reflexivity|..]; f_equal; symmetry.
  - pose proof (proj1 (F2Q_pos (Z.pos my) ey) ltac:(lia)).
    rewrite SF2Q_finite. cbn [SF2Q].
    destruct sy; [apply Qcompare_Gt | apply Qcompare_Lt]; lra.
  - pose proof (proj1 (F2Q_pos (Z.pos mx) ex) ltac:(lia)).
    rewrite SF2Q_finite. cbn [SF2Q].
    destruct sx; [apply Qcompare_Lt | apply Qcompare_Gt]; lra.
  - pose proof (proj1 (F2Q_pos (Z.pos mx) ex) ltac:(lia)) as Px.
    pose proof (proj1 (F2Q_pos (Z.pos my) ey) ltac:(lia)) as Py.
    rewrite !SF2Q_finite.
    destruct sx, sy; try (apply Qcompare_Lt; lra); try (apply Qcompare_Gt; lra).
    + destruct (Z.compare_spec ex ey) as [-> | Hlt | Hgt].
      * change (Pos.compare_cont Eq mx my) with (mx ?= my)%positive.
        destruct (Pos.compare_spec mx my) as [-> | Hm | Hm]; cbn [CompOpp].
        -- apply Qcompare_Eq. reflexivity.
        -- apply Qcompare_Gt.
           pose proof (proj1 (F2Q_lt (Z.pos mx) (Z.pos my) ey) ltac:(lia)).
           lra.
        -- apply Qcompare_Lt.
           pose proof (proj1 (F2Q_lt (Z.pos my) (Z.pos mx) ey) ltac:(lia)).
           lra.
      * apply Qcompare_Gt.
        pose proof (canonical_lt mx my ex ey Hx Hy Hlt). lra.
      * apply Qcompare_Lt.
        pose proof (canonical_lt my mx ey ex Hy Hx ltac:(lia)). lra.
    + destruct (Z.compare_spec ex ey) as [-> | Hlt | Hgt].
      * change (Pos.compare_cont Eq mx my) with (mx ?= my)%positive.
        destruct (Pos.compare_spec mx my) as [-> | Hm | Hm].
        -- apply Qcompare_Eq. reflexivity.
        -- apply Qcompare_Lt. apply F2Q_lt. lia.
        -- apply Qcompare_Gt. apply F2Q_lt. lia.
      * apply Qcompare_Lt. exact (canonical_lt mx my ex ey Hx Hy Hlt).
      * apply Qcompare_Gt. exact (canonical_lt my mx ey ex Hy Hx ltac:(lia)).
Qed.

(** The comparison [x > m] of two finite floats decides the comparison of
    their values. *)
Lemma exact_gt64 (x m : float) :
  finite64 x = true → finite64 m = true → RoundTrip.exact_gt x m = true.
Proof.
  unfold finite64, RoundTrip.exact_gt, fval, binary64_val.
  rewrite !float_val_SF. intros Hx Hm. cbn [fgt binary64].
  rewrite ltb_spec. unfold SFltb. rewrite (SFcompare_spec _ _ Hm Hx).
  destruct (Qle_bool (SF2Q (Prim2SF x)) (SF2Q (Prim2SF m))) eqn:Hle.
  - apply Qle_bool_iff in Hle.
    destruct (SF2Q (Prim2SF m) ?= SF2Q (Prim2SF x))%Q eqn:Hc; try reflexivity.
    apply Qlt_alt in Hc. lra.
  - assert (Hlt : (SF2Q (Prim2SF m) < SF2Q (Prim2SF x))%Q).
    { apply Qnot_le_lt. intros H%Qle_bool_iff. congruence. }
    rewrite (Qcompare_Lt _ _ Hlt). reflexivity.
Qed.

End Floats64.

(** *** The cells of the grid *)

Lemma string_snoc_ind (P : string → Prop) :
  P EmptyString → (∀ s c, P s → P (snoc s c)) → ∀ s, P s.
Proof.
  intros Hempty Hsnoc s. remember (String.length s) as n eqn:Hn.
  revert s Hn. induction n as [|n IH]; intros s Hn.
  - destruct s; [exact Hempty | discriminate Hn].
  - destruct (unsnoc s) as [[p l]|] eqn:Hu.
    + apply unsnoc_Some in Hu. subst s. rewrite length_snoc in Hn.
      apply Hsnoc, IH. lia.
    + apply unsnoc_None in Hu. subst s. discriminate Hn.
Qed.

Lemma index_of_bits (c : ascii) (cd : Z) :
  dict_get base32_map c = Ok cd →
  str_index base32
    (Trace.set_bit (Cell.bit_of cd 1) (Trace.set_bit (Cell.bit_of cd 2)
       (Trace.set_bit (Cell.bit_of cd 4) (Trace.set_bit (Cell.bit_of cd 8)
          (Trace.set_bit (Cell.bit_of cd 16) 0 0) 1) 2) 3) 4) = Ok c.
Proof.
  destruct c as [[] [] [] [] [] [] [] []]; intros Hc;
    vm_compute in Hc; try discriminate Hc;
    injection Hc as <-; vm_compute; reflexivity.
Qed.

Section CellTrace.
Import Codec Trace Cell.
Context {F : Type} `{FloatOps F}.

Lemma decode_char_bits (c : ascii) (d d' : dec_state F) :
  decode_char c d = Ok d' →
  ∃ cd, dict_get base32_map c = Ok cd
      ∧ char_in c base32 = true
      ∧ d' = decode_bit (bit_of cd 1) (decode_bit (bit_of cd 2)
               (decode_bit (bit_of cd 4) (decode_bit (bit_of cd 8)
                  (decode_bit (bit_of cd 16) d)))).
Proof.
  unfold decode_char. intros (cd & Hcd & [= <-])%bind_Ok_inv.
  exists cd. split; [exact Hcd|]. split.
  - destruct (char_in c base32) eqn:Hc; [reflexivity|].
    rewrite (dict_get_invalid c Hc) in Hcd. discriminate Hcd.
  - cbn [foldl]. rewrite !decode_mask_bit. reflexivity.
Qed.

Lemma decode_char_valid (c : ascii) (d : dec_state F) :
  char_in c base32 = true → ∃ d', decode_char c d = Ok d'.
Proof.
  intros Hc. destruct (dict_get_valid c Hc) as (cd & Hcd & _).
  unfold decode_char. rewrite Hcd, bind_Ok. eauto.
Qed.

Lemma decode_loop_app (s t : string) (d : dec_state F) :
  decode_loop (s +:+ t) d = (d' ← decode_loop s d; decode_loop t d').
Proof.
  revert d. induction s as [|a s IH]; intros d.
  - change (EmptyString +:+ t) with t. cbn [decode_loop].
    rewrite bind_Ok. reflexivity.
  - rewrite append_cons. cbn [decode_loop].
    destruct (decode_char a d) as [d'| |]; [|reflexivity..].
    rewrite !bind_Ok. apply IH.
Qed.

(** Five iterations whose comparisons come out as the bits [b0 .. b4] append
    the character of these bits. *)
Lemma encode_block_bits (lat lon : F) (st : enc_state F) (c : ascii)
    (b0 b1 b2 b3 b4 : bool) :
  let d1 := decode_bit b0 (dec_of st) in
  let d2 := decode_bit b1 d1 in
  let d3 := decode_bit b2 d2 in
  let d4 := decode_bit b3 d3 in
  let d5 := decode_bit b4 d4 in
  bit st = 0 → ch st = 0 →
  choose lat lon (dec_of st) = b0 → choose lat lon d1 = b1 →
  choose lat lon d2 = b2 → choose lat lon d3 = b3 →
  choose lat lon d4 = b4 →
  str_index base32
    (set_bit b4 (set_bit b3 (set_bit b2 (set_bit b1 (set_bit b0 0 0) 1) 2) 3)
       4) = Ok c →
  ∃ st', encode_steps 5 lat lon st = Ok st'
       ∧ bit st' = 0 ∧ ch st' = 0
       ∧ geohash st' = snoc (geohash st) c
       ∧ dec_of st' = d5.
Proof.
  intros d1 d2 d3 d4 d5 Hbit Hch H0 H1 H2 H3 H4 Hc.
  set (s1 := advance lat lon st).
  set (s2 := advance lat lon s1).
  set (s3 := advance lat lon s2).
  set (s4 := advance lat lon s3).
  assert (C0 : choice lat lon st = b0) by exact H0.
  assert (Hd1 : dec_of s1 = d1).
  { unfold d1. rewrite <- C0. reflexivity. }
  assert (C1 : choice lat lon s1 = b1) by (rewrite <- H1, <- Hd1; reflexivity).
  assert (Hd2 : dec_of s2 = d2).
  { unfold d2. rewrite <- C1, <- Hd1. reflexivity. }
  assert (C2 : choice lat lon s2 = b2) by (rewrite <- H2, <- Hd2; reflexivity).
  assert (Hd3 : dec_of s3 = d3).
  { unfold d3. rewrite <- C2, <- Hd2. reflexivity. }
  assert (C3 : choice lat lon s3 = b3) by (rewrite <- H3, <- Hd3; reflexivity).
  assert (Hd4 : dec_of s4 = d4).
  { unfold d4. rewrite <- C3, <- Hd3. reflexivity. }
  assert (C4 : choice lat lon s4 = b4) by (rewrite <- H4, <- Hd4; reflexivity).
  assert (Hd5 : dec_of (advance lat lon s4) = d5).
  { unfold d5. rewrite <- C4, <- Hd4. reflexivity. }
  assert (E1 : encode_step lat lon st = Ok s1)
    by (apply encode_step_low; lia).
  assert (E2 : encode_step lat lon s1 = Ok s2)
    by (apply encode_step_low; cbn [s1 advance bit]; lia).
  assert (E3 : encode_step lat lon s2 = Ok s3)
    by (apply encode_step_low; cbn [s2 s1 advance bit]; lia).
  assert (E4 : encode_step lat lon s3 = Ok s4)
    by (apply encode_step_low; cbn [s3 s2 s1 advance bit]; lia).
  assert (E5 : encode_step lat lon s4
               = (c' ← str_index base32 (ch (advance lat lon s4));
                  Ok (complete lat lon s4 c')))
    by (apply encode_step_high; cbn [s4 s3 s2 s1 advance bit]; lia).
  assert (Hch5 : ch (advance lat lon s4)
    = set_bit (choice lat lon s4) (set_bit (choice lat lon s3)
        (set_bit (choice lat lon s2) (set_bit (choice lat lon s1)
           (set_bit (choice lat lon st) 0 0) 1) 2) 3) 4).
  { cbn [s4 s3 s2 s1 advance bit ch]. rewrite Hbit, Hch. reflexivity. }
  rewrite Hch5, C0, C1, C2, C3, C4, Hc, bind_Ok in E5.
  exists (complete lat lon s4 c).
  split; [cbn [encode_steps]; rewrite E1, bind_Ok, E2, bind_Ok, E3, bind_Ok,
                                E4, bind_Ok, E5; reflexivity|].
  do 3 (split; [reflexivity|]). exact Hd5.
Qed.

End CellTrace.

(** *** Intervals of binary64 numbers *)

Section Cell64.
Import B64 Codec Trace RoundTrip Cell.

(** The midpoint the code computes lies between any two numbers of the
    format that the midpoint of the values lies between. *)
Lemma midpoint64_sandwich (lo hi : float) (a b : Q) :
  finite64 lo = true → finite64 hi = true →
  in_format a → in_format b →
  (a <= (fval lo + fval hi) / 2)%Q → ((fval lo + fval hi) / 2 <= b)%Q →
  (-512 <= a)%Q → (b <= 512)%Q →
  finite64 (midpoint (lo, hi)) = true
  ∧ (a <= fval (midpoint (lo, hi)))%Q ∧ (fval (midpoint (lo, hi)) <= b)%Q.
Proof.
  unfold finite64, fval, binary64_val. rewrite !float_val_SF.
  intros Hlo Hhi Fa Fb Ha Hb Hmin Hmax.
  unfold midpoint. cbn [fst snd fdiv fadd binary64].
  rewrite div_spec, add_spec, Prim2SF_two.
  pose proof emax_big as Hbig.
  unfold Qdiv in Ha, Hb. change (/ 2)%Q with (1 # 2)%Q in Ha, Hb.
  destruct (SF64add_sandwich (Prim2SF lo) (Prim2SF hi) (2 * a) (2 * b)
              Hlo Hhi)
    as (Hfin & Hs1 & Hs2);
    try (apply in_format_double; assumption); try lra.
  apply SF64div_two_sandwich; try assumption;
    unfold Qdiv; change (/ 2)%Q with (1 # 2)%Q; lra.
Qed.

(** For finite floats [>] compares the values. *)
Lemma fgt64 (x m : float) :
  finite64 x = true → finite64 m = true →
  fgt x m = true ↔ (fval m < fval x)%Q.
Proof.
  intros Hx Hm. pose proof (exact_gt64 x m Hx Hm) as Hgt.
  unfold exact_gt in Hgt. apply eqb_prop in Hgt. rewrite Hgt.
  rewrite negb_true_iff, <- not_true_iff_false, Qle_bool_iff.
  split; [apply Qnot_le_lt | apply Qlt_not_le].
Qed.

Lemma narrow_ordered (b : bool) (iv : float * float) :
  ordered iv → ordered (narrow b iv) ∧ within (narrow b iv) iv.
Proof.
  destruct iv as [lo hi]. unfold ordered, within, narrow. cbn [fst snd].
  intros (Flo & Fhi & Hmin & Hle & Hmax).
  destruct (midpoint64 lo hi Flo Fhi Hle) as (Fm & Hm1 & Hm2); [lra..|].
  destruct b; cbn [fst snd]; repeat split; try assumption; lra.
Qed.

Lemma within_refl (a : float * float) : within a a.
Proof. unfold within. split; apply Qle_refl. Qed.

Lemma within_trans (a b c : float * float) :
  within a b → within b c → within a c.
Proof. unfold within. intros [] []. split; lra. Qed.

Lemma decode_bit_on_map (b : bool) (d : dec_state float) :
  on_map d →
  on_map (decode_bit b d)
  ∧ within (d_lat_interval (decode_bit b d)) (d_lat_interval d)
  ∧ within (d_lon_interval (decode_bit b d)) (d_lon_interval d).
Proof.
  unfold on_map, decode_bit. cbn [d_lat_interval d_lon_interval d_even].
  intros [Hlat Hlon]. destruct (d_even d).
  - destruct (narrow_ordered b _ Hlon) as [? ?]. auto using within_refl.
  - destruct (narrow_ordered b _ Hlat) as [? ?]. auto using within_refl.
Qed.

Lemma decode_char_on_map (c : ascii) (d d' : dec_state float) :
  decode_char c d = Ok d' → on_map d →
  on_map d'
  ∧ within (d_lat_interval d') (d_lat_interval d)
  ∧ within (d_lon_interval d') (d_lon_interval d).
Proof.
  intros (cd & _ & _ & ->)%decode_char_bits H0.
  destruct (decode_bit_on_map (bit_of cd 16) d H0) as (H1 & Wlat1 & Wlon1).
  destruct (decode_bit_on_map (bit_of cd 8) _ H1) as (H2 & Wlat2 & Wlon2).
  destruct (decode_bit_on_map (bit_of cd 4) _ H2) as (H3 & Wlat3 & Wlon3).
  destruct (decode_bit_on_map (bit_of cd 2) _ H3) as (H4 & Wlat4 & Wlon4).
  destruct (decode_bit_on_map (bit_of cd 1) _ H4) as (H5 & Wlat5 & Wlon5).
  split; [assumption|]. split; eauto using within_trans.
Qed.

(** The rectangle of a geohash is on the map, and a part of the rectangle
    the loop started from. *)
Lemma decode_loop_on_map (s : string) :
  ∀ d d' : dec_state float,
    decode_loop s d = Ok d' → on_map d →
    on_map d'
    ∧ within (d_lat_interval d') (d_lat_interval d)
    ∧ within (d_lon_interval d') (d_lon_interval d).
Proof.
  induction s as [|c s IH]; intros d d' Hrun Hd.
  - injection Hrun as <-. auto using within_refl.
  - cbn [decode_loop] in Hrun.
    apply bind_Ok_inv in Hrun as (d1 & Hd1 & Hrun).
    destruct (decode_char_on_map c d d1 Hd1 Hd) as (H1 & Wlat1 & Wlon1).
    destruct (IH d1 d' Hrun H1) as (H' & Wlat & Wlon).
    split; [assumption|]. split; eauto using within_trans.
Qed.

Lemma dec_init_on_map : on_map dec_init.
Proof.
  unfold on_map, ordered.
  repeat split; first [vm_compute; reflexivity | vm_compute; discriminate].
Qed.

Lemma narrow_interior (b : bool) (iv : float * float) (x : float) :
  ordered iv → finite64 x = true →
  interior (narrow b iv) x →
  interior iv x ∧ fgt x (midpoint iv) = b.
Proof.
  destruct iv as [lo hi]. unfold ordered, interior, narrow. cbn [fst snd].
  intros (Flo & Fhi & Hmin & Hle & Hmax) Fx.
  destruct (midpoint64 lo hi Flo Fhi Hle) as (Fm & Hm1 & Hm2); [lra..|].
  pose proof (fgt64 x (midpoint (lo, hi)) Fx Fm) as Hgt.
  destruct b; cbn [fst snd]; intros Hx.
  - split; [lra|]. apply Hgt. lra.
  - split; [lra|]. apply not_true_iff_false. rewrite Hgt. lra.
Qed.

(** A point inside the narrowed rectangle is inside the rectangle, and the
    comparison of the encoder comes out as the bit. *)
Lemma decode_bit_interior (lat lon : float) (b : bool)
    (d : dec_state float) :
  finite64 lat = true → finite64 lon = true → on_map d →
  interior (d_lat_interval (decode_bit b d)) lat →
  interior (d_lon_interval (decode_bit b d)) lon →
  interior (d_lat_interval d) lat ∧ interior (d_lon_interval d) lon
  ∧ choose lat lon d = b.
Proof.
  unfold on_map, decode_bit, choose.
  cbn [d_lat_interval d_lon_interval d_even].
  intros Flat Flon [Olat Olon]. destruct (d_even d); intros Hlat Hlon.
  - destruct (narrow_interior b _ lon Olon Flon Hlon). auto.
  - destruct (narrow_interior b _ lat Olat Flat Hlat). auto.
Qed.

(** A point inside the rectangle of the next character makes the encoder
    append that character. *)
Lemma encode_block_interior (lat lon : float) (st : enc_state float)
    (c : ascii) (d' : dec_state float) :
  finite64 lat = true → finite64 lon = true → on_map (dec_of st) →
  bit st = 0 → ch st = 0 →
  decode_char c (dec_of st) = Ok d' →
  interior (d_lat_interval d') lat → interior (d_lon_interval d') lon →
  interior (lat_interval st) lat ∧ interior (lon_interval st) lon
  ∧ ∃ st', encode_steps 5 lat lon st = Ok st'
         ∧ bit st' = 0 ∧ ch st' = 0
         ∧ geohash st' = snoc (geohash st) c
         ∧ dec_of st' = d'.
Proof.
  intros Flat Flon M0 Hbit Hch (cd & Hcd & _ & ->)%decode_char_bits
    Hlat5 Hlon5.
  destruct (decode_bit_on_map (bit_of cd 16) _ M0) as (M1 & _).
  destruct (decode_bit_on_map (bit_of cd 8) _ M1) as (M2 & _).
  destruct (decode_bit_on_map (bit_of cd 4) _ M2) as (M3 & _).
  destruct (decode_bit_on_map (bit_of cd 2) _ M3) as (M4 & _).
  destruct (decode_bit_interior lat lon _ _ Flat Flon M4 Hlat5 Hlon5)
    as (Hlat4 & Hlon4 & H4).
  destruct (decode_bit_interior lat lon _ _ Flat Flon M3 Hlat4 Hlon4)
    as (Hlat3 & Hlon3 & H3).
  destruct (decode_bit_interior lat lon _ _ Flat Flon M2 Hlat3 Hlon3)
    as (Hlat2 & Hlon2 & H2).
  destruct (decode_bit_interior lat lon _ _ Flat Flon M1 Hlat2 Hlon2)
    as (Hlat1 & Hlon1 & H1).
  destruct (decode_bit_interior lat lon _ _ Flat Flon M0 Hlat1 Hlon1)
    as (Hlat0 & Hlon0 & H0).
  do 2 (split; [assumption|]).
  exact (encode_block_bits lat lon st c _ _ _ _ _ Hbit Hch H0 H1 H2 H3 H4
           (index_of_bits c cd Hcd)).
Qed.

(** The encoder follows the decoder: on a point inside the rectangle of [g]
    it has written [g] after [5 * len(g)] iterations. *)
Lemma encode_follows (lat lon : float) (g : string) :
  finite64 lat = true → finite64 lon = true →
  ∀ d, decode_loop g dec_init = Ok d →
    interior (d_lat_interval d) lat → interior (d_lon_interval d) lon →
    ∃ st, encode_steps (5 * String.length g) lat lon enc_init = Ok st
        ∧ bit st = 0 ∧ ch st = 0
        ∧ geohash st = g
        ∧ dec_of st = d.
Proof.
  intros Flat Flon.
  induction g as [|g c IH] using string_snoc_ind; intros d Hd Hlat Hlon.
  - injection Hd as <-. exists enc_init. repeat split; reflexivity.
  - rewrite decode_loop_snoc in Hd.
    apply bind_Ok_inv in Hd as (d0 & Hd0 & Hc).
    destruct (decode_loop_on_map g _ d0 Hd0 dec_init_on_map) as (M0 & _).
    assert (Hst : ∀ st0, dec_of st0 = d0 → bit st0 = 0 → ch st0 = 0 →
              interior (lat_interval st0) lat ∧ interior (lon_interval st0) lon
              ∧ ∃ st', encode_steps 5 lat lon st0 = Ok st'
                     ∧ bit st' = 0 ∧ ch st' = 0
                     ∧ geohash st' = snoc (geohash st0) c
                     ∧ dec_of st' = d).
    { intros st0 Hdec Hbit Hch. rewrite <- Hdec in Hc, M0.
      exact (encode_block_interior lat lon st0 c d Flat Flon M0 Hbit Hch Hc
               Hlat Hlon). }
    destruct (Hst {| lat_interval := d_lat_interval d0;
                     lon_interval := d_lon_interval d0;
                     geohash := EmptyString; bit := 0; ch := 0;
                     even := d_even d0 |})
      as (Hlat0 & Hlon0 & _); [by destruct d0|reflexivity..|].
    cbn [lat_interval lon_interval] in Hlat0, Hlon0.
    destruct (IH d0 Hd0 Hlat0 Hlon0) as (st0 & Hst0 & Hbit & Hch & Hg & Hdec).
    destruct (Hst st0 Hdec Hbit Hch)
      as (_ & _ & st & Hrun & Hbit' & Hch' & Hg' & Hdec').
    exists st. rewrite length_snoc.
    replace (5 * S (String.length g))%nat
      with (5 * String.length g + 5)%nat by lia.
    rewrite encode_steps_add, Hst0, bind_Ok.
    split; [exact Hrun|]. do 2 (split; [assumption|]).
    split; [rewrite Hg', Hg; reflexivity | exact Hdec'].
Qed.

(** *** The encoder on binary64 *)

Lemma encode_step_dec (lat lon : float) (st st' : enc_state float) :
  encode_step lat lon st = Ok st' →
  dec_of st' = decode_bit (choice lat lon st) (dec_of st).
Proof.
  destruct (decide (bit st < 4)) as [Hlow | Hhigh].
  - rewrite encode_step_low by exact Hlow. by intros [= <-].
  - rewrite encode_step_high by exact Hhigh.
    intros (c & _ & [= <-])%bind_Ok_inv. done.
Qed.

Lemma step_faithful64 (lat lon : float) (st : enc_state float) :
  finite64 lat = true → finite64 lon = true → on_map (dec_of st) →
  step_faithful lat lon st = true.
Proof.
  unfold on_map, ordered, step_faithful, dec_of.
  cbn [d_lat_interval d_lon_interval].
  intros Flat Flon [(Fa & Fb & Ha & Hab & Hb) (Fc & Fd & Hc & Hcd & Hd)].
  destruct (even st); apply exact_gt64; try assumption.
  - destruct (lon_interval st) as [lo hi]. cbn [fst snd] in *.
    apply midpoint64; try assumption; lra.
  - destruct (lat_interval st) as [lo hi]. cbn [fst snd] in *.
    apply midpoint64; try assumption; lra.
Qed.

(** The coordinates stay in the intervals of the encoder, and the intervals
    stay on the map. *)
Lemma enclosed_steps64 (lat lon : float) (n : nat) :
  finite64 lat = true → finite64 lon = true →
  ∀ st st', on_map (dec_of st) → enclosed lat lon st →
    encode_steps n lat lon st = Ok st' →
    on_map (dec_of st') ∧ enclosed lat lon st'.
Proof.
  intros Flat Flon. induction n as [|n IH]; intros st st' Hmap Hin Hrun.
  - injection Hrun as <-. auto.
  - cbn [encode_steps] in Hrun.
    apply bind_Ok_inv in Hrun as (st1 & Hst1 & Hrun).
    apply (IH st1 st'); [| |exact Hrun].
    + rewrite (encode_step_dec lat lon st st1 Hst1).
      apply decode_bit_on_map. exact Hmap.
    + apply (enclosed_step lat lon st st1 Hin); [|exact Hst1].
      apply step_faithful64; assumption.
Qed.

Lemma inside_width (iv : float * float) (x y : float) :
  inside iv x → inside iv y → (Qabs (fval x - fval y) <= width iv)%Q.
Proof.
  unfold inside, width. intros [] []. apply Qabs_Qle_condition. split; lra.
Qed.

Lemma midpoint_inside (iv : float * float) :
  ordered iv → inside iv (midpoint iv).
Proof.
  destruct iv as [lo hi]. unfold ordered, inside. cbn [fst snd].
  intros (Flo & Fhi & Hmin & Hle & Hmax).
  destruct (midpoint64 lo hi Flo Fhi Hle) as (Fm & Hm1 & Hm2); [lra..|].
  auto.
Qed.

End Cell64.

(** *** The grid that binary64 holds without rounding *)

Section Grid.
Import B64 Codec Trace RoundTrip Cell.

Lemma Zdigits2_le (m n : Z) :
  0 <= n → - 2 ^ n < m < 2 ^ n → Zdigits2 m <= n.
Proof.
  intros Hn Hm.
  assert (Hpos : ∀ x, 0 < x < 2 ^ n → Zdigits2 x <= n).
  { intros x [Hx Hlt]. destruct (Zdigits2_bounds x Hx) as [Hlo _].
    destruct (Z.le_gt_cases (Zdigits2 x) n) as [|Hgt]; [assumption|].
    pose proof (pow2_mono n (Zdigits2 x - 1) ltac:(lia)). lia. }
  destruct (Z.lt_trichotomy m 0) as [Hneg | [-> | Hp]].
  - rewrite <- Zdigits2_opp. apply Hpos. lia.
  - exact Hn.
  - apply Hpos. lia.
Qed.

(** The multiples of 45 that the grid is made of are numbers of the
    format down to [47] bisections. *)
Lemma grid_in_format (b e : Z) :
  - 2 ^ 47 <= b <= 2 ^ 47 → -1074 <= e → in_format (F2Q (45 * b) e).
Proof.
  intros Hb He. exists (45 * b), e. split; [|reflexivity].
  rewrite fexp_eq.
  pose proof (Zdigits2_le (45 * b) 53 ltac:(lia)) as Hd.
  assert (H53 : 2 ^ 53 = 64 * 2 ^ 47) by reflexivity.
  lia.
Qed.

Lemma grid_bound (span k m : Z) :
  0 <= k → - 2 ^ k <= m <= 2 ^ k →
  (- F2Q 45 span <= F2Q (45 * m) (span - k))%Q
  ∧ (F2Q (45 * m) (span - k) <= F2Q 45 span)%Q.
Proof.
  intros Hk Hm.
  assert (Htop : (F2Q (45 * 2 ^ k) (span - k) == F2Q 45 span)%Q).
  { rewrite F2Q_shift by exact Hk.
    replace (span - k + k) with span by lia. reflexivity. }
  rewrite <- Htop, <- F2Q_opp. split; apply F2Q_le; lia.
Qed.

Lemma grid_top (span : Z) : span <= 2 → (F2Q 45 span <= 180)%Q.
Proof.
  intros Hs. unfold F2Q. pose proof (pow2_le span 2 Hs) as Hle.
  change (2 ^ 2)%Q with 4%Q in Hle. change (inject_Z 45) with 45%Q. lra.
Qed.

Lemma grid_refine (m e : Z) : (F2Q (45 * (2 * m)) (e - 1) == F2Q (45 * m) e)%Q.
Proof.
  replace (45 * (2 * m)) with (45 * m * 2 ^ 1) by lia.
  rewrite F2Q_shift by lia. replace (e - 1 + 1) with e by lia. reflexivity.
Qed.

(** Down to [47] bisections the midpoint of a cell is computed without
    rounding. *)
Lemma midpoint_on_grid (span k : Z) (iv : float * float) :
  0 <= k <= 47 → 1 <= span <= 2 → on_grid span k iv →
  finite64 (fst iv) = true ∧ finite64 (snd iv) = true
  ∧ finite64 (midpoint iv) = true
  ∧ ∃ a, - 2 ^ k <= a ∧ a + 2 <= 2 ^ k
       ∧ (fval (fst iv) == F2Q (45 * a) (span - k))%Q
       ∧ (fval (snd iv) == F2Q (45 * (a + 2)) (span - k))%Q
       ∧ (fval (midpoint iv) == F2Q (45 * (a + 1)) (span - k))%Q.
Proof.
  destruct iv as [lo hi]. unfold on_grid. cbn [fst snd].
  intros Hk Hs (Flo & Fhi & a & Ha1 & Ha2 & Hlo & Hhi).
  do 2 (split; [assumption|]).
  assert (H47 : 2 ^ k <= 2 ^ 47) by (apply pow2_mono; lia).
  assert (Fq : in_format (F2Q (45 * (a + 1)) (span - k)))
    by (apply grid_in_format; lia).
  assert (Hmid : ((fval lo + fval hi) / 2
                  == F2Q (45 * (a + 1)) (span - k))%Q).
  { rewrite Hlo, Hhi. unfold F2Q.
    rewrite !inject_Z_mult, !inject_Z_plus. field. }
  destruct (grid_bound span k (a + 1) ltac:(lia) ltac:(lia)) as [Hb1 Hb2].
  pose proof (grid_top span ltac:(lia)) as Htop.
  destruct (midpoint64_sandwich lo hi _ _ Flo Fhi Fq Fq) as (Fm & Hm1 & Hm2);
    try (rewrite Hmid; apply Qle_refl); try lra.
  split; [exact Fm|]. exists a. do 4 (split; [assumption|]).
  apply Qle_antisym; assumption.
Qed.

Lemma narrow_on_grid (span k : Z) (b : bool) (iv : float * float) :
  0 <= k <= 47 → 1 <= span <= 2 → on_grid span k iv →
  on_grid span (k + 1) (narrow b iv).
Proof.
  intros Hk Hs Hiv.
  destruct (midpoint_on_grid span k iv Hk Hs Hiv)
    as (Flo & Fhi & Fm & a & Ha1 & Ha2 & Hlo & Hhi & Hmid).
  assert (Hpow : 2 ^ (k + 1) = 2 * 2 ^ k) by (apply Z.pow_succ_r; lia).
  replace (span - (k + 1)) with (span - k - 1) by lia.
  unfold on_grid, narrow. replace (span - (k + 1)) with (span - k - 1) by lia.
  destruct b; cbn [fst snd]; do 2 (split; [assumption|]).
  - exists (2 * (a + 1)). do 2 (split; [lia|]).
    replace (2 * (a + 1) + 2) with (2 * (a + 2)) by lia.
    rewrite !grid_refine. auto.
  - exists (2 * a). do 2 (split; [lia|]).
    replace (2 * a + 2) with (2 * (a + 1)) by lia.
    rewrite !grid_refine. auto.
Qed.

Lemma on_grid_exact_mid (span k : Z) (iv : float * float) :
  0 <= k <= 47 → 1 <= span <= 2 → on_grid span k iv →
  exact_mid iv = true.
Proof.
  intros Hk Hs Hiv.
  destruct (midpoint_on_grid span k iv Hk Hs Hiv)
    as (_ & _ & _ & a & _ & _ & Hlo & Hhi & Hmid).
  apply Qeq_bool_iff. rewrite Hmid, Hlo, Hhi. unfold F2Q.
  rewrite !inject_Z_mult, !inject_Z_plus. field.
Qed.

Lemma on_grid_interior (span k : Z) (iv : float * float) :
  0 <= k <= 47 → 1 <= span <= 2 → on_grid span k iv →
  finite64 (midpoint iv) = true ∧ interior iv (midpoint iv).
Proof.
  intros Hk Hs Hiv.
  destruct (midpoint_on_grid span k iv Hk Hs Hiv)
    as (_ & _ & Fm & a & _ & _ & Hlo & Hhi & Hmid).
  split; [exact Fm|]. unfold interior. rewrite Hmid, Hlo, Hhi.
  split; apply F2Q_lt; lia.
Qed.

(** A cell of the grid is an interval on the map, of the width of its
    depth. *)
Lemma on_grid_ordered (span k : Z) (iv : float * float) :
  0 <= k → 1 <= span <= 2 → on_grid span k iv →
  ordered iv
  ∧ (- F2Q 45 span <= fval (fst iv))%Q ∧ (fval (snd iv) <= F2Q 45 span)%Q
  ∧ (width iv == F2Q 90 (span - k))%Q.
Proof.
  unfold on_grid, ordered, width.
  intros Hk Hs (Flo & Fhi & a & Ha1 & Ha2 & Hlo & Hhi).
  destruct (grid_bound span k a Hk ltac:(lia)) as [Hb1 _].
  destruct (grid_bound span k (a + 2) Hk ltac:(lia)) as [_ Hb2].
  pose proof (grid_top span ltac:(lia)) as Htop.
  assert (Hle : (F2Q (45 * a) (span - k) <= F2Q (45 * (a + 2)) (span - k))%Q)
    by (apply F2Q_le; lia).
  rewrite Hlo, Hhi. repeat split; try assumption; try lra.
  unfold F2Q. rewrite !inject_Z_mult, !inject_Z_plus.
  change (inject_Z 90) with 90%Q. change (inject_Z 45) with 45%Q.
  change (inject_Z 2) with 2%Q. ring.
Qed.

Lemma dec_on_grid_map (j : Z) (d : dec_state float) :
  0 <= j → dec_on_grid j d → on_map d.
Proof.
  intros Hj (_ & Hlon & Hlat). split.
  - apply (on_grid_ordered 1 (j / 2)); [|lia|exact Hlat].
    apply Z.div_pos; lia.
  - apply (on_grid_ordered 2 ((j + 1) / 2)); [|lia|exact Hlon].
    apply Z.div_pos; lia.
Qed.

Lemma dec_init_on_grid : dec_on_grid 0 dec_init.
Proof.
  unfold dec_on_grid, on_grid.
  split; [reflexivity|].
  split; (split; [vm_compute; reflexivity|]);
    (split; [vm_compute; reflexivity|]);
    exists (-1); repeat split; try (vm_compute; discriminate).
Qed.

Lemma decode_bit_on_grid (j : Z) (b : bool) (d : dec_state float) :
  0 <= j <= 95 → dec_on_grid j d → dec_on_grid (j + 1) (decode_bit b d).
Proof.
  intros Hj (Heven & Hlon & Hlat). unfold dec_on_grid, decode_bit.
  cbn [d_lat_interval d_lon_interval d_even].
  rewrite Heven, Z.even_add. change (Z.even 1) with false.
  destruct (Z.even j) eqn:Ej.
  - apply Z.even_spec in Ej as [q ->].
    replace ((2 * q + 1) / 2) with q in *
      by (Z.div_mod_to_equations; lia).
    replace (2 * q / 2) with q in * by (Z.div_mod_to_equations; lia).
    replace ((2 * q + 1 + 1) / 2) with (q + 1)
      by (Z.div_mod_to_equations; lia).
    split; [reflexivity|]. split; [|exact Hlat].
    apply narrow_on_grid; [lia|lia|exact Hlon].
  - assert (Hodd : Z.odd j = true) by (rewrite <- Z.negb_even, Ej; reflexivity).
    apply Z.odd_spec in Hodd as [q ->].
    replace ((2 * q + 1) / 2) with q in *
      by (Z.div_mod_to_equations; lia).
    replace ((2 * q + 1 + 1) / 2) with (q + 1) in *
      by (Z.div_mod_to_equations; lia).
    replace ((2 * q + 1 + 1 + 1) / 2) with (q + 1)
      by (Z.div_mod_to_equations; lia).
    split; [reflexivity|]. split; [exact Hlon|].
    apply narrow_on_grid; [lia|lia|exact Hlat].
Qed.

Lemma decode_char_on_grid (j : Z) (c : ascii) (d d' : dec_state float) :
  0 <= j <= 91 → dec_on_grid j d → decode_char c d = Ok d' →
  dec_on_grid (j + 5) d'.
Proof.
  intros Hj H0 (cd & _ & _ & ->)%decode_char_bits.
  replace (j + 5) with (j + 1 + 1 + 1 + 1 + 1) by lia.
  do 5 (apply decode_bit_on_grid; [lia|]). exact H0.
Qed.

Lemma decode_loop_on_grid (s : string) :
  ∀ (j : Z) (d d' : dec_state float),
    0 <= j → j + 5 * Z.of_nat (String.length s) <= 96 →
    dec_on_grid j d → decode_loop s d = Ok d' →
    dec_on_grid (j + 5 * Z.of_nat (String.length s)) d'.
Proof.
  induction s as [|c s IH]; intros j d d' Hj Hlen Hd Hrun.
  - injection Hrun as <-. cbn [String.length]. rewrite Z.add_0_r. exact Hd.
  - cbn [decode_loop] in Hrun. cbn [String.length] in *.
    apply bind_Ok_inv in Hrun as (d1 & Hd1 & Hrun).
    replace (j + 5 * Z.of_nat (S (String.length s)))
      with (j + 5 + 5 * Z.of_nat (String.length s)) by lia.
    apply (IH (j + 5) d1); [lia|lia| |exact Hrun].
    apply (decode_char_on_grid j c d); [lia|exact Hd|exact Hd1].
Qed.

Lemma encode_steps_on_grid (lat lon : float) (n : nat) :
  ∀ (j : Z) (st st' : enc_state float),
    0 <= j → j + Z.of_nat n <= 96 →
    dec_on_grid j (dec_of st) → encode_steps n lat lon st = Ok st' →
    dec_on_grid (j + Z.of_nat n) (dec_of st').
Proof.
  induction n as [|n IH]; intros j st st' Hj Hn Hst Hrun.
  - injection Hrun as <-. rewrite Z.add_0_r. exact Hst.
  - cbn [encode_steps] in Hrun.
    apply bind_Ok_inv in Hrun as (st1 & Hst1 & Hrun).
    replace (j + Z.of_nat (S n)) with (j + 1 + Z.of_nat n) by lia.
    apply (IH (j + 1) st1); [lia|lia| |exact Hrun].
    rewrite (encode_step_dec lat lon st st1 Hst1).
    apply decode_bit_on_grid; [lia|exact Hst].
Qed.

End Grid.

(** *** The round trip *)

Lemma enc_init_enclosed (lat lon : float) :
  (-90 <= fval lat <= 90)%Q → (-180 <= fval lon <= 180)%Q →
  RoundTrip.enclosed lat lon Codec.enc_init.
Proof.
  intros Hlat Hlon. unfold RoundTrip.enclosed, RoundTrip.inside.
  cbn [Codec.enc_init Codec.lat_interval Codec.lon_interval fst snd].
  assert (H1 : (fval (fconst (-90) : float) == -90)%Q) by reflexivity.
  assert (H2 : (fval (fconst 90 : float) == 90)%Q) by reflexivity.
  assert (H3 : (fval (fconst (-180) : float) == -180)%Q) by reflexivity.
  assert (H4 : (fval (fconst 180 : float) == 180)%Q) by reflexivity.
  rewrite H1, H2, H3, H4. tauto.
Qed.

(** C4 (as the code behaves).  For all numbers [lat] in [[-90, 90]] and
    [lon] in [[-180, 180]] and every precision [p], [encode_geohash lat lon p]
    returns a geohash [g] of [max(p, 0)] characters, [decode_geohash g]
    returns the midpoints of the bounding rectangle that replaying [g]
    yields, and both that point and [(lat, lon)] lie inside the rectangle, so
    that they differ by at most the rectangle's width on either axis.  Up to precision 18 no
    midpoint is rounded and they differ by at most half the width; beyond,
    rounding can cost the bound of half the width. *)
Theorem decode_encode_within (lat lon : float) (p : Z) :
  B64.finite64 lat = true → B64.finite64 lon = true →
  (-90 <= fval lat <= 90)%Q → (-180 <= fval lon <= 180)%Q →
  RoundTrip.round_trip_inside lat lon p
  ∧ (p <= 18 → RoundTrip.round_trip_within lat lon p).
Proof.
  intros Flat Flon Hlat Hlon.
  destruct (encode_run_steps lat lon p)
    as (st & Hst & Hrun & Hlen & _ & Hdec).
  assert (Henc : Codec.encode_geohash lat lon p = Ok (Codec.geohash st)).
  { unfold Codec.encode_geohash. rewrite Hst. reflexivity. }
  assert (Hpt : Codec.decode_geohash (Codec.geohash st)
                = Ok (Codec.midpoint (Codec.lat_interval st),
                      Codec.midpoint (Codec.lon_interval st))).
  { unfold Codec.decode_geohash, Codec.decode_intervals.
    rewrite Hdec. reflexivity. }
  destruct (enclosed_steps64 lat lon _ Flat Flon Codec.enc_init st
              dec_init_on_map (enc_init_enclosed lat lon Hlat Hlon) Hrun)
    as [[Mlat Mlon] [Hilat Hilon]].
  pose proof (midpoint_inside _ Mlat) as Hmlat.
  pose proof (midpoint_inside _ Mlon) as Hmlon.
  split.
  - exists (Codec.geohash st), (Trace.dec_of st),
      (Codec.midpoint (Codec.lat_interval st),
       Codec.midpoint (Codec.lon_interval st)).
    do 9 (split; [first [assumption | reflexivity]|]).
    split; apply inside_width; assumption.
  - intros Hp.
    assert (Hgrid : Cell.dec_on_grid (0 + Z.of_nat (5 * Z.to_nat p))
                      (Trace.dec_of st)).
    { apply (encode_steps_on_grid lat lon _ 0 Codec.enc_init);
        [lia|lia|exact dec_init_on_grid|exact Hrun]. }
    destruct Hgrid as (_ & Glon & Glat).
    set (j := 0 + Z.of_nat (5 * Z.to_nat p)) in *.
    assert (Klat : 0 <= j / 2 <= 47).
    { split; [apply Z.div_pos; lia|]. apply Z.div_le_upper_bound; lia. }
    assert (Klon : 0 <= (j + 1) / 2 <= 47).
    { split; [apply Z.div_pos; lia|]. apply Z.div_le_upper_bound; lia. }
    pose proof (on_grid_exact_mid 1 _ _ Klat ltac:(lia) Glat) as Elat.
    pose proof (on_grid_exact_mid 2 _ _ Klon ltac:(lia) Glon) as Elon.
    destruct (exact_mid_within _ lat Elat Hilat) as [_ Hd_lat].
    destruct (exact_mid_within _ lon Elon Hilon) as [_ Hd_lon].
    exists (Codec.geohash st), (Trace.dec_of st),
      (Codec.midpoint (Codec.lat_interval st),
       Codec.midpoint (Codec.lon_interval st)).
    auto 10.
Qed.

Lemma decode_encode_within_witness :
  RoundTrip.round_trip_inside lat64 lon64 12
  ∧ RoundTrip.round_trip_within lat64 lon64 12.
Proof.
  destruct (decode_encode_within lat64 lon64 12) as [Hin Hhalf].
  - vm_compute. reflexivity.
  - vm_compute. reflexivity.
  - vm_compute. split; discriminate.
  - vm_compute. split; discriminate.
  - split; [exact Hin | apply Hhalf; lia].
Defined.

(** C4 (as stated) fails in binary64: at precision 22 the latitude interval
    of [(57.64911, 10.40744)] is two adjacent floats, its midpoint rounds to
    the lower one, and the latitude itself is the upper one, a whole width
    away. *)
Lemma round_trip_binary64_fails :
  (-90 <= fval lat64 <= 90)%Q
  ∧ (-180 <= fval lon64 <= 180)%Q
  ∧ ¬ RoundTrip.round_trip_within lat64 lon64 22.
Proof.
  split; [vm_compute; split; discriminate|].
  split; [vm_compute; split; discriminate|].
  intros (g & rect & pt & Henc & Hrect & Hpt & _ & _ & Hlat & _).
  assert (He : Codec.encode_geohash lat64 lon64 22
               = Ok "u4pruydqqvj8pr9yc27rjq") by (vm_compute; reflexivity).
  rewrite He in Henc. injection Henc as <-.
  vm_compute in Hrect. injection Hrect as <-.
  vm_compute in Hpt. injection Hpt as <-.
  vm_compute in Hlat. apply Hlat. reflexivity.
Qed.

(** The bound of half the width is lost from precision 19 on: the longitude
    [lon19] is the upper bound of its cell of 19 characters, whose midpoint
    binary64 rounds away from it. *)
Example round_trip_binary64_sharp :
  B64.finite64 lon19 = true
  ∧ (-180 <= fval lon19 <= 180)%Q
  ∧ ¬ RoundTrip.round_trip_within (fconst 0) lon19 19.
Proof.
  split; [vm_compute; reflexivity|].
  split; [vm_compute; split; discriminate|].
  intros (g & rect & pt & Henc & Hrect & Hpt & _ & _ & _ & Hlon).
  assert (He : Codec.encode_geohash (fconst 0) lon19 19
               = Ok "qzgpbxyzbpvxypcrvxb") by (vm_compute; reflexivity).
  rewrite He in Henc. injection Henc as <-.
  vm_compute in Hrect. injection Hrect as <-.
  vm_compute in Hpt. injection Hpt as <-.
  vm_compute in Hlon. apply Hlon. reflexivity.
Qed.

(** ** Characters outside the alphabet *)

Lemma geohash_to_int_loop_invalid (s : string) :
  valid_geohash s = false →
  ∀ acc, geohash_to_int_loop s acc = Raise KeyError.
Proof.
  induction s as [|c s IH]; intros Hs acc; [discriminate Hs|].
  cbn [valid_geohash geohash_to_int_loop] in *.
  destruct (char_in c base32) eqn:Hc.
  - destruct (dict_get_valid c Hc) as (i & -> & _). rewrite bind_Ok.
    apply IH. exact Hs.
  - rewrite (dict_get_invalid c Hc). reflexivity.
Qed.

Lemma decode_loop_invalid {F : Type} `{FloatOps F} (s : string) :
  valid_geohash s = false →
  ∀ d : Codec.dec_state F, Codec.decode_loop s d = Raise KeyError.
Proof.
  induction s as [|c s IH]; intros Hs d; [discriminate Hs|].
  cbn [valid_geohash Codec.decode_loop] in *. unfold Codec.decode_char.
  destruct (char_in c base32) eqn:Hc.
  - destruct (dict_get_valid c Hc) as (i & -> & _). rewrite !bind_Ok.
    apply IH. exact Hs.
  - rewrite (dict_get_invalid c Hc). reflexivity.
Qed.

(** [neighbor] looks the last character up, and nothing else unless that
    character is on a border. *)
Lemma neighbor_invalid_last (p : string) (l : ascii) (d : string) :
  d ∈ directions → char_in l base32 = false →
  neighbor (snoc p l) d = Raise KeyError.
Proof.
  intros Hd Hl. unfold neighbor. rewrite Nat.add_comm.
  cbn [Nat.add]. rewrite neighbor_fuel_unfold, unsnoc_snoc. cbv zeta.
  assert (Hsplit : ∃ d1 d2, split_direction d = Some (d1, d2) ∧ d1 ∈ axes).
  { assert (Hcases : d ∈ axes ∨ d ∈ ["ne"; "nw"; "se"; "sw"]).
    { unfold directions in Hd. unfold axes.
      rewrite !elem_of_cons, elem_of_nil in Hd |- *. tauto. }
    destruct Hcases as [Hax | Hdiag].
    - exists d, None. split; [apply split_direction_axis|]; exact Hax.
    - destruct (split_direction_diagonal d Hdiag) as (d1 & d2 & ? & ? & _).
      eauto. }
  destruct Hsplit as (d1 & d2 & -> & Hd1).
  destruct (borders_lookup d1 (Z.of_nat (String.length (snoc p l))) Hd1)
    as (by_type & border & Hby & Hbt & Hborder).
  rewrite Hby, bind_Ok, Hbt, bind_Ok.
  destruct (char_in l border) eqn:Hlb.
  { apply Hborder in Hlb. congruence. }
  rewrite bind_Ok, (dict_get_invalid l Hl). reflexivity.
Qed.

(** C8 (as the code behaves).  On a string with a character outside the
    alphabet, [decode_geohash] and [geohash_to_int] raise [KeyError];
    [neighbor] raises it when the last character is outside the alphabet;
    [quadtree_split_geo] looks no character up and returns the matrix of the
    string's one-character extensions. *)
Theorem invalid_character (s : string) :
  valid_geohash s = false →
  (∀ (F : Type) (ops : FloatOps F),
     Codec.decode_geohash (F:=F) s = Raise KeyError)
  ∧ geohash_to_int s = Raise KeyError
  ∧ (∀ p l d, s = snoc p l → char_in l base32 = false → d ∈ directions →
       neighbor s d = Raise KeyError)
  ∧ quadtree_split_geo s None None
    = map (map (λ cell, s +:+ cell)) (z_order_matrix s).
Proof.
  intros Hs. split; [|split; [|split]].
  - intros F ops. unfold Codec.decode_geohash, Codec.decode_intervals.
    rewrite (decode_loop_invalid s Hs). reflexivity.
  - apply geohash_to_int_loop_invalid, Hs.
  - intros p l d -> Hl Hd. apply neighbor_invalid_last; assumption.
  - rewrite quadtree_split_geo_spec. reflexivity.
Qed.

Lemma invalid_character_witness :
  Codec.decode_geohash (F:=float) "u4a" = Raise KeyError
  ∧ geohash_to_int "u4a" = Raise KeyError
  ∧ neighbor "u4a" "n" = Raise KeyError.
Proof.
  destruct (invalid_character "u4a" eq_refl) as (Hdec & Hint & Hnb & _).
  split; [apply Hdec|]. split; [exact Hint|].
  apply (Hnb "u4" "a"%char "n"); [reflexivity | reflexivity|].
  unfold directions. apply elem_of_cons. auto.
Defined.

(** C8 (as stated) fails: ["a0"] and ["a"] hold a character outside the
    alphabet, yet [neighbor] and [quadtree_split_geo] return. *)
Lemma invalid_character_not_raised :
  valid_geohash "a0" = false
  ∧ neighbor "a0" "n" = Ok "a1"
  ∧ valid_geohash "a" = false
  ∧ quadtree_split_geo "a" None None !! 0%nat = Some ["ap"; "ar"; "ax"; "az"].
Proof. vm_compute. auto. Qed.

(** ** The concrete scenario *)

(** C2 (as the code behaves).  [encode_geohash(57.64911, 10.40744, 6)] is
    ["u4pruy"]; [decode_geohash("u4pruy")] is within 0.01 degrees of (57.649,
    10.407); [check_within_bounds("u1kwus", "u1kwum", "u1kwuu")] is true; but
    the north neighbour of ["u4pruy"] is ["u4pruz"], whose south neighbour is
    ["u4pru0"] and not ["u4pruy"]. *)
Theorem concrete_scenario :
  Codec.encode_geohash lat64 lon64 6 = Ok "u4pruy"
  ∧ (∃ lat lon : float,
       Codec.decode_geohash "u4pruy" = Ok (lat, lon)
       ∧ (Qabs (fval lat - 57.649) <= 0.01)%Q
       ∧ (Qabs (fval lon - 10.407) <= 0.01)%Q)
  ∧ neighbor "u4pruy" "n" = Ok "u4pruz"
  ∧ neighbor "u4pruz" "s" = Ok "u4pru0"
  ∧ check_within_bounds "u1kwus" "u1kwum" "u1kwuu" = Ok true.
Proof.
  split; [vm_compute; reflexivity|]. split.
  - eexists _, _. split; [vm_compute; reflexivity|].
    split; vm_compute; discriminate.
  - vm_compute. auto.
Qed.


(** * Part IV: the rest of the class, and more on the functions above *)

(** ** Integer packing *)

Lemma substring_app (n : nat) (s t : string) :
  (n <= String.length s)%nat →
  String.substring 0 n (s +:+ t) = String.substring 0 n s.
Proof.
  revert s. induction n as [|n IH]; intros s Hn.
  - destruct s; [destruct t|]; reflexivity.
  - destruct s as [|c s]; [cbn in Hn; lia|].
    rewrite append_cons. cbn [String.substring]. rewrite IH; [reflexivity|].
    cbn in Hn. lia.
Qed.

Lemma substring_all (s : string) :
  String.substring 0 (String.length s) s = s.
Proof.
  induction s as [|c s IH]; [reflexivity|].
  cbn [String.length String.substring]. rewrite IH. reflexivity.
Qed.

(** What [k] rounds of the loop of [int_to_geohash] put in front of the
    result: the [k] characters of the low [5 * k] bits. *)
Lemma int_to_geohash_loop_low (k : nat) (x : Z) (r : string) :
  ∃ s, int_to_geohash_loop k x r = Ok (s +:+ r)
     ∧ String.length s = k
     ∧ valid_geohash s = true
     ∧ packed s = x mod 32 ^ Z.of_nat k.
Proof.
  induction k as [|k (s & Hloop & Hlen & Hvalid & Hpacked)].
  - exists EmptyString. rewrite Z.mod_1_r. auto.
  - rewrite int_to_geohash_loop_S, Hloop, bind_Ok.
    destruct (base32_index _ (land_31_range (Z.shiftr x (5 * Z.of_nat k))))
      as (c & Hc & Hcv & Hci).
    rewrite Hc, bind_Ok. exists (String c s).
    split; [reflexivity|]. split; [cbn [String.length]; lia|].
    split; [cbn [valid_geohash]; rewrite Hcv, Hvalid; reflexivity|].
    rewrite (packed_cons c s (Z.land (Z.shiftr x (5 * Z.of_nat k)) 31))
      by (unfold dict_get; rewrite ?Hci; auto).
    rewrite Hpacked, Hlen.
    assert (Hpos : 0 < 32 ^ Z.of_nat k) by (apply Z.pow_pos_nonneg; lia).
    rewrite Nat2Z.inj_succ, Z.pow_succ_r, (Z.mul_comm 32) by lia.
    rewrite Z.rem_mul_r by lia.
    rewrite Z.shiftr_div_pow2 by lia.
    replace (2 ^ (5 * Z.of_nat k)) with (32 ^ Z.of_nat k)
      by (rewrite Z.pow_mul_r by lia; reflexivity).
    change 31 with (Z.ones 5). rewrite Z.land_ones by lia.
    change (2 ^ 5) with 32. lia.
Qed.

(** X1. [int_to_geohash] returns for every integer, negative ones included,
    and every precision: a string of [max(0, precision)] characters of the
    alphabet that packs to the low [5 * precision] bits of the integer. *)
Theorem int_to_geohash_low_bits (n precision : Z) :
  ∃ s, int_to_geohash n precision = Ok s
     ∧ String.length s = Z.to_nat precision
     ∧ valid_geohash s = true
     ∧ geohash_to_int s = Ok (n mod 32 ^ Z.max 0 precision).
Proof.
  unfold int_to_geohash.
  destruct (int_to_geohash_loop_low (Z.to_nat precision) n EmptyString)
    as (s & Hloop & Hlen & Hvalid & Hpacked).
  rewrite append_empty_r in Hloop. exists s.
  rewrite (geohash_to_int_valid s Hvalid), Hpacked.
  replace (Z.of_nat (Z.to_nat precision)) with (Z.max 0 precision) by lia.
  auto.
Qed.

(** X2. On strings of the alphabet [geohash_to_int] is positional: the
    integer of [s + t] is the integer of [s] shifted by [5 * len(t)] bits plus
    the integer of [t]. *)
Theorem geohash_to_int_app (s t : string) :
  valid_geohash s = true → valid_geohash t = true →
  ∃ a b, geohash_to_int s = Ok a
       ∧ geohash_to_int t = Ok b
       ∧ geohash_to_int (s +:+ t)
         = Ok (Z.shiftl a (5 * Z.of_nat (String.length t)) + b).
Proof.
  intros Hs Ht. exists (packed s), (packed t).
  rewrite !geohash_to_int_valid by (rewrite ?valid_geohash_app, ?Hs; auto).
  rewrite packed_app, Z.shiftl_mul_pow2, Z.pow_mul_r by (assumption || lia).
  auto.
Qed.

Lemma geohash_to_int_app_witness :
  ∃ a b, geohash_to_int "u4" = Ok a
       ∧ geohash_to_int "pruy" = Ok b
       ∧ geohash_to_int "u4pruy" = Ok (Z.shiftl a 20 + b).
Proof. exact (geohash_to_int_app "u4" "pruy" eq_refl eq_refl). Defined.

(** X3. On strings of the alphabet of one length, the order of the strings is
    the order of their integers: sorting geohashes as text and sorting them
    as packed integers give the same result. *)
Theorem geohash_to_int_order (a b : string) :
  valid_geohash a = true → valid_geohash b = true →
  String.length a = String.length b →
  ∃ x y, geohash_to_int a = Ok x
       ∧ geohash_to_int b = Ok y
       ∧ String.compare a b = (x ?= y).
Proof.
  intros Ha Hb Hlen. exists (packed a), (packed b).
  rewrite !geohash_to_int_valid by assumption.
  rewrite (compare_packed a b Ha Hb Hlen). auto.
Qed.

Lemma geohash_to_int_order_witness :
  ∃ x y, geohash_to_int "u1kwum" = Ok x
       ∧ geohash_to_int "u1kwus" = Ok y
       ∧ String.compare "u1kwum" "u1kwus" = (x ?= y).
Proof. exact (geohash_to_int_order "u1kwum" "u1kwus" eq_refl eq_refl eq_refl). Defined.

(** X4. The integer of a string of the alphabet fits the mask of the string's
    length: [create_bitmask(len(s))] returns a mask, the integer lies between
    [0] and the mask, and masking leaves it as it is. *)
Theorem geohash_to_int_fits_mask (s : string) :
  valid_geohash s = true →
  ∃ n mask,
    geohash_to_int s = Ok n
    ∧ create_bitmask (Z.of_nat (String.length s)) = Ok mask
    ∧ 0 <= n <= mask
    ∧ Z.land n mask = n.
Proof.
  intros Hs. exists (packed s), (bitmask (String.length s)).
  rewrite geohash_to_int_valid by exact Hs.
  destruct (geohash_to_int_loop_valid s 0 Hs) as [_ Hrange].
  assert (Hmask : bitmask (String.length s)
                  = 32 ^ Z.of_nat (String.length s) - 1).
  { unfold bitmask.
    rewrite Z.shiftl_1_l, Z.pow_mul_r by lia. reflexivity. }
  split; [reflexivity|]. split; [apply create_bitmask_nat|]. split; [lia|].
  destruct (aligned_packed (String.length s) s Hs (Nat.le_refl _))
    as [_ Hal].
  rewrite Z.sub_diag, Z.shiftr_0_r, substring_all in Hal. exact Hal.
Qed.

Lemma geohash_to_int_fits_mask_witness :
  ∃ n mask,
    geohash_to_int "zz" = Ok n
    ∧ create_bitmask 2 = Ok mask
    ∧ 0 <= n <= mask
    ∧ Z.land n mask = n.
Proof. exact (geohash_to_int_fits_mask "zz" eq_refl). Defined.

(** ** Bounds checks *)

(** On valid strings the integer test compares the first [n] characters of
    the three strings, [n] the shortest of the three lengths. *)
Lemma check_within_bounds_prefixes (geohash min_hash max_hash : string) :
  valid_geohash geohash = true →
  valid_geohash min_hash = true →
  valid_geohash max_hash = true →
  let n := Nat.min (Nat.min (String.length geohash) (String.length min_hash))
                   (String.length max_hash) in
  check_within_bounds geohash min_hash max_hash
  = Ok (String.leb (String.substring 0 n min_hash)
                   (String.substring 0 n geohash)
        && String.leb (String.substring 0 n geohash)
                      (String.substring 0 n max_hash)).
Proof.
  intros Hg Hmin Hmax n. unfold check_within_bounds.
  rewrite min_len_nat. fold n. rewrite create_bitmask_nat, bind_Ok.
  rewrite !geohash_to_int_valid, !bind_Ok by assumption.
  cbv zeta. rewrite !aligned_leb by (assumption || lia).
  reflexivity.
Qed.

Lemma leb_refl (s : string) : String.leb s s = true.
Proof.
  unfold String.leb.
  assert (Heq : String.compare s s = Eq).
  { induction s as [|c s IH]; [reflexivity|]. cbn [String.compare].
    unfold Ascii.compare. rewrite N.compare_refl. exact IH. }
  rewrite Heq. reflexivity.
Qed.

Lemma substring_prefix (n : nat) (a b : string) :
  String.prefix a b = true → (n <= String.length a)%nat →
  String.substring 0 n b = String.substring 0 n a.
Proof.
  intros Hpre%prefix_correct Hn. rewrite <- Hpre.
  clear Hpre. revert n b Hn.
  induction a as [|c a IH]; intros n b Hn.
  - cbn in Hn. assert (n = 0%nat) as -> by lia.
    destruct b; reflexivity.
  - destruct b as [|d b]; [reflexivity|].
    cbn [String.length String.substring].
    destruct n as [|n]; [reflexivity|].
    cbn [String.substring]. rewrite (IH n b); [reflexivity|].
    cbn in Hn. lia.
Qed.

Lemma substring_is_prefix (i : nat) (s : string) :
  String.prefix (String.substring 0 i s) s = true.
Proof.
  revert s. induction i as [|i IH]; intros s.
  - destruct s; reflexivity.
  - destruct s as [|c s]; [reflexivity|].
    cbn [String.substring String.prefix].
    destruct (ascii_dec c c); [apply IH | contradiction].
Qed.

Lemma valid_geohash_substring (i : nat) (s : string) :
  valid_geohash s = true → valid_geohash (String.substring 0 i s) = true.
Proof.
  revert s. induction i as [|i IH]; intros s Hs.
  - destruct s; reflexivity.
  - destruct s as [|c s]; [reflexivity|].
    cbn [valid_geohash String.substring] in *.
    apply andb_prop in Hs as [-> Hs]. exact (IH s Hs).
Qed.

Lemma geohash_to_int_invalid (s : string) :
  valid_geohash s = false → geohash_to_int s = Raise KeyError.
Proof. intros Hs. apply geohash_to_int_loop_invalid, Hs. Qed.

(** X5. [check_within_bounds] raises [KeyError] as soon as one of its three
    arguments holds a character outside the alphabet, whatever the other
    two are. *)
Theorem check_within_bounds_invalid (geohash min_hash max_hash : string) :
  valid_geohash geohash && valid_geohash min_hash && valid_geohash max_hash
  = false →
  check_within_bounds geohash min_hash max_hash = Raise KeyError.
Proof.
  intros Hinvalid. unfold check_within_bounds. cbv zeta.
  rewrite min_len_nat, create_bitmask_nat, bind_Ok.
  destruct (valid_geohash geohash) eqn:Hg; cycle 1.
  { rewrite (geohash_to_int_invalid geohash Hg). reflexivity. }
  rewrite (geohash_to_int_valid geohash Hg), bind_Ok.
  destruct (valid_geohash min_hash) eqn:Hmin; cycle 1.
  { rewrite (geohash_to_int_invalid min_hash Hmin). reflexivity. }
  rewrite (geohash_to_int_valid min_hash Hmin), bind_Ok.
  cbn [andb] in Hinvalid.
  rewrite (geohash_to_int_invalid max_hash Hinvalid). reflexivity.
Qed.

Lemma check_within_bounds_invalid_witness :
  check_within_bounds "u1kwus" "u1kwum" "u1kwul" = Raise KeyError.
Proof. exact (check_within_bounds_invalid "u1kwus" "u1kwum" "u1kwul" eq_refl). Defined.

(** X6. [check_within_bounds] reads the first [min(len)] characters only: once
    the geohash is as long as one of the bounds, characters appended to it do
    not change the answer. *)
Theorem check_within_bounds_truncates (geohash t min_hash max_hash : string) :
  valid_geohash geohash = true → valid_geohash t = true →
  valid_geohash min_hash = true → valid_geohash max_hash = true →
  (String.length min_hash <= String.length geohash
   ∨ String.length max_hash <= String.length geohash)%nat →
  check_within_bounds (geohash +:+ t) min_hash max_hash
  = check_within_bounds geohash min_hash max_hash.
Proof.
  intros Hg Ht Hmin Hmax Hlen.
  assert (Hgt : valid_geohash (geohash +:+ t) = true)
    by (rewrite valid_geohash_app, Hg, Ht; reflexivity).
  rewrite (check_within_bounds_prefixes _ _ _ Hgt Hmin Hmax).
  rewrite (check_within_bounds_prefixes _ _ _ Hg Hmin Hmax).
  cbv zeta. rewrite length_app.
  replace (Nat.min (Nat.min (String.length geohash + String.length t)
                            (String.length min_hash))
                   (String.length max_hash))
    with (Nat.min (Nat.min (String.length geohash) (String.length min_hash))
                  (String.length max_hash)) by lia.
  rewrite substring_app by lia. reflexivity.
Qed.

Lemma check_within_bounds_truncates_witness :
  check_within_bounds "u1kwus" "u1kws" "u1kwv"
  = check_within_bounds "u1kwu" "u1kws" "u1kwv".
Proof.
  apply (check_within_bounds_truncates "u1kwu" "s" "u1kws" "u1kwv");
    try reflexivity.
  left. cbn. lia.
Defined.

(** X7. A geohash is within the bounds given by any two of its own prefixes:
    [check_within_bounds(g, g[:i], g[:j])] is true for all [i] and [j]. *)
Theorem check_within_bounds_own_prefixes (g : string) (i j : nat) :
  valid_geohash g = true →
  check_within_bounds g (String.substring 0 i g) (String.substring 0 j g)
  = Ok true.
Proof.
  intros Hg.
  rewrite check_within_bounds_prefixes
    by (try apply valid_geohash_substring; exact Hg).
  cbv zeta.
  set (n := Nat.min _ _).
  rewrite <- (substring_prefix n _ g (substring_is_prefix i g)) by (unfold n; lia).
  rewrite <- (substring_prefix n _ g (substring_is_prefix j g)) by (unfold n; lia).
  rewrite leb_refl. reflexivity.
Qed.

Lemma check_within_bounds_own_prefixes_witness :
  check_within_bounds "u1kwus" "u1" "u1kw" = Ok true.
Proof. exact (check_within_bounds_own_prefixes "u1kwus" 2 4 eq_refl). Defined.

(** X8. On valid strings of one length the three range tests are one:
    [check_within_bounds] returns what [z_order_range_query] returns. *)
Theorem check_within_bounds_z_order (geohash lower_bound upper_bound : string) :
  valid_geohash geohash = true →
  valid_geohash lower_bound = true →
  valid_geohash upper_bound = true →
  String.length lower_bound = String.length geohash →
  String.length upper_bound = String.length geohash →
  check_within_bounds geohash lower_bound upper_bound
  = Ok (z_order_range_query geohash lower_bound upper_bound).
Proof.
  intros Hg Hlo Hhi Hllo Hlhi.
  rewrite (check_within_bounds_prefixes _ _ _ Hg Hlo Hhi). cbv zeta.
  rewrite Hllo, Hlhi, !Nat.min_id.
  assert (Hlo' : String.substring 0 (String.length geohash) lower_bound
                 = lower_bound) by (rewrite <- Hllo; apply substring_all).
  assert (Hhi' : String.substring 0 (String.length geohash) upper_bound
                 = upper_bound) by (rewrite <- Hlhi; apply substring_all).
  rewrite Hlo', Hhi', substring_all. reflexivity.
Qed.

Lemma check_within_bounds_z_order_witness :
  check_within_bounds "u1kwus" "u1kwum" "u1kwuu"
  = Ok (z_order_range_query "u1kwus" "u1kwum" "u1kwuu").
Proof.
  exact (check_within_bounds_z_order "u1kwus" "u1kwum" "u1kwuu"
           eq_refl eq_refl eq_refl eq_refl eq_refl).
Defined.

(** ** Proximity by prefix *)

Lemma substring_ge (n : nat) (s : string) :
  (String.length s <= n)%nat → String.substring 0 n s = s.
Proof.
  revert n. induction s as [|c s IH]; intros n Hn.
  - destruct n; reflexivity.
  - destruct n as [|n]; [cbn in Hn; lia|].
    cbn [String.substring]. rewrite IH; [reflexivity | cbn in Hn; lia].
Qed.

Lemma str_slice_to_nonneg (n : Z) (s : string) :
  0 <= n → str_slice_to n s = String.substring 0 (Z.to_nat n) s.
Proof.
  intros Hn. unfold str_slice_to.
  assert (Hneg : (n <? 0) = false) by (apply Z.ltb_ge; lia).
  rewrite Hneg.
  destruct (Z.le_gt_cases n (Z.of_nat (String.length s))) as [Hle | Hgt].
  - rewrite Z.min_l by lia. reflexivity.
  - rewrite Z.min_r, Nat2Z.id, substring_all, substring_ge by lia.
    reflexivity.
Qed.

(** Every slice [s[:n]] is a prefix of [s]. *)
Lemma str_slice_to_prefix (n : Z) (s : string) :
  String.prefix (str_slice_to n s) s = true.
Proof. unfold str_slice_to. apply substring_is_prefix. Qed.

Lemma prefix_trans (a b c : string) :
  String.prefix a b = true → String.prefix b c = true →
  String.prefix a c = true.
Proof.
  revert b c. induction a as [|x a IH]; intros b c Hab Hbc.
  - destruct c; reflexivity.
  - destruct b as [|y b]; [discriminate Hab|].
    destruct c as [|z c]; [discriminate Hbc|].
    cbn [String.prefix] in *.
    destruct (ascii_dec x y) as [-> |]; [|discriminate Hab].
    destruct (ascii_dec y z) as [-> |]; [|discriminate Hbc].
    exact (IH b c Hab Hbc).
Qed.

Lemma prefix_empty (s : string) : String.prefix EmptyString s = true.
Proof. destruct s; reflexivity. Qed.

Lemma substring_0 (s : string) : String.substring 0 0 s = EmptyString.
Proof. destruct s; reflexivity. Qed.

Lemma substring_prefix_le (m n : nat) (s : string) :
  (m <= n)%nat →
  String.prefix (String.substring 0 m s) (String.substring 0 n s) = true.
Proof.
  revert n s. induction m as [|m IH]; intros n s Hmn.
  - rewrite substring_0. apply prefix_empty.
  - destruct n as [|n]; [lia|]. destruct s as [|c s]; [reflexivity|].
    cbn [String.substring String.prefix].
    destruct (ascii_dec c c); [apply IH; lia | contradiction].
Qed.

(** X9. For a prefix length within both strings, [check_proximity] holds
    exactly when the two strings have the same first [prefix_length]
    characters. *)
Theorem check_proximity_same_prefix (geohash1 geohash2 : string) (n : nat) :
  (n <= String.length geohash1)%nat → (n <= String.length geohash2)%nat →
  check_proximity geohash1 geohash2 (Z.of_nat n) = true
  ↔ String.substring 0 n geohash1 = String.substring 0 n geohash2.
Proof.
  intros H1 H2. unfold check_proximity.
  rewrite str_slice_to_nonneg, Nat2Z.id, prefix_correct by lia.
  destruct (str_take_split n geohash2 H2) as (_ & _ & -> & _).
  reflexivity.
Qed.

Lemma check_proximity_same_prefix_witness :
  check_proximity "u4pruy" "u4pxx" 3 = true
  ↔ String.substring 0 3 "u4pruy" = String.substring 0 3 "u4pxx".
Proof.
  apply (check_proximity_same_prefix "u4pruy" "u4pxx" 3); cbn; lia.
Defined.

(** X10. Proximity at a prefix length implies proximity at every shorter
    one. *)
Theorem check_proximity_shorter (geohash1 geohash2 : string) (m n : Z) :
  0 <= m <= n →
  check_proximity geohash1 geohash2 n = true →
  check_proximity geohash1 geohash2 m = true.
Proof.
  intros Hmn. unfold check_proximity.
  rewrite !str_slice_to_nonneg by lia.
  apply prefix_trans, substring_prefix_le. lia.
Qed.

Lemma check_proximity_shorter_witness :
  check_proximity "u4pruy" "u4pxx" 2 = true.
Proof.
  apply (check_proximity_shorter "u4pruy" "u4pxx" 2 3); [lia | reflexivity].
Defined.

(** X11. Encoding one point at two precisions gives geohashes in proximity:
    the longer one starts with every slice [g1[:n]] of the shorter one,
    whatever [n] is. *)
Theorem check_proximity_encode {F : Type} `{FloatOps F}
    (lat lon : F) (p1 p2 n : Z) :
  p1 <= p2 →
  ∃ g1 g2, Codec.encode_geohash lat lon p1 = Ok g1
         ∧ Codec.encode_geohash lat lon p2 = Ok g2
         ∧ check_proximity g2 g1 n = true.
Proof.
  intros Hle.
  destruct (encode_chars_extend lat lon (Z.to_nat p1)
              (Z.to_nat p2 - Z.to_nat p1))
    as (st & st' & t & Hst & Hst' & _ & _ & Hg).
  replace (Z.to_nat p1 + (Z.to_nat p2 - Z.to_nat p1))%nat
    with (Z.to_nat p2) in Hst' by lia.
  exists (Codec.geohash st), (Codec.geohash st').
  rewrite (encode_geohash_steps lat lon p1 st Hst).
  rewrite (encode_geohash_steps lat lon p2 st' Hst').
  do 2 (split; [reflexivity|]). unfold check_proximity.
  apply (prefix_trans _ (Codec.geohash st)); [apply str_slice_to_prefix|].
  rewrite Hg. apply prefix_app.
Qed.

Lemma check_proximity_encode_witness :
  ∃ g1 g2, Codec.encode_geohash lat64 lon64 4 = Ok g1
         ∧ Codec.encode_geohash lat64 lon64 9 = Ok g2
         ∧ check_proximity g2 g1 (-1) = true.
Proof. exact (check_proximity_encode lat64 lon64 4 9 (-1) ltac:(lia)). Defined.

(** ** The square quadtree split *)

(** On the lengths that occur, [int(sqrt(n))] computed on binary64 is the
    integer square root. *)
Lemma int_sqrt_binary64 (k : nat) :
  (k <= 32)%nat →
  Z.to_nat (int_of_float (PrimFloat.sqrt (float_of_Z (Z.of_nat k))))
  = Nat.sqrt k.
Proof.
  intros Hk. assert (Hc : k ∈ seq 0 33) by (apply elem_of_seq; lia).
  vm_compute in Hc.
  repeat (apply elem_of_cons in Hc as [-> | Hc]; [vm_compute; reflexivity|]).
  by apply elem_of_nil in Hc.
Qed.

Lemma split_children_length (geohash : string)
    (min_hash max_hash : option string) :
  (length (split_children geohash min_hash max_hash) <= 32)%nat.
Proof.
  unfold split_children.
  destruct (truthy min_hash && truthy max_hash).
  - etransitivity; [apply filter_length_le|]. rewrite length_map. reflexivity.
  - rewrite length_map. reflexivity.
Qed.

(** Cutting the first [m] rows of [size] entries off a list that is long
    enough. *)
Lemma rows_concat {A : Type} (size : nat) (l : list A) (m : nat) :
  (m * size <= length l)%nat →
  concat (map (λ i, list_slice (i * size) ((i + 1) * size) l) (seq 0 m))
  = take (m * size) l
  ∧ Forall (λ row, length row = size)
      (map (λ i, list_slice (i * size) ((i + 1) * size) l) (seq 0 m)).
Proof.
  induction m as [|m IH]; intros Hlen; [split; [reflexivity | constructor]|].
  destruct IH as [Hconcat Hrows]; [lia|].
  rewrite seq_S, map_app, concat_app, Hconcat. cbn [map concat Nat.add].
  unfold list_slice.
  replace ((m + 1) * size - m * size)%nat with size by lia.
  rewrite app_nil_r, take_take_drop. split; [f_equal; lia|].
  apply Forall_app. split; [exact Hrows|].
  constructor; [|constructor].
  rewrite length_take_le; [reflexivity|]. rewrite length_drop. lia.
Qed.

Lemma quadtree_split_children (geohash : string)
    (min_hash max_hash : option string) :
  quadtree_split geohash min_hash max_hash
  = let children := split_children geohash min_hash max_hash in
    let size := Nat.sqrt (length children) in
    map (λ i, list_slice (i * size) ((i + 1) * size) children) (seq 0 size).
Proof.
  unfold quadtree_split. fold (split_children geohash min_hash max_hash).
  cbv zeta. rewrite int_sqrt_binary64 by apply split_children_length.
  reflexivity.
Qed.

(** X12. [quadtree_split] returns a square matrix: [size] rows of [size]
    entries, where [size] is the integer square root of the number of children
    kept, holding the first [size * size] children kept in alphabet order.
    The children beyond that are dropped. *)
Theorem quadtree_split_square (geohash : string)
    (min_hash max_hash : option string) :
  let children := split_children geohash min_hash max_hash in
  let size := Nat.sqrt (length children) in
  length (quadtree_split geohash min_hash max_hash) = size
  ∧ Forall (λ row, length row = size)
           (quadtree_split geohash min_hash max_hash)
  ∧ concat (quadtree_split geohash min_hash max_hash)
    = take (size * size) children.
Proof.
  cbv zeta. rewrite quadtree_split_children. cbv zeta.
  set (children := split_children geohash min_hash max_hash).
  set (size := Nat.sqrt (length children)).
  destruct (rows_concat size children size) as [Hconcat Hrows].
  { apply Nat.sqrt_specif. }
  rewrite length_map, length_seq. auto.
Qed.

(** X13. Without bounds [quadtree_split] returns 5 rows of 5: the children of
    the first 25 characters of the alphabet.  The seven children [g + "t"],
    ..., [g + "z"] are not in the matrix. *)
Theorem quadtree_split_drops (g : string) :
  quadtree_split g None None
  = map (map (λ c, snoc g c))
      [["0"; "1"; "2"; "3"; "4"]; ["5"; "6"; "7"; "8"; "9"];
       ["b"; "c"; "d"; "e"; "f"]; ["g"; "h"; "j"; "k"; "m"];
       ["n"; "p"; "q"; "r"; "s"]]%char
  ∧ ∀ c, c ∈ ["t"; "u"; "v"; "w"; "x"; "y"; "z"]%char →
      snoc g c ∉ concat (quadtree_split g None None).
Proof.
  assert (Hsplit : quadtree_split g None None
    = map (map (λ c, snoc g c))
      [["0"; "1"; "2"; "3"; "4"]; ["5"; "6"; "7"; "8"; "9"];
       ["b"; "c"; "d"; "e"; "f"]; ["g"; "h"; "j"; "k"; "m"];
       ["n"; "p"; "q"; "r"; "s"]]%char).
  { rewrite quadtree_split_children. reflexivity. }
  split; [exact Hsplit|]. intros c Hc Hin.
  rewrite Hsplit, <- concat_map in Hin.
  apply list_elem_of_fmap in Hin as (c' & Heq & Hc').
  apply snoc_inj in Heq as [_ ->].
  cbn [concat app] in Hc'.
  repeat (apply elem_of_cons in Hc as [-> | Hc];
          [rewrite !elem_of_cons, elem_of_nil in Hc';
           repeat (destruct Hc' as [Hc' | Hc']; [discriminate Hc'|]);
           exact Hc'|]).
  by apply elem_of_nil in Hc.
Qed.

(** ** All the neighbours *)

(** X14. A direction that is none of the eight is not reported: [neighbor]
    returns the empty string for it, whatever the geohash is. *)
Theorem neighbor_unknown_direction (gh direction : string) :
  direction ∉ directions → neighbor gh direction = Ok EmptyString.
Proof.
  intros Hd. unfold neighbor. rewrite Nat.add_comm. cbn [Nat.add].
  rewrite neighbor_fuel_unfold.
  destruct (unsnoc gh) as [[parent last_char]|]; [|reflexivity].
  cbv zeta. unfold split_direction.
  rewrite !bool_decide_eq_false_2; [reflexivity|..];
    intros Hin; apply Hd; unfold directions;
    rewrite !elem_of_cons, elem_of_nil in Hin;
    rewrite !elem_of_cons, elem_of_nil; tauto.
Qed.

Lemma neighbor_unknown_direction_witness :
  neighbor "u4pruy" "north" = Ok EmptyString.
Proof.
  apply (neighbor_unknown_direction "u4pruy" "north").
  unfold directions. rewrite !elem_of_cons, elem_of_nil.
  intros H; repeat (destruct H as [H | H]; [discriminate H|]); exact H.
Defined.

Lemma successor_neq (l l' : ascii) : successor l l' → l' ≠ l.
Proof.
  intros (i & Hi & Hi') ->. rewrite Hi in Hi'. injection Hi' as Hi'.
  assert (Hc : i ∈ seqZ 0 32).
  { apply elem_of_seqZ. rewrite Hi'.
    pose proof (Z.mod_pos_bound (i + 1) 32). lia. }
  clear -Hi' Hc. vm_compute in Hc.
  repeat (apply elem_of_cons in Hc as [-> | Hc]; [discriminate Hi'|]).
  by apply elem_of_nil in Hc.
Qed.

(** In each of the eight directions the neighbour of a non-empty valid
    geohash is a valid geohash of the same length, with another last
    character. *)
Lemma neighbor_moves (gh d : string) :
  d ∈ directions → valid_geohash gh = true → gh ≠ EmptyString →
  ∃ r, neighbor gh d = Ok r
     ∧ String.length r = String.length gh
     ∧ valid_geohash r = true
     ∧ r ≠ gh.
Proof.
  intros Hd Hgh Hne. unfold neighbor.
  destruct (unsnoc gh) as [[p l]|] eqn:Hu;
    [|apply unsnoc_None in Hu; contradiction].
  apply unsnoc_Some in Hu.
  assert (Hcases : d ∈ axes ∨ d ∈ ["ne"; "nw"; "se"; "sw"]).
  { unfold directions in Hd. unfold axes.
    rewrite !elem_of_cons, elem_of_nil in Hd |- *. tauto. }
  destruct Hcases as [Hax | Hdiag].
  - destruct (neighbor_fuel_axis d Hax _ gh eq_refl Hgh)
      as (r & Hr & Hlen & Hv & Hlast).
    exists r. rewrite Hr by lia. do 3 (split; [done|]). intros ->.
    destruct (Hlast p l Hu) as (p' & l' & Heq & Hs).
    rewrite Hu in Heq. apply snoc_inj in Heq as [_ <-].
    exact (successor_neq l l Hs eq_refl).
  - destruct (split_direction_diagonal d Hdiag)
      as (d1 & d2 & Hsplit & Hd1 & Hd2).
    replace (String.length gh + 2)%nat with (S (String.length gh + 1)) by lia.
    rewrite (neighbor_fuel_diagonal _ gh d d1 d2 Hsplit Hd1 Hne).
    destruct (neighbor_fuel_axis d1 Hd1 _ gh eq_refl Hgh)
      as (r1 & Hr1 & Hlen1 & Hv1 & Hlast1).
    rewrite Hr1, bind_Ok by lia.
    destruct (neighbor_fuel_axis d2 Hd2 _ r1 eq_refl Hv1)
      as (r2 & Hr2 & Hlen2 & Hv2 & Hlast2).
    exists r2. rewrite Hr2 by lia. split; [reflexivity|].
    split; [congruence|]. split; [exact Hv2|]. intros ->.
    destruct (Hlast1 p l Hu) as (p1 & l1 & -> & Hs1).
    destruct (Hlast2 p1 l1 eq_refl) as (p2 & l2 & Heq & Hs2).
    rewrite Hu in Heq. apply snoc_inj in Heq as [_ <-].
    exact (successor_twice l l1 l Hs1 Hs2 eq_refl).
Qed.

(** The loop of [calculate_neighbors] on a valid geohash. *)
Lemma calculate_neighbors_loop_valid (gh : string) (ds : list string) :
  valid_geohash gh = true → (∀ d, d ∈ ds → d ∈ directions) →
  ∀ acc, ∃ result,
    calculate_neighbors_loop gh ds acc = Ok result
    ∧ (∀ d, d ∈ ds → ∃ r, neighbor gh d = Ok r ∧ result !! d = Some r)
    ∧ (∀ d, d ∉ ds → result !! d = acc !! d).
Proof.
  intros Hgh. induction ds as [|d ds IH]; intros Hds acc.
  - exists acc. split; [reflexivity|]. split; [|reflexivity].
    intros d Hd. by apply elem_of_nil in Hd.
  - destruct (neighbor_valid gh d) as (r & Hr & _);
      [apply Hds, elem_of_cons; auto | exact Hgh |].
    cbn [calculate_neighbors_loop]. rewrite Hr, bind_Ok.
    destruct (IH (λ k Hk, Hds k (proj2 (elem_of_cons ds k d) (or_intror Hk)))
                (<[d := r]> acc)) as (result & Hloop & Hin & Hout).
    exists result. split; [exact Hloop|]. split.
    + intros k Hk. destruct (decide (k ∈ ds)) as [Hkds | Hkds];
        [exact (Hin k Hkds)|].
      apply elem_of_cons in Hk as [-> | Hk]; [|contradiction].
      exists r. rewrite (Hout d Hkds), lookup_insert_eq. auto.
    + intros k Hk. apply not_elem_of_cons in Hk as [Hkd Hk].
      rewrite (Hout k Hk), lookup_insert_ne by congruence. reflexivity.
Qed.

(** X15. On a valid geohash [calculate_neighbors] returns a dictionary with
    the eight directions as its keys; each value is [neighbor] of that
    direction, a valid geohash of the length of the input, and for a non-empty
    input never the input itself. *)
Theorem calculate_neighbors_valid (gh : string) :
  valid_geohash gh = true →
  ∃ result,
    calculate_neighbors gh = Ok result
    ∧ dom result = list_to_set directions
    ∧ ∀ d r, result !! d = Some r →
        neighbor gh d = Ok r
        ∧ String.length r = String.length gh
        ∧ valid_geohash r = true
        ∧ (gh ≠ EmptyString → r ≠ gh).
Proof.
  intros Hgh. unfold calculate_neighbors.
  destruct (calculate_neighbors_loop_valid gh directions Hgh (λ d Hd, Hd) ∅)
    as (result & Hloop & Hin & Hout).
  exists result. split; [exact Hloop|].
  assert (Hkeys : ∀ d, is_Some (result !! d) ↔ d ∈ directions).
  { intros d. split.
    - intros Hsome. destruct (decide (d ∈ directions)) as [|Hd]; [done|].
      rewrite (Hout d Hd), lookup_empty in Hsome. by destruct Hsome.
    - intros Hd. destruct (Hin d Hd) as (r & _ & ->). eauto. }
  split.
  - apply set_eq. intros d.
    rewrite elem_of_dom, elem_of_list_to_set. apply Hkeys.
  - intros d r Hdr.
    assert (Hd : d ∈ directions) by (apply Hkeys; eauto).
    destruct (Hin d Hd) as (r' & Hr' & Hlookup).
    rewrite Hdr in Hlookup. injection Hlookup as <-.
    destruct (neighbor_valid gh d Hd Hgh) as (r'' & Hr'' & Hlen & Hv).
    rewrite Hr' in Hr''. injection Hr'' as <-.
    do 3 (split; [done|]). intros Hne.
    destruct (neighbor_moves gh d Hd Hgh Hne) as (r3 & Hr3 & _ & _ & Hneq).
    rewrite Hr' in Hr3. by injection Hr3 as <-.
Qed.

Lemma calculate_neighbors_valid_witness :
  ∃ result,
    calculate_neighbors "u4pruy" = Ok result
    ∧ dom result = list_to_set directions
    ∧ ∀ d r, result !! d = Some r →
        neighbor "u4pruy" d = Ok r
        ∧ String.length r = 6%nat
        ∧ valid_geohash r = true
        ∧ ("u4pruy" ≠ EmptyString → r ≠ "u4pruy").
Proof. exact (calculate_neighbors_valid "u4pruy" eq_refl). Defined.

(** X16. [calculate_neighbors] raises [KeyError] when the last character of
    the geohash is outside the alphabet: the first call of [neighbor]
    raises, and no dictionary is returned. *)
Theorem calculate_neighbors_invalid (p : string) (l : ascii) :
  char_in l base32 = false →
  calculate_neighbors (snoc p l) = Raise KeyError.
Proof.
  intros Hl. unfold calculate_neighbors, directions.
  cbn [calculate_neighbors_loop].
  rewrite (neighbor_invalid_last p l "n"); [reflexivity| |exact Hl].
  unfold directions. apply elem_of_cons. auto.
Qed.

Lemma calculate_neighbors_invalid_witness :
  calculate_neighbors "u4a" = Raise KeyError.
Proof. exact (calculate_neighbors_invalid "u4" "a"%char eq_refl). Defined.

(** ** Diagonal neighbours *)

(** X25. A diagonal neighbour is two axis neighbours in a row: for [d1] one
    of ["n"], ["s"] and [d2] one of ["e"], ["w"], [neighbor(gh, d1 + d2)] is
    [neighbor(neighbor(gh, d1), d2)], exceptions included, whatever the
    geohash is. *)
Theorem neighbor_diagonal (gh d1 d2 : string) :
  d1 ∈ ["n"; "s"] → d2 ∈ ["e"; "w"] →
  neighbor gh (d1 +:+ d2) = (r ← neighbor gh d1; neighbor r d2).
Proof.
  intros Hd1 Hd2.
  assert (Hsplit : split_direction (d1 +:+ d2) = Some (d1, Some d2)).
  { rewrite !elem_of_cons, elem_of_nil in Hd1, Hd2.
    destruct Hd1 as [-> | [-> | []]], Hd2 as [-> | [-> | []]];
      vm_compute; reflexivity. }
  assert (Hax1 : d1 ∈ axes).
  { unfold axes. rewrite !elem_of_cons, elem_of_nil in Hd1.
    rewrite !elem_of_cons. tauto. }
  assert (Hax2 : d2 ∈ axes).
  { unfold axes. rewrite !elem_of_cons, elem_of_nil in Hd2.
    rewrite !elem_of_cons. tauto. }
  destruct (decide (gh = EmptyString)) as [-> | Hne].
  { unfold neighbor. cbn [String.length Nat.add].
    rewrite !neighbor_fuel_unfold. cbn [unsnoc]. rewrite bind_Ok.
    cbn [String.length Nat.add]. rewrite neighbor_fuel_unfold.
    reflexivity. }
  unfold neighbor.
  replace (String.length gh + 2)%nat with (S (String.length gh + 1)) by lia.
  rewrite (neighbor_fuel_diagonal _ gh _ d1 d2 Hsplit Hax1 Hne).
  destruct (neighbor_fuel_axis_any d1 Hax1 _ gh eq_refl)
    as (r1 & Hr1 & Hfuel & Hlen).
  rewrite !Hr1 by lia. destruct r1 as [s| |]; [|reflexivity|contradiction].
  rewrite !bind_Ok.
  destruct (neighbor_fuel_axis_any d2 Hax2 _ s eq_refl) as (r2 & Hr2 & _).
  rewrite (Hlen s eq_refl) in Hr2. rewrite (Hlen s eq_refl).
  rewrite !Hr2 by lia. reflexivity.
Qed.

Lemma neighbor_diagonal_witness :
  neighbor "u4pruy" "ne" = (r ← neighbor "u4pruy" "n"; neighbor r "e").
Proof.
  apply (neighbor_diagonal "u4pruy" "n" "e");
    rewrite !elem_of_cons; auto.
Defined.

(** ** The helper of the first [calculate_neighbors] *)

Lemma calculate_neighbor_fuel_unfold (fuel : nat) (gh direction : string) :
  calculate_neighbor_fuel (S fuel) gh direction =
  match unsnoc gh with
  | None => Ok EmptyString
  | Some (parent, last_char) =>
      let type := Z.of_nat (String.length gh) mod 2 in
      c ← str_index direction 0;
      let dir_main := String c EmptyString in
      dir_second ←
        (if 1 <? Z.of_nat (String.length direction)
         then c2 ← str_index direction 1; Ok (Some (String c2 EmptyString))
         else Ok None);
      by_type ← table_get borders dir_main;
      border ← list_index by_type type;
      neighbor_base ←
        (if char_in last_char border
         then calculate_neighbor_fuel fuel parent dir_main
         else Ok parent);
      index ← dict_get base32_map last_char;
      i ← dict_get base32_map last_char;
      neighbor_char ← str_index base32 i;
      neighbor_char ←
        (if nonempty neighbor_base then
           i1 ← dict_get base32_map last_char;
           table ← table_get neighbors dir_main;
           row ← list_index table type;
           i2 ← dict_get_int base32_map (str_find last_char row);
           str_index base32 ((i1 + i2) mod 32)
         else Ok neighbor_char);
      let neighbor := neighbor_base +:+ String neighbor_char EmptyString in
      match dir_second with
      | Some d => calculate_neighbor_fuel fuel neighbor d
      | None => Ok neighbor
      end
  end.
Proof. reflexivity. Qed.

(** The first character of a direction is a key of [__borders] only when it
    is one of the four axes. *)
Lemma borders_main (c : ascii) :
  table_get borders (String c EmptyString) = Raise KeyError
  ∨ String c EmptyString ∈ axes.
Proof.
  destruct c as [[] [] [] [] [] [] [] []];
    first [left; vm_compute; reflexivity
          | right; unfold axes; rewrite !elem_of_cons; auto 10].
Qed.

(** [__neighbors] has two rows for each axis. *)
Lemma neighbors_lookup (d : string) (k : Z) :
  d ∈ axes →
  ∃ table row,
    table_get neighbors d = Ok table ∧ list_index table (k mod 2) = Ok row.
Proof.
  intros Hd. unfold axes in Hd.
  assert (Hk : k mod 2 = 0 ∨ k mod 2 = 1)
    by (pose proof (Z.mod_pos_bound k 2); lia).
  repeat (apply elem_of_cons in Hd as [-> | Hd];
    [destruct Hk as [-> | ->];
     (eexists _, _; split; vm_compute; reflexivity)|]).
  by apply elem_of_nil in Hd.
Qed.

Lemma str_index_head (c : ascii) (s : string) :
  str_index (String c s) 0 = Ok c.
Proof.
  unfold str_index. cbn [String.length String.get Z.ltb Z.compare Z.to_nat].
  change (0 <? 0) with false. cbv iota.
  replace (0 <=? 0) with true by reflexivity.
  replace (0 <? Z.of_nat (S (String.length s))) with true
    by (symmetry; apply Z.ltb_lt; lia).
  reflexivity.
Qed.

(** One call whose inner call, when there is one, raised [KeyError] or
    returned a string that is empty only if the parent is: the call raises
    [KeyError], unless the geohash is one valid character, which is then
    handed to the second direction. *)
Lemma calculate_neighbor_step (fuel : nat) (p : string) (l c : ascii)
    (rest : string) :
  (calculate_neighbor_fuel fuel p (String c EmptyString) = Raise KeyError
   ∨ ∃ s, calculate_neighbor_fuel fuel p (String c EmptyString) = Ok s
        ∧ (p ≠ EmptyString → nonempty s = true)) →
  calculate_neighbor_fuel (S fuel) (snoc p l) (String c rest) = Raise KeyError
  ∨ (p = EmptyString
     ∧ char_in l base32 = true
     ∧ calculate_neighbor_fuel (S fuel) (snoc p l) (String c rest)
       = match rest with
         | EmptyString => Ok (String l EmptyString)
         | String c2 _ =>
             calculate_neighbor_fuel fuel (String l EmptyString)
               (String c2 EmptyString)
         end).
Proof.
  intros Hrec. rewrite calculate_neighbor_fuel_unfold, unsnoc_snoc.
  cbv zeta. rewrite str_index_head, bind_Ok.
  assert (Hsecond :
    (if 1 <? Z.of_nat (String.length (String c rest))
     then c2 ← str_index (String c rest) 1; Ok (Some (String c2 EmptyString))
     else Ok None)
    = Ok match rest with
         | EmptyString => None
         | String c2 _ => Some (String c2 EmptyString)
         end).
  { destruct rest as [|c2 rest]; [reflexivity|].
    replace (1 <? Z.of_nat (String.length (String c (String c2 rest))))
      with true by (symmetry; apply Z.ltb_lt; cbn [String.length]; lia).
    unfold str_index. cbn [String.length].
    change (1 <? 0) with false. cbv iota.
    replace (0 <=? 1) with true by reflexivity.
    replace (1 <? Z.of_nat (S (S (String.length rest)))) with true
      by (symmetry; apply Z.ltb_lt; lia).
    reflexivity. }
  rewrite Hsecond, bind_Ok. clear Hsecond.
  destruct (borders_main c) as [-> | Hax]; [left; reflexivity|].
  destruct (borders_lookup _ (Z.of_nat (String.length (snoc p l))) Hax)
    as (by_type & border & Hby & Hbt & _).
  destruct (neighbors_lookup _ (Z.of_nat (String.length (snoc p l))) Hax)
    as (table & row & Htable & Hrow).
  rewrite Hby, bind_Ok, Hbt, bind_Ok.
  assert (Hbase :
    (if char_in l border
     then calculate_neighbor_fuel fuel p (String c EmptyString)
     else Ok p) = Raise KeyError
    ∨ ∃ s, (if char_in l border
            then calculate_neighbor_fuel fuel p (String c EmptyString)
            else Ok p) = Ok s
         ∧ (p ≠ EmptyString → nonempty s = true)).
  { destruct (char_in l border); [exact Hrec|].
    right. exists p. split; [reflexivity|]. by destruct p. }
  destruct Hbase as [-> | (s & -> & Hs)]; [left; reflexivity|].
  rewrite bind_Ok.
  destruct (char_in l base32) eqn:Hl;
    [|rewrite (dict_get_invalid l Hl); left; reflexivity].
  destruct (dict_get_valid l Hl) as (i & Hi & _ & Hc).
  rewrite Hi, !bind_Ok, Hc, bind_Ok.
  destruct s as [|a s]; cbn [nonempty].
  - right. split; [|split; [reflexivity|]].
    + destruct p; [reflexivity|]. by discriminate Hs.
    + rewrite bind_Ok. destruct rest; reflexivity.
  - left. rewrite Htable, bind_Ok, Hrow, bind_Ok. reflexivity.
Qed.

(** A call with a one-character direction: [KeyError], or a non-empty
    string for a geohash of one character, the empty string for the empty
    geohash. *)
Lemma calculate_neighbor_main (c : ascii) (n : nat) :
  ∀ gh fuel, String.length gh = n → (n < fuel)%nat →
    calculate_neighbor_fuel fuel gh (String c EmptyString) = Raise KeyError
    ∨ ∃ s, calculate_neighbor_fuel fuel gh (String c EmptyString) = Ok s
         ∧ (gh ≠ EmptyString → nonempty s = true ∧ n = 1%nat).
Proof.
  induction n as [|n IH]; intros gh fuel Hlen Hfuel.
  - destruct gh; [|discriminate Hlen].
    destruct fuel as [|fuel]; [lia|]. right. exists EmptyString. by split.
  - destruct (unsnoc gh) as [[p l]|] eqn:Hu;
      [|apply unsnoc_None in Hu; subst gh; discriminate Hlen].
    apply unsnoc_Some in Hu. subst gh. rewrite length_snoc in Hlen.
    destruct fuel as [|fuel]; [lia|].
    destruct (calculate_neighbor_step fuel p l c EmptyString)
      as [Hraise | (-> & Hl & Hr)].
    + destruct (IH p fuel ltac:(lia) ltac:(lia)) as [Hk | (s & Hs & Hne)];
        [left; exact Hk|].
      right. exists s. split; [exact Hs|]. intros Hp. apply Hne, Hp.
    + left. exact Hraise.
    + right. exists (String l EmptyString). split; [exact Hr|].
      intros _. split; [reflexivity|]. cbn [String.length] in Hlen. lia.
Qed.

(** X17. [__calculate_neighbor] computes no neighbour of a geohash of two or
    more characters: whatever the non-empty direction, it raises [KeyError],
    as it looks the integer that [str.find] returns up in a dictionary whose
    keys are characters. *)
Theorem calculate_neighbor_raises (gh direction : string) :
  (2 <= String.length gh)%nat → direction ≠ EmptyString →
  calculate_neighbor gh direction = Raise KeyError.
Proof.
  intros Hlen Hd. unfold calculate_neighbor.
  destruct direction as [|c rest]; [contradiction|].
  destruct (unsnoc gh) as [[p l]|] eqn:Hu;
    [|apply unsnoc_None in Hu; subst gh; cbn in Hlen; lia].
  apply unsnoc_Some in Hu. subst gh. rewrite length_snoc in Hlen |- *.
  replace (S (String.length p) + 2)%nat with (S (String.length p + 2))
    by lia.
  destruct (calculate_neighbor_step (String.length p + 2) p l c rest)
    as [Hraise | (-> & _)]; [|exact Hraise|cbn in Hlen; lia].
  destruct (calculate_neighbor_main c _ p (String.length p + 2) eq_refl
              ltac:(lia)) as [Hk | (s & Hs & Hne)]; [left; exact Hk|].
  right. exists s. split; [exact Hs|]. intros Hp. apply Hne, Hp.
Qed.

Lemma calculate_neighbor_raises_witness :
  calculate_neighbor "u4pruy" "n" = Raise KeyError.
Proof.
  apply (calculate_neighbor_raises "u4pruy" "n"); [cbn; lia | discriminate].
Defined.

(** X18. On a geohash of one valid character [__calculate_neighbor] returns
    the geohash itself in each of the eight directions. *)
Theorem calculate_neighbor_single (c : ascii) (direction : string) :
  char_in c base32 = true → direction ∈ directions →
  calculate_neighbor (String c EmptyString) direction
  = Ok (String c EmptyString).
Proof.
  intros Hc Hd. unfold directions in Hd.
  destruct c as [[] [] [] [] [] [] [] []];
    vm_compute in Hc; try discriminate Hc; clear Hc;
    repeat (apply elem_of_cons in Hd as [-> | Hd];
            [vm_compute; reflexivity|]);
    by apply elem_of_nil in Hd.
Qed.

Lemma calculate_neighbor_single_witness :
  calculate_neighbor "u" "ne" = Ok "u".
Proof.
  apply (calculate_neighbor_single "u"%char "ne"); [reflexivity|].
  unfold directions. rewrite !elem_of_cons. auto 10.
Defined.

(** ** The cells of the grid *)

(** X19. A geohash names the open rectangle of the points that encode to
    it: when [decode_geohash]'s loop ends on the rectangle [rect] for [g],
    every number pair strictly inside [rect] is encoded, at the precision
    [len(g)], as [g]. *)
Theorem encode_interior (g : string) (rect : Codec.dec_state float)
    (lat lon : float) :
  B64.finite64 lat = true → B64.finite64 lon = true →
  Codec.decode_intervals g = Ok rect →
  Cell.interior (Codec.d_lat_interval rect) lat →
  Cell.interior (Codec.d_lon_interval rect) lon →
  Codec.encode_geohash lat lon (Z.of_nat (String.length g)) = Ok g.
Proof.
  intros Flat Flon Hrect Hlat Hlon.
  destruct (encode_follows lat lon g Flat Flon rect Hrect Hlat Hlon)
    as (st & Hst & _ & _ & Hg & _).
  rewrite <- Hg at 2. apply encode_geohash_steps.
  rewrite Nat2Z.id. exact Hst.
Qed.

Lemma encode_interior_witness :
  Codec.encode_geohash lat64 lon64 6 = Ok "u4pruy".
Proof.
  destruct (Codec.decode_intervals (F:=float) "u4pruy") as [rect| |] eqn:Hrect;
    [|vm_compute in Hrect; discriminate Hrect..].
  apply (encode_interior "u4pruy" rect lat64 lon64);
    [vm_compute; reflexivity | vm_compute; reflexivity | exact Hrect | |];
    vm_compute in Hrect; injection Hrect as <-; vm_compute; auto.
Defined.

Lemma decode_loop_valid (s : string) :
  valid_geohash s = true →
  ∀ d : Codec.dec_state float, ∃ d', Codec.decode_loop s d = Ok d'.
Proof.
  induction s as [|c s IH]; intros Hs d; [by exists d|].
  cbn [valid_geohash] in Hs. apply andb_prop in Hs as [Hc Hs].
  destruct (decode_char_valid c d Hc) as (d1 & Hd1).
  destruct (IH Hs d1) as (d' & Hd').
  exists d'. cbn [Codec.decode_loop]. rewrite Hd1, bind_Ok. exact Hd'.
Qed.

(** X20. Up to 18 characters decoding then encoding is the identity on
    valid geohashes: [decode_geohash(g)] returns a point that
    [encode_geohash] maps back to [g] at the precision [len(g)]. *)
Theorem encode_decode_identity (g : string) :
  valid_geohash g = true → (String.length g <= 18)%nat →
  ∃ lat lon : float,
    Codec.decode_geohash g = Ok (lat, lon)
    ∧ Codec.encode_geohash lat lon (Z.of_nat (String.length g)) = Ok g.
Proof.
  intros Hg Hlen.
  destruct (decode_loop_valid g Hg Codec.dec_init) as (d & Hd).
  pose proof (decode_loop_on_grid g 0 _ d ltac:(lia) ltac:(lia)
                dec_init_on_grid Hd) as (_ & Glon & Glat).
  exists (Codec.midpoint (Codec.d_lat_interval d)),
         (Codec.midpoint (Codec.d_lon_interval d)).
  split.
  { unfold Codec.decode_geohash, Codec.decode_intervals.
    rewrite Hd. reflexivity. }
  set (j := 0 + 5 * Z.of_nat (String.length g)) in *.
  assert (Klat : 0 <= j / 2 <= 47).
  { split; [apply Z.div_pos; lia|]. apply Z.div_le_upper_bound; lia. }
  assert (Klon : 0 <= (j + 1) / 2 <= 47).
  { split; [apply Z.div_pos; lia|]. apply Z.div_le_upper_bound; lia. }
  destruct (on_grid_interior 1 _ _ Klat ltac:(lia) Glat) as [Flat Hlat].
  destruct (on_grid_interior 2 _ _ Klon ltac:(lia) Glon) as [Flon Hlon].
  destruct (encode_follows _ _ g Flat Flon d Hd Hlat Hlon)
    as (st & Hst & _ & _ & Hgst & _).
  rewrite <- Hgst at 2. apply encode_geohash_steps.
  rewrite Nat2Z.id. exact Hst.
Qed.

Lemma encode_decode_identity_witness :
  ∃ lat lon : float,
    Codec.decode_geohash "u4pruy" = Ok (lat, lon)
    ∧ Codec.encode_geohash lat lon 6 = Ok "u4pruy".
Proof.
  apply (encode_decode_identity "u4pruy"); [reflexivity|].
  cbn [String.length]. lia.
Defined.

(** Beyond that length the midpoints are rounded, and the point that
    [decode_geohash] returns can belong to another cell. *)
Example encode_decode_long :
  (pt ← Codec.decode_geohash "u4pruydqqvj8pr9yc27rjq";
   Codec.encode_geohash (F:=float) (fst pt) (snd pt) 22)
  = Ok "u4pruydqqvj8pr9yc27rjk".
Proof. vm_compute. reflexivity. Qed.

(** X21. The rectangle of a geohash is a part of the rectangle of each of
    its prefixes: when [decode_geohash]'s loop ends on [inner] for [g + t],
    it ends on some [outer] for [g], and [inner] lies within [outer] on both
    axes. *)
Theorem decode_intervals_nested (g t : string)
    (inner : Codec.dec_state float) :
  Codec.decode_intervals (g +:+ t) = Ok inner →
  ∃ outer,
    Codec.decode_intervals g = Ok outer
    ∧ Cell.within (Codec.d_lat_interval inner) (Codec.d_lat_interval outer)
    ∧ Cell.within (Codec.d_lon_interval inner) (Codec.d_lon_interval outer).
Proof.
  unfold Codec.decode_intervals. rewrite decode_loop_app.
  intros (outer & Houter & Hinner)%bind_Ok_inv.
  exists outer. split; [exact Houter|].
  destruct (decode_loop_on_map g _ outer Houter dec_init_on_map) as (Hmap & _).
  destruct (decode_loop_on_map t outer inner Hinner Hmap) as (_ & Hlat & Hlon).
  auto.
Qed.

Lemma decode_intervals_nested_witness :
  ∃ inner outer : Codec.dec_state float,
    Codec.decode_intervals "u4pruy" = Ok inner
    ∧ Codec.decode_intervals "u4p" = Ok outer
    ∧ Cell.within (Codec.d_lat_interval inner) (Codec.d_lat_interval outer)
    ∧ Cell.within (Codec.d_lon_interval inner) (Codec.d_lon_interval outer).
Proof.
  destruct (Codec.decode_intervals (F:=float) "u4pruy")
    as [inner| |] eqn:Hinner;
    [|vm_compute in Hinner; discriminate Hinner..].
  destruct (decode_intervals_nested "u4p" "ruy" inner Hinner)
    as (outer & Houter & Hlat & Hlon).
  exists inner, outer. auto.
Defined.

Lemma grid_width (k : Z) :
  0 <= k → (B64.F2Q 90 (2 - k) == 360 / inject_Z (2 ^ k))%Q
         ∧ (B64.F2Q 90 (1 - k) == 180 / inject_Z (2 ^ k))%Q.
Proof.
  intros Hk. unfold B64.F2Q. rewrite <- (pow2_Z k Hk).
  pose proof (pow2_pos k) as Hpos.
  assert (H2 : (2 ^ (2 - k) * 2 ^ k == 4)%Q).
  { rewrite <- pow2_add. replace (2 - k + k) with 2 by lia. reflexivity. }
  assert (H1 : (2 ^ (1 - k) * 2 ^ k == 2)%Q).
  { rewrite <- pow2_add. replace (1 - k + k) with 1 by lia. reflexivity. }
  change (inject_Z 90) with 90%Q.
  split.
  - transitivity (90 * (2 ^ (2 - k) * 2 ^ k) / 2 ^ k)%Q;
      [field; lra | rewrite H2; reflexivity].
  - transitivity (90 * (2 ^ (1 - k) * 2 ^ k) / 2 ^ k)%Q;
      [field; lra | rewrite H1; reflexivity].
Qed.

(** X22. Up to 19 characters the rectangle of a valid geohash of [n]
    characters is [360 / 2^⌈5n/2⌉] degrees of longitude wide and
    [180 / 2^⌊5n/2⌋] degrees of latitude high: the bits alternate between the
    axes, longitude first, and no bound is rounded. *)
Theorem cell_size (g : string) :
  valid_geohash g = true → (String.length g <= 19)%nat →
  ∃ rect : Codec.dec_state float,
    Codec.decode_intervals g = Ok rect
    ∧ (RoundTrip.width (Codec.d_lon_interval rect)
       == 360 / inject_Z (2 ^ Cell.lon_bits (String.length g)))%Q
    ∧ (RoundTrip.width (Codec.d_lat_interval rect)
       == 180 / inject_Z (2 ^ Cell.lat_bits (String.length g)))%Q.
Proof.
  intros Hg Hlen.
  destruct (decode_loop_valid g Hg Codec.dec_init) as (d & Hd).
  pose proof (decode_loop_on_grid g 0 _ d ltac:(lia) ltac:(lia)
                dec_init_on_grid Hd) as (_ & Glon & Glat).
  exists d. split; [exact Hd|].
  rewrite Z.add_0_l in Glon, Glat.
  assert (Klon : 0 <= Cell.lon_bits (String.length g))
    by (apply Z.div_pos; lia).
  assert (Klat : 0 <= Cell.lat_bits (String.length g))
    by (apply Z.div_pos; lia).
  destruct (on_grid_ordered 2 _ _ Klon ltac:(lia) Glon) as (_ & _ & _ & Wlon).
  destruct (on_grid_ordered 1 _ _ Klat ltac:(lia) Glat) as (_ & _ & _ & Wlat).
  rewrite Wlon, Wlat.
  split; [apply (grid_width _ Klon) | apply (grid_width _ Klat)].
Qed.

Lemma cell_size_witness :
  ∃ rect : Codec.dec_state float,
    Codec.decode_intervals "u4pruy" = Ok rect
    ∧ (RoundTrip.width (Codec.d_lon_interval rect)
       == 360 / inject_Z (2 ^ 15))%Q
    ∧ (RoundTrip.width (Codec.d_lat_interval rect)
       == 180 / inject_Z (2 ^ 15))%Q.
Proof.
  apply (cell_size "u4pruy"); [reflexivity|]. cbn [String.length]. lia.
Defined.

(** At 25 characters the rectangle of ['z' * 25] has no width left. *)
Example cell_size_long :
  (rect ← Codec.decode_intervals (F:=float) (Cell.repeated "z" 25);
   Ok (Qeq_bool (RoundTrip.width (Codec.d_lon_interval rect)) 0))
  = Ok true.
Proof. vm_compute. reflexivity. Qed.

(** ** Coordinates that are no point of the map *)

Section Comparisons.
Import Codec Trace Cell.
Context {F : Type} `{FloatOps F}.

(** The coordinates enter an iteration through its comparison only. *)
Lemma encode_step_choice (lat lon lat' lon' : F) (st : enc_state F) :
  choice lat lon st = choice lat' lon' st →
  encode_step lat lon st = encode_step lat' lon' st.
Proof.
  intros Hchoice.
  assert (Hadv : advance lat lon st = advance lat' lon' st)
    by (unfold advance; rewrite Hchoice; reflexivity).
  destruct (decide (bit st < 4)) as [Hlow | Hhigh].
  - rewrite !encode_step_low by exact Hlow. rewrite Hadv. reflexivity.
  - rewrite !encode_step_high by exact Hhigh. unfold complete.
    rewrite Hadv. reflexivity.
Qed.

(** Two runs agree for as long as an invariant of the iterations makes
    their comparisons agree. *)
Lemma encode_steps_agree (lat lon lat' lon' : F)
    (Inv : Z → enc_state F → Prop) (N : Z) :
  (∀ j st, Inv j st → j < N → choice lat lon st = choice lat' lon' st) →
  (∀ j st st', Inv j st → j < N →
     encode_step lat' lon' st = Ok st' → Inv (j + 1) st') →
  ∀ n j st, Inv j st → j + Z.of_nat n <= N →
    encode_steps n lat lon st = encode_steps n lat' lon' st.
Proof.
  intros Hchoice Hkeep. induction n as [|n IH]; intros j st Hst Hn;
    [reflexivity|].
  cbn [encode_steps].
  rewrite (encode_step_choice lat lon lat' lon' st
             (Hchoice j st Hst ltac:(lia))).
  destruct (encode_step lat' lon' st) as [st'| |] eqn:Hstep;
    [|reflexivity..].
  rewrite !bind_Ok. apply (IH (j + 1)); [|lia].
  exact (Hkeep j st st' Hst ltac:(lia) Hstep).
Qed.

Lemma encode_geohash_agree (lat lon lat' lon' : F) (p : Z) :
  encode_steps (5 * Z.to_nat p) lat lon enc_init
  = encode_steps (5 * Z.to_nat p) lat' lon' enc_init →
  encode_geohash lat lon p = encode_geohash lat' lon' p.
Proof.
  intros Hsteps.
  destruct (encode_run_steps lat lon p) as (st & _ & Hst & _).
  destruct (encode_run_steps lat' lon' p) as (st' & _ & Hst' & _).
  rewrite (encode_geohash_steps lat lon p st Hst).
  rewrite (encode_geohash_steps lat' lon' p st' Hst').
  rewrite Hsteps, Hst' in Hst. by injection Hst as <-.
Qed.

Lemma repeated_snoc (c : ascii) (n : nat) :
  snoc (repeated c n) c = repeated c (S n).
Proof.
  induction n as [|n IH]; [reflexivity|].
  cbn [repeated] in *. rewrite append_cons, IH. reflexivity.
Qed.

(** When every comparison is false, every character is ['0']. *)
Lemma encode_all_low (lat lon : F) :
  (∀ d, choose lat lon d = false) →
  ∀ k, ∃ st, encode_steps (5 * k) lat lon enc_init = Ok st
           ∧ bit st = 0 ∧ ch st = 0
           ∧ geohash st = repeated "0" k.
Proof.
  intros Hlow. induction k as [|k (st & Hst & Hbit & Hch & Hg)].
  - exists enc_init. repeat split; reflexivity.
  - destruct (encode_block_bits lat lon st "0" false false false false false
                Hbit Hch (Hlow _) (Hlow _) (Hlow _) (Hlow _) (Hlow _)
                eq_refl)
      as (st' & Hst' & Hbit' & Hch' & Hg' & _).
    exists st'. replace (5 * S k)%nat with (5 * k + 5)%nat by lia.
    rewrite encode_steps_add, Hst, bind_Ok.
    split; [exact Hst'|]. do 2 (split; [assumption|]).
    rewrite Hg', Hg. apply repeated_snoc.
Qed.

End Comparisons.

Section Clamp.
Import B64 Codec Trace RoundTrip Cell.

Lemma clamp_gt (lo hi x m : float) :
  finite64 lo = true → finite64 hi = true →
  finite64 x = true → finite64 m = true →
  (fval lo <= fval m)%Q → (fval m < fval hi)%Q →
  fgt (clamp lo hi x) m = fgt x m.
Proof.
  intros Flo Fhi Fx Fm Hlo Hhi. unfold clamp.
  destruct (fgt lo x) eqn:E1; [|destruct (fgt x hi) eqn:E2; [|reflexivity]];
    apply eq_true_iff_eq.
  - apply (fgt64 lo x Flo Fx) in E1.
    rewrite (fgt64 lo m Flo Fm), (fgt64 x m Fx Fm). split; intros; lra.
  - apply (fgt64 x hi Fx Fhi) in E2.
    rewrite (fgt64 hi m Fhi Fm), (fgt64 x m Fx Fm). split; intros; lra.
Qed.

Lemma clamp_finite (lo hi x : float) :
  finite64 lo = true → finite64 hi = true → finite64 x = true →
  finite64 (clamp lo hi x) = true.
Proof. intros. unfold clamp. destruct (fgt lo x), (fgt x hi); assumption. Qed.

(** On the grid a coordinate and the nearest bound of its range compare
    alike with every midpoint. *)
Lemma clamp_choice (lat lon : float) (j : Z) (st : enc_state float) :
  finite64 lat = true → finite64 lon = true →
  0 <= j <= 95 → dec_on_grid j (dec_of st) →
  choice lat lon st
  = choice (clamp (fconst (-90)) (fconst 90) lat)
      (clamp (fconst (-180)) (fconst 180) lon) st.
Proof.
  intros Flat Flon Hj (Heven & Glon & Glat). unfold choice.
  cbn [dec_of d_even d_lat_interval d_lon_interval] in *.
  assert (H1 : (fval (fconst (-90) : float) == - F2Q 45 1)%Q) by reflexivity.
  assert (H2 : (fval (fconst 90 : float) == F2Q 45 1)%Q) by reflexivity.
  assert (H3 : (fval (fconst (-180) : float) == - F2Q 45 2)%Q) by reflexivity.
  assert (H4 : (fval (fconst 180 : float) == F2Q 45 2)%Q) by reflexivity.
  rewrite Heven. destruct (Z.even j) eqn:Ej; symmetry.
  - assert (Hk : 0 <= (j + 1) / 2 <= 47).
    { apply Z.even_spec in Ej as [q ->].
      replace ((2 * q + 1) / 2) with q by (Z.div_mod_to_equations; lia).
      lia. }
    destruct (on_grid_interior 2 _ _ Hk ltac:(lia) Glon) as [Fm [Hm1 Hm2]].
    destruct (on_grid_ordered 2 _ _ (proj1 Hk) ltac:(lia) Glon)
      as (_ & Hb1 & Hb2 & _).
    apply clamp_gt; try assumption; try reflexivity;
      [rewrite H3 | rewrite H4]; lra.
  - assert (Hk : 0 <= j / 2 <= 47) by (Z.div_mod_to_equations; lia).
    destruct (on_grid_interior 1 _ _ Hk ltac:(lia) Glat) as [Fm [Hm1 Hm2]].
    destruct (on_grid_ordered 1 _ _ (proj1 Hk) ltac:(lia) Glat)
      as (_ & Hb1 & Hb2 & _).
    apply clamp_gt; try assumption; try reflexivity;
      [rewrite H1 | rewrite H2]; lra.
Qed.

End Clamp.

(** X23. [encode_geohash] checks no range.  Up to precision 19 a number
    outside [[-90, 90]] or [[-180, 180]] is encoded as the nearest bound of
    the range is. *)
Theorem encode_clamps (lat lon : float) (p : Z) :
  B64.finite64 lat = true → B64.finite64 lon = true → p <= 19 →
  Codec.encode_geohash lat lon p
  = Codec.encode_geohash (Cell.clamp (fconst (-90)) (fconst 90) lat)
      (Cell.clamp (fconst (-180)) (fconst 180) lon) p.
Proof.
  intros Flat Flon Hp.
  apply encode_geohash_agree.
  apply (encode_steps_agree _ _ _ _
           (λ j st, 0 <= j ∧ Cell.dec_on_grid j (Trace.dec_of st)) 95
           ) with (j := 0).
  - intros j st [Hj Hst] Hlt. apply (clamp_choice lat lon j); try assumption.
    lia.
  - intros j st st' [Hj Hst] Hlt Hstep. split; [lia|].
    rewrite (encode_step_dec _ _ st st' Hstep).
    apply decode_bit_on_grid; [lia|exact Hst].
  - split; [lia|exact dec_init_on_grid].
  - lia.
Qed.

Lemma encode_clamps_witness :
  Codec.encode_geohash (fconst 100 : float) (fconst 200) 6
  = Codec.encode_geohash (Cell.clamp (fconst (-90)) (fconst 90) (fconst 100))
      (Cell.clamp (fconst (-180)) (fconst 180) (fconst 200)) 6.
Proof.
  apply (encode_clamps (fconst 100) (fconst 200) 6);
    [vm_compute; reflexivity | vm_compute; reflexivity | lia].
Defined.

(** Beyond that precision the midpoints round onto the bounds, and the
    two are encoded differently. *)
Example encode_clamps_long :
  Codec.encode_geohash (fconst 100 : float) (fconst 200) 22
  = Ok (Cell.repeated "z" 22)
  ∧ Codec.encode_geohash (fconst 90 : float) (fconst 180) 22
    = Ok (snoc (Cell.repeated "z" 21) "w").
Proof. split; vm_compute; reflexivity. Qed.

Lemma is_nan_SF (x : float) :
  PrimFloat.is_nan x = true → Prim2SF x = S754_nan.
Proof.
  unfold PrimFloat.is_nan. rewrite FloatAxioms.eqb_spec. unfold SFeqb, SFcompare.
  destruct (Prim2SF x) as [s|s| |s m e]; [destruct s..| |]; try discriminate;
    [reflexivity|].
  rewrite Z.compare_refl, Pos.compare_cont_refl. by destruct s.
Qed.

Lemma nan_not_greater (x m : float) :
  PrimFloat.is_nan x = true → fgt x m = false.
Proof.
  intros Hx%is_nan_SF. cbn [fgt binary64]. rewrite FloatAxioms.ltb_spec, Hx.
  unfold SFltb, SFcompare. by destruct (Prim2SF m).
Qed.

(** X24. [encode_geohash] does not reject NaN.  In binary64 every comparison
    with NaN is false, so the geohash of two NaN coordinates is the
    character ['0'] repeated [precision] times. *)
Theorem encode_geohash_nan (lat lon : float) (p : Z) :
  PrimFloat.is_nan lat = true → PrimFloat.is_nan lon = true →
  Codec.encode_geohash lat lon p = Ok (Cell.repeated "0" (Z.to_nat p)).
Proof.
  intros Hlat Hlon.
  destruct (encode_all_low lat lon) with (k := Z.to_nat p)
    as (st & Hst & _ & _ & Hg).
  { intros d. unfold Cell.choose.
    destruct (Codec.d_even d); apply nan_not_greater; assumption. }
  rewrite <- Hg. apply encode_geohash_steps. exact Hst.
Qed.

Lemma encode_geohash_nan_witness :
  Codec.encode_geohash PrimFloat.nan PrimFloat.nan 5 = Ok "00000".
Proof.
  apply (encode_geohash_nan PrimFloat.nan PrimFloat.nan 5); reflexivity.
Defined.
